(** * port: a request-intercepting http.RoundTripper

    Shallow embedding of [port.go] and verification of its specification.

    The Go heap is modelled as a family of typed stores (one finite map per
    kind of object), pointers are optional locations ([None] is [nil]), and
    the code that touches shared state, takes the mutex or calls one of the
    external collaborators (the RequestModifier, the base RoundTripper, the
    body streams) is written in a small free monad whose actions are
    interpreted sequentially (to settle what one call does) and by
    interleaving (to settle what concurrent calls can do). *)

From stdpp Require Import gmap strings list fin_maps.

(** ** Pointers and heap objects *)

Definition loc := nat.

(** A Go pointer: [None] is [nil]. *)
Abbreviation ptr := (option loc).

(** Identifier of a stream implemented outside this package (a request body,
    the body of a response produced by the base transport). *)
Definition sid := nat.

(** An [io.ReadCloser] interface value holding an external stream:
    [None] is the nil interface. *)
Abbreviation stream := (option sid).

(** [[]string]: pointer to the backing array, offset of the first element
    in it, length and capacity.  The nil slice is [nil_slice]. *)
Record slice := mkSlice {
  s_base : ptr;
  s_off : nat;
  s_len : nat;
  s_cap : nat;
}.

Definition nil_slice : slice := mkSlice None 0 0 0.

(** [url.URL].  [User] points to a [url.Userinfo], which net/url documents
    as immutable; it is kept as an opaque reference. *)
Record URL := mkURL {
  Scheme : string;
  Opaque : string;
  User : option nat;
  UHost : string;
  Path : string;
  RawPath : string;
  ForceQuery : bool;
  RawQuery : string;
  Fragment : string;
}.

(** [http.Request], with the fields the package reads or the specification
    names.  [Header] and [Trailer] are Go maps, hence references. *)
Record Request := mkRequest {
  Method : string;
  RURL : ptr;
  Proto : string;
  ProtoMajor : Z;
  ProtoMinor : Z;
  Header : ptr;
  Body : stream;
  ContentLength : Z;
  RClose : bool;
  Host : string;
  Trailer : ptr;
  ctx : nat;
}.

Definition with_Header (m : ptr) (v : Request) : Request :=
  mkRequest (Method v) (RURL v) (Proto v) (ProtoMajor v) (ProtoMinor v) m (Body v)
    (ContentLength v) (RClose v) (Host v) (Trailer v) (ctx v).
Definition with_URL (u : ptr) (v : Request) : Request :=
  mkRequest (Method v) u (Proto v) (ProtoMajor v) (ProtoMinor v) (Header v) (Body v)
    (ContentLength v) (RClose v) (Host v) (Trailer v) (ctx v).
Definition with_Method (m : string) (v : Request) : Request :=
  mkRequest m (RURL v) (Proto v) (ProtoMajor v) (ProtoMinor v) (Header v) (Body v)
    (ContentLength v) (RClose v) (Host v) (Trailer v) (ctx v).

(** The value that fills [Response.Body]: what the base transport put there,
    or a pointer to an [onEOFReader] of this package. *)
Inductive rbody :=
| Plain (s : stream)
| Tracking (r : loc).

Record Response := mkResponse {
  StatusCode : Z;
  RBody : rbody;
}.

(** A function value of type [func()].  The only function literal of the
    package is the one [RoundTrip] stores in the reader it creates,
    [func() { k.setModReq(req, nil) }]; it captures [req].  The type
    [onEOFReader] is not exported, so every reader holds that one or nil. *)
Inductive closure :=
| UnsetModReq (req : ptr).

Record onEOFReader := mkReader {
  rc : rbody;
  fn : option closure;
}.

Record Heap := mkHeap {
  reqs : gmap loc Request;
  hdrs : gmap loc (gmap string slice);
  arrs : gmap loc (list string);
  urls : gmap loc URL;
  resps : gmap loc Response;
  rdrs : gmap loc onEOFReader;
}.

Definition set_reqs (f : gmap loc Request → gmap loc Request) (h : Heap) : Heap :=
  mkHeap (f (reqs h)) (hdrs h) (arrs h) (urls h) (resps h) (rdrs h).
Definition set_hdrs (f : gmap loc (gmap string slice) → gmap loc (gmap string slice))
    (h : Heap) : Heap :=
  mkHeap (reqs h) (f (hdrs h)) (arrs h) (urls h) (resps h) (rdrs h).
Definition set_arrs (f : gmap loc (list string) → gmap loc (list string)) (h : Heap) : Heap :=
  mkHeap (reqs h) (hdrs h) (f (arrs h)) (urls h) (resps h) (rdrs h).
Definition set_urls (f : gmap loc URL → gmap loc URL) (h : Heap) : Heap :=
  mkHeap (reqs h) (hdrs h) (arrs h) (f (urls h)) (resps h) (rdrs h).
Definition set_resps (f : gmap loc Response → gmap loc Response) (h : Heap) : Heap :=
  mkHeap (reqs h) (hdrs h) (arrs h) (urls h) (f (resps h)) (rdrs h).
Definition set_rdrs (f : gmap loc onEOFReader → gmap loc onEOFReader) (h : Heap) : Heap :=
  mkHeap (reqs h) (hdrs h) (arrs h) (urls h) (resps h) (f (rdrs h)).

(** [new(T)]: a location no object of that kind occupies. *)
Definition new_loc {V} (m : gmap loc V) : loc := fresh (dom m).

(** ** Heap computations

    A computation on the heap either yields a value and a heap, or panics
    ([None]; a nil dereference, a write to a nil map, an index out of
    range). *)

Definition heapM (A : Type) : Type := Heap → option (A * Heap).

Definition hret {A} (a : A) : heapM A := fun h => Some (a, h).
Definition hbind {A B} (m : heapM A) (f : A → heapM B) : heapM B :=
  fun h => match m h with
           | Some (a, h') => f a h'
           | None => None
           end.

Declare Scope heap_scope.
Delimit Scope heap_scope with heap.
Notation "'let!' x := m 'in' k" := (hbind m (fun x => k))
  (at level 10, x name, m at level 100, k at level 200) : heap_scope.
Notation "'do!' m 'in' k" := (hbind m (fun _ => k))
  (at level 10, m at level 100, k at level 200) : heap_scope.
Local Open Scope heap_scope.

(** [*r] for a request pointer. *)
Definition load_req (r : ptr) : heapM Request :=
  fun h => match r with
           | Some l => (fun v => (v, h)) <$> reqs h !! l
           | None => None
           end.

(** Assignment to one field of [*r]. *)
Definition modify_req (r : ptr) (f : Request → Request) : heapM unit :=
  fun h => match r with
           | Some l => match reqs h !! l with
                       | Some v => Some (tt, set_reqs <[l:=f v]> h)
                       | None => None
                       end
           | None => None
           end.

Definition alloc_req (v : Request) : heapM ptr :=
  fun h => let l := new_loc (reqs h) in Some (Some l, set_reqs <[l:=v]> h).

Definition load_url (u : ptr) : heapM URL :=
  fun h => match u with
           | Some l => (fun v => (v, h)) <$> urls h !! l
           | None => None
           end.

Definition store_url (u : ptr) (v : URL) : heapM unit :=
  fun h => match u with
           | Some l => if decide (is_Some (urls h !! l))
                       then Some (tt, set_urls <[l:=v]> h) else None
           | None => None
           end.

Definition alloc_url (v : URL) : heapM ptr :=
  fun h => let l := new_loc (urls h) in Some (Some l, set_urls <[l:=v]> h).

(** The entries of a Go map; a nil map reads as the empty map. *)
Definition map_entries (m : ptr) : heapM (gmap string slice) :=
  fun h => match m with
           | Some l => (fun v => (v, h)) <$> hdrs h !! l
           | None => Some (∅, h)
           end.

(** [make(http.Header, n)]; the size hint [n] has no observable effect. *)
Definition make_map (n : nat) : heapM ptr :=
  fun h => let l := new_loc (hdrs h) in Some (Some l, set_hdrs <[l:=∅]> h).

(** [m[k] = s]; panics on a nil map. *)
Definition map_assign (m : ptr) (k : string) (s : slice) : heapM unit :=
  fun h => match m with
           | Some l => match hdrs h !! l with
                       | Some e => Some (tt, set_hdrs <[l:=<[k:=s]> e]> h)
                       | None => None
                       end
           | None => None
           end.

(** [delete(m, k)]; a no-op on a nil map. *)
Definition map_delete (m : ptr) (k : string) : heapM unit :=
  fun h => match m with
           | Some l => match hdrs h !! l with
                       | Some e => Some (tt, set_hdrs <[l:=delete k e]> h)
                       | None => None
                       end
           | None => Some (tt, h)
           end.

(** The elements [s[0], ..., s[len(s)-1]] of a slice. *)
Definition elems (h : Heap) (s : slice) : list string :=
  match s_base s with
  | Some a => take (s_len s) (drop (s_off s) (default [] (arrs h !! a)))
  | None => []
  end.

Section Cloner.

(** The Go runtime rounds the capacity of a freshly grown array up; how far
    is not specified by the language: [slack old needed] is the number of
    spare elements it adds when a slice of capacity [old] must grow to hold
    [needed] elements. *)
Variable slack : nat → nat → nat.

(** [append(s, vs...)]. *)
Definition append (s : slice) (vs : list string) : heapM slice :=
  fun h =>
    match vs with
    | [] => Some (s, h)
    | _ =>
      let n := s_len s + length vs in
      if decide (n ≤ s_cap s) then
        match s_base s with
        | Some a =>
          match arrs h !! a with
          | Some arr =>
            let i := s_off s + s_len s in
            let arr' := take i arr ++ vs ++ drop (i + length vs) arr in
            Some (mkSlice (Some a) (s_off s) n (s_cap s), set_arrs <[a:=arr']> h)
          | None => None
          end
        | None => None
        end
      else
        let c := n + slack (s_cap s) n in
        let a := new_loc (arrs h) in
        let arr := elems h s ++ vs ++ replicate (c - n) ""%string in
        Some (mkSlice (Some a) 0 n c, set_arrs <[a:=arr]> h)
    end.

(** The loop of [cloneRequest]:
    [for k, s := range r.Header { r2.Header[k] = append([]string(nil), s...) }],
    over the entries in the order they are visited. *)
Fixpoint copy_entries (dst : ptr) (es : list (string * slice)) : heapM unit :=
  match es with
  | [] => hret tt
  | (k, s) :: es' =>
      fun h => (let! s2 := append nil_slice (elems h s) in
                do! map_assign dst k s2 in
                copy_entries dst es') h
  end.

(** [cloneRequest], port.go lines 84-102. *)
Definition cloneRequest (r : ptr) : heapM ptr :=
  (* r2 := new(http.Request); *r2 = *r *)
  let! v := load_req r in
  let! r2 := alloc_req v in
  (* r2.Header = make(http.Header, len(r.Header)) *)
  let! es := map_entries (Header v) in
  let! m2 := make_map (size es) in
  do! modify_req r2 (with_Header m2) in
  (* for k, s := range r.Header { r2.Header[k] = append([]string(nil), s...) } *)
  do! copy_entries m2 (map_to_list es) in
  (* if r.URL != nil { r2URL := new(url.URL); *r2URL = *r.URL; r2.URL = r2URL } *)
  match RURL v with
  | Some _ =>
      let! u := load_url (RURL v) in
      let! r2URL := alloc_url u in
      do! modify_req r2 (with_URL r2URL) in
      hret r2
  | None => hret r2
  end.

(** *** What a RequestModifier may do to the request it is handed

    [Intercept(req *http.Request)] receives the clone and edits it in place.
    The edits that reach the headers or the URL through that pointer are
    assignments to the map, appends to and writes into its value slices,
    assignments through the URL pointer, and replacement of either. *)
Inductive mutation :=
| SetMethod (m : string)                         (* req.Method = m *)
| HeaderSet (k : string) (vs : list string)      (* req.Header[k] = []string{vs...} *)
| HeaderAdd (k : string) (x : string)            (* req.Header[k] = append(req.Header[k], x) *)
| HeaderDel (k : string)                         (* delete(req.Header, k) *)
| HeaderPoke (k : string) (i : nat) (x : string) (* req.Header[k][i] = x *)
| HeaderReplace                                  (* req.Header = make(http.Header) *)
| URLAssign (u : URL)                            (* *req.URL = u *)
| URLReplace (u : URL).                          (* req.URL = &u *)

(** [[]string{vs...}] *)
Definition slice_lit (vs : list string) : heapM slice :=
  fun h => let a := new_loc (arrs h) in
           Some (mkSlice (Some a) 0 (length vs) (length vs), set_arrs <[a:=vs]> h).

(** [m[k]]: the zero value (the nil slice) when [k] is not bound or [m] is nil. *)
Definition map_index (m : ptr) (k : string) : heapM slice :=
  let! e := map_entries m in hret (default nil_slice (e !! k)).

(** [s[i] = x]; panics when [i] is out of range. *)
Definition slice_poke (s : slice) (i : nat) (x : string) : heapM unit :=
  fun h => if decide (i < s_len s) then
             match s_base s with
             | Some a => match arrs h !! a with
                         | Some arr => Some (tt, set_arrs <[a:=<[s_off s + i:=x]> arr]> h)
                         | None => None
                         end
             | None => None
             end
           else None.

Definition exec_mutation (req : ptr) (op : mutation) : heapM unit :=
  match op with
  | SetMethod m => modify_req req (with_Method m)
  | HeaderSet k vs =>
      let! v := load_req req in
      let! s := slice_lit vs in
      map_assign (Header v) k s
  | HeaderAdd k x =>
      let! v := load_req req in
      let! s := map_index (Header v) k in
      let! s' := append s [x] in
      map_assign (Header v) k s'
  | HeaderDel k =>
      let! v := load_req req in
      map_delete (Header v) k
  | HeaderPoke k i x =>
      let! v := load_req req in
      let! s := map_index (Header v) k in
      slice_poke s i x
  | HeaderReplace =>
      let! m := make_map 0 in
      modify_req req (with_Header m)
  | URLAssign u =>
      let! v := load_req req in
      store_url (RURL v) u
  | URLReplace u =>
      let! p := alloc_url u in
      modify_req req (with_URL p)
  end.

(** A sequence of edits; it stops at the first one that panics.  The result
    is the heap reached and whether every edit completed. *)
Fixpoint exec_mutations (req : ptr) (ops : list mutation) (h : Heap) : Heap * bool :=
  match ops with
  | [] => (h, true)
  | op :: ops' =>
      match exec_mutation req op h with
      | Some (_, h') => exec_mutations req ops' h'
      | None => (h, false)
      end
  end.

End Cloner.

(** ** What a request looks like from outside *)

(** The header collection a map pointer denotes: key to sequence of values. *)
Definition header_content (h : Heap) (m : ptr) : gmap string (list string) :=
  match m with
  | Some l => elems h <$> default ∅ (hdrs h !! l)
  | None => ∅
  end.

Definition url_value (h : Heap) (u : ptr) : option URL :=
  match u with
  | Some l => urls h !! l
  | None => None
  end.

(** Headers and URL of the request [r] points to. *)
Definition req_headers (h : Heap) (r : loc) : gmap string (list string) :=
  match reqs h !! r with
  | Some v => header_content h (Header v)
  | None => ∅
  end.

Definition req_url (h : Heap) (r : loc) : option URL :=
  match reqs h !! r with
  | Some v => url_value h (RURL v)
  | None => None
  end.

(** No pointer reachable from the request [l] dangles (what Go's memory
    safety guarantees of every live request). *)
Record closed_req (h : Heap) (l : loc) (v : Request) : Prop := {
  closed_req_at : reqs h !! l = Some v;
  closed_header : ∀ m, Header v = Some m → is_Some (hdrs h !! m);
  closed_values : ∀ m e k s a, Header v = Some m → hdrs h !! m = Some e →
                    e !! k = Some s → s_base s = Some a → is_Some (arrs h !! a);
  closed_url : ∀ u, RURL v = Some u → is_Some (urls h !! u);
}.

(** [h'] extends [h]: every object of [h] is in [h'], unchanged. *)
Record heap_incl (h h' : Heap) : Prop := {
  incl_reqs : reqs h ⊆ reqs h';
  incl_hdrs : hdrs h ⊆ hdrs h';
  incl_arrs : arrs h ⊆ arrs h';
  incl_urls : urls h ⊆ urls h';
  incl_resps : resps h ⊆ resps h';
  incl_rdrs : rdrs h ⊆ rdrs h';
}.

Infix "⊑" := heap_incl (at level 70).

(** The objects the request [l2] reaches (itself, its header map, the arrays
    of its header values, its URL) are none of the objects of [h0]. *)
Record owned (h0 h : Heap) (l2 : loc) : Prop := {
  own_req : reqs h0 !! l2 = None;
  own_hdr : ∀ v2 m, reqs h !! l2 = Some v2 → Header v2 = Some m → hdrs h0 !! m = None;
  own_arr : ∀ v2 m e k s a, reqs h !! l2 = Some v2 → Header v2 = Some m →
              hdrs h !! m = Some e → e !! k = Some s → s_base s = Some a →
              arrs h0 !! a = None;
  own_url : ∀ v2 u, reqs h !! l2 = Some v2 → RURL v2 = Some u → urls h0 !! u = None;
}.

(** ** Errors *)

(** An [error] value: the sentinel [io.EOF], some other error, or the result
    of [errors.Wrap] from github.com/pkg/errors. *)
Inductive error :=
| EOF
| Err (msg : string)
| Wrapped (cause : error) (msg : string).

Global Instance error_eq_dec : EqDecision error.
Proof. solve_decision. Defined.

(** [errors.Wrap(err, msg)]: nil for a nil [err]. *)
Definition Wrap (err : option error) (msg : string) : option error :=
  match err with
  | Some e => Some (Wrapped e msg)
  | None => None
  end.

(** [errors.Cause] *)
Fixpoint Cause (e : error) : error :=
  match e with
  | Wrapped c _ => Cause c
  | _ => e
  end.

(** [err.Error()] *)
Fixpoint ErrorString (e : error) : string :=
  match e with
  | EOF => "EOF"
  | Err msg => msg
  | Wrapped c msg => msg +:+ ": " +:+ ErrorString c
  end.

(** ** The interceptor and its collaborators *)

(** An [http.RoundTripper] value other than nil. *)
Inductive transport :=
| DefaultTransport
| CustomTransport (id : nat).

(** A [RequestModifier] value other than nil. *)
Definition modifier := nat.

(** The configuration fields of [RequestIntercepter]; [None] is the nil
    interface.  The fields [mu] and [modReq] are the shared state of the
    instance and live in the [World]. *)
Record RequestIntercepter := mkIntercepter {
  requestModifier : option modifier;
  Base : option transport;
}.

(** [NewRequestInterceptor], port.go lines 27-36. *)
Definition NewRequestInterceptor (baseTransport : option transport)
    (m : option modifier) : RequestIntercepter :=
  let t := match baseTransport with
           | None => Some DefaultTransport
           | Some _ => baseTransport
           end in
  mkIntercepter m t.

(** [base], port.go lines 132-137. *)
Definition base (k : RequestIntercepter) : transport :=
  match Base k with
  | Some t => t
  | None => DefaultTransport
  end.

(** What the code outside the package does when it is called.  [X] is the
    state of that outside world (connections, stream positions, whatever
    the modifier keeps). *)
Record Collaborators (X : Type) := mkCollaborators {
  (** capacity rounding of the runtime's slice growth *)
  slack : nat → nat → nat;
  (** [m.Intercept(req)]: may edit the heap through [req] *)
  intercept : modifier → ptr → Heap → X → Heap * X * option error;
  (** [t.RoundTrip(req)]: the streams it closed while it ran, and the
      response (if any) and error (if any) it returned *)
  roundTrip : transport → ptr → Heap → X → X * list sid * (option Response * option error);
  (** whether the dynamic type of [t] has a [CancelRequest] method *)
  is_canceler : transport → bool;
  (** [t.CancelRequest(req)] *)
  cancelRequest : transport → ptr → X → X;
  (** [s.Read(p)] with [len(p) = n] *)
  streamRead : sid → nat → X → X * (nat * option error);
  (** [s.Close()] *)
  streamClose : sid → X → X * option error;
}.
Arguments slack {X}.
Arguments intercept {X}.
Arguments roundTrip {X}.
Arguments is_canceler {X}.
Arguments cancelRequest {X}.
Arguments streamRead {X}.
Arguments streamClose {X}.

(** ** Programs

    The methods of the package are written as trees of actions.  An action
    is a step whose effect the caller does not control: an operation on the
    mutex or on the tracking map (shared between goroutines), a call of a
    collaborator, or a step on the heap. *)
Inductive action : Type → Type :=
| AHeap {B} (m : heapM B) : action B                   (* statements on heap objects *)
| ALock : action unit                                  (* k.mu.Lock() *)
| AUnlock : action unit                                (* k.mu.Unlock() *)
| AMapIsNil : action bool                              (* k.modReq == nil *)
| AMapMake : action unit                               (* k.modReq = make(map[...]...) *)
| AMapLoad (orig : ptr) : action ptr                   (* k.modReq[orig] *)
| AMapStore (orig mod_ : ptr) : action unit             (* k.modReq[orig] = mod *)
| AMapDelete (orig : ptr) : action unit                (* delete(k.modReq, orig) *)
| AIntercept (m : modifier) (req : ptr) : action (option error)
| ARoundTrip (t : transport) (req : ptr) : action (ptr * option error)
| ACancel (t : transport) (req : ptr) : action unit
| ARead (s : sid) (n : nat) : action (nat * option error)
| AClose (s : sid) : action (option error)
| ACall (c : closure) : action unit.                   (* entry into the function value c *)

Inductive prog (A : Type) : Type :=
| Ret (a : A)
| Panic
| Vis {B} (a : action B) (k : B → prog A).
Arguments Ret {A}.
Arguments Panic {A}.
Arguments Vis {A B}.

Fixpoint bind {A B} (p : prog A) (f : A → prog B) : prog B :=
  match p with
  | Ret a => f a
  | Panic => Panic
  | Vis a k => Vis a (fun b => bind (k b) f)
  end.

Definition act {B} (a : action B) : prog B := Vis a Ret.

Declare Scope prog_scope.
Delimit Scope prog_scope with prog.
Notation "x ← p ; q" := (bind p (fun x => q))
  (at level 20, p at level 100, q at level 200, only parsing) : prog_scope.
Notation "' pat ← p ; q" := (bind p (fun x => match x with pat => q end))
  (at level 20, pat pattern, p at level 100, q at level 200, only parsing) : prog_scope.
Notation "p ;; q" := (bind p (fun _ => q))
  (at level 100, q at level 200, right associativity, only parsing) : prog_scope.

(** Heap statements used by the methods. *)

(** [req.Body] *)
Definition req_body (req : ptr) : heapM stream :=
  let! v := load_req req in hret (Body v).

(** [res.Body] *)
Definition resp_body (res : ptr) : heapM rbody :=
  fun h => match res with
           | Some l => (fun v => (RBody v, h)) <$> resps h !! l
           | None => None
           end.

(** [res.Body = b] *)
Definition set_resp_body (res : ptr) (b : rbody) : heapM unit :=
  fun h => match res with
           | Some l => match resps h !! l with
                       | Some v => Some (tt, set_resps <[l:=mkResponse (StatusCode v) b]> h)
                       | None => None
                       end
           | None => None
           end.

(** [&onEOFReader{rc: rc, fn: fn}] *)
Definition new_reader (v : onEOFReader) : heapM loc :=
  fun h => let l := new_loc (rdrs h) in Some (l, set_rdrs <[l:=v]> h).

(** [*r] for a reader pointer. *)
Definition load_reader (r : ptr) : heapM onEOFReader :=
  fun h => match r with
           | Some l => (fun v => (v, h)) <$> rdrs h !! l
           | None => None
           end.

(** [r.fn = nil] *)
Definition clear_fn (r : ptr) : heapM unit :=
  fun h => match r with
           | Some l => match rdrs h !! l with
                       | Some v => Some (tt, set_rdrs <[l:=mkReader (rc v) None]> h)
                       | None => None
                       end
           | None => None
           end.

Section Methods.

Local Open Scope prog_scope.

Variable slack_ : nat → nat → nat.
Variable canceler : transport → bool.

(** [setModReq], port.go lines 119-130.  The deferred [k.mu.Unlock()] runs
    when the function returns; nothing between can panic. *)
Definition setModReq (orig mod_ : ptr) : prog unit :=
  act ALock ;;
  isnil ← act AMapIsNil ;
  (if isnil : bool then act AMapMake else Ret tt) ;;
  match mod_ with
  | None => act (AMapDelete orig)
  | Some _ => act (AMapStore orig mod_)
  end ;;
  act AUnlock.

(** A call of the function value [c]. *)
Definition call (c : closure) : prog unit :=
  act (ACall c) ;;
  match c with
  | UnsetModReq req => setModReq req None
  end.

(** [runFunc], port.go lines 158-163. *)
Definition runFunc (r : ptr) : prog unit :=
  v ← act (AHeap (load_reader r)) ;
  match fn v with
  | Some c => call c ;; act (AHeap (clear_fn r))
  | None => Ret tt
  end.

(** A method call on the [io.ReadCloser] in [r.rc]: a nil interface panics.
    A reader of this package that wraps another one is outside the model. *)
Definition rc_Read (b : rbody) (n : nat) : prog (nat * option error) :=
  match b with
  | Plain (Some i) => act (ARead i n)
  | Plain None => Panic
  | Tracking _ => Panic
  end.

Definition rc_Close (b : rbody) : prog (option error) :=
  match b with
  | Plain (Some i) => act (AClose i)
  | Plain None => Panic
  | Tracking _ => Panic
  end.

(** [onEOFReader.Read], port.go lines 144-150; [n] is [len(p)]. *)
Definition Read (r : ptr) (n : nat) : prog (nat * option error) :=
  v ← act (AHeap (load_reader r)) ;
  res ← rc_Read (rc v) n ;
  if decide (res.2 = Some EOF) then runFunc r ;; Ret res else Ret res.

(** [onEOFReader.Close], port.go lines 152-156. *)
Definition Close (r : ptr) : prog (option error) :=
  v ← act (AHeap (load_reader r)) ;
  err ← rc_Close (rc v) ;
  runFunc r ;;
  Ret err.

(** The function [RoundTrip] defers, port.go lines 51-57: [registered] tells
    whether [req.Body] was not nil when [RoundTrip] began, [reqBodyClosed]
    is the value of the variable when the function runs.  It reads
    [req.Body] when it runs. *)
Definition deferred_close (req : ptr) (registered reqBodyClosed : bool) : prog unit :=
  if registered && negb reqBodyClosed then
    b ← act (AHeap (req_body req)) ;
    rc_Close (Plain b) ;;
    Ret tt
  else Ret tt.

(** [RoundTrip], port.go lines 49-82.  The deferred function is run at every
    exit, with the current value of [reqBodyClosed]. *)
Definition RoundTrip (k : RequestIntercepter) (req : ptr) : prog (ptr * option error) :=
  (* if req.Body != nil { defer ... } *)
  body ← act (AHeap (req_body req)) ;
  let registered := bool_decide (body ≠ None) in
  (* req2 := cloneRequest(req); req is not nil here, so this cannot panic *)
  req2 ← act (AHeap (cloneRequest slack_ req)) ;
  (* err = k.requestModifier.Intercept(req2) *)
  match requestModifier k with
  | None => deferred_close req registered false ;; Panic
  | Some m =>
    err ← act (AIntercept m req2) ;
    match err with
    | Some _ =>
      deferred_close req registered false ;;
      Ret (None, Wrap err "error while intercepting request")
    | None =>
      setModReq req req2 ;;
      '(res, err) ← act (ARoundTrip (base k) req2) ;
      (* reqBodyClosed = true *)
      match err with
      | Some _ =>
        setModReq req None ;;
        deferred_close req registered true ;;
        Ret (None, err)
      | None =>
        (* res.Body = &onEOFReader{rc: res.Body, fn: func() { k.setModReq(req, nil) }} *)
        b ← act (AHeap (resp_body res)) ;
        r ← act (AHeap (new_reader (mkReader b (Some (UnsetModReq req))))) ;
        act (AHeap (set_resp_body res (Tracking r))) ;;
        deferred_close req registered true ;;
        Ret (res, None)
      end
    end
  end.

(** [CancelRequest], port.go lines 106-117. *)
Definition CancelRequest (k : RequestIntercepter) (req : ptr) : prog unit :=
  if canceler (base k) then
    act ALock ;;
    modReq ← act (AMapLoad req) ;
    act (AMapDelete req) ;;
    act AUnlock ;;
    act (ACancel (base k) modReq)
  else Ret tt.

End Methods.

(** ** Execution *)

(** What an execution leaves behind, in the order it happened. *)
Inductive event :=
| EvLock
| EvUnlock
| EvMapIsNil (b : bool)
| EvMapMake
| EvMapLoad (orig res : ptr)
| EvMapStore (orig mod_ : ptr)
| EvMapDelete (orig : ptr)
| EvIntercept (m : modifier) (req : ptr) (err : option error)
| EvRoundTrip (t : transport) (req : ptr) (closed : list sid) (res : ptr) (err : option error)
| EvCancel (t : transport) (req : ptr)
| EvRead (s : sid) (n : nat) (res : nat * option error)
| EvClose (s : sid) (err : option error)
| EvCall (c : closure).

Global Instance closure_eq_dec : EqDecision closure.
Proof. solve_decision. Defined.
Global Instance transport_eq_dec : EqDecision transport.
Proof. solve_decision. Defined.
Global Instance event_eq_dec : EqDecision event.
Proof. solve_decision. Defined.

(** The [*http.Response] a transport returns: a pointer to a new response
    object, or nil. *)
Definition deliver (resp : option Response) (h : Heap) : ptr * Heap :=
  match resp with
  | Some rv => (Some (new_loc (resps h)), set_resps <[new_loc (resps h):=rv]> h)
  | None => (None, h)
  end.

Section Execution.

Context {X : Type}.
Variable E : Collaborators X.

(** The heap, the world outside, the two shared fields of the interceptor
    ([mu]: whether the mutex is locked; [modReq]: the tracking map, [None]
    while it is nil) and the events so far. *)
Record World := mkWorld {
  heap : Heap;
  ext : X;
  mu : bool;
  modReq : option (gmap ptr ptr);
  trace : list event;
}.

Definition log (e : event) (w : World) : World :=
  mkWorld (heap w) (ext w) (mu w) (modReq w) (trace w ++ [e]).
Definition set_heap (h : Heap) (w : World) : World :=
  mkWorld h (ext w) (mu w) (modReq w) (trace w).
Definition set_ext (x : X) (w : World) : World :=
  mkWorld (heap w) x (mu w) (modReq w) (trace w).
Definition set_mu (b : bool) (w : World) : World :=
  mkWorld (heap w) (ext w) b (modReq w) (trace w).
Definition set_modReq (m : option (gmap ptr ptr)) (w : World) : World :=
  mkWorld (heap w) (ext w) (mu w) m (trace w).

(** The entries of the tracking map; a nil map has none. *)
Definition entries (w : World) : gmap ptr ptr := default ∅ (modReq w).

(** The result of one action. *)
Inductive step (B : Type) :=
| Next (b : B) (w : World)   (* it returns [b] *)
| Crash (w : World)          (* it panics *)
| Blocked.                   (* it cannot proceed now *)
Arguments Next {B}.
Arguments Crash {B}.
Arguments Blocked {B}.

Definition handle {B} (a : action B) (w : World) : step B :=
  match a in action B return step B with
  | AHeap m =>
      match m (heap w) with
      | Some (b, h') => Next b (set_heap h' w)
      | None => Crash w
      end
  | ALock =>
      (* sync.Mutex is not reentrant: Lock waits while the mutex is locked *)
      if mu w then Blocked else Next tt (log EvLock (set_mu true w))
  | AUnlock =>
      (* unlocking an unlocked mutex is a fatal error *)
      if mu w then Next tt (log EvUnlock (set_mu false w)) else Crash w
  | AMapIsNil =>
      let b := match modReq w with None => true | Some _ => false end in
      Next b (log (EvMapIsNil b) w)
  | AMapMake => Next tt (log EvMapMake (set_modReq (Some ∅) w))
  | AMapLoad orig =>
      (* the zero value, nil, when there is no entry or the map is nil *)
      let r := default None (entries w !! orig) in
      Next r (log (EvMapLoad orig r) w)
  | AMapStore orig mod_ =>
      (* assignment to an entry of a nil map panics *)
      match modReq w with
      | Some m => Next tt (log (EvMapStore orig mod_) (set_modReq (Some (<[orig:=mod_]> m)) w))
      | None => Crash w
      end
  | AMapDelete orig =>
      (* no-op on a nil map *)
      Next tt (log (EvMapDelete orig) (set_modReq (delete orig <$> modReq w) w))
  | AIntercept m req =>
      let '(h', x', err) := intercept E m req (heap w) (ext w) in
      Next err (log (EvIntercept m req err) (set_ext x' (set_heap h' w)))
  | ARoundTrip t req =>
      let '(x', closed, (resp, err)) := roundTrip E t req (heap w) (ext w) in
      let '(res, h') := deliver resp (heap w) in
      Next (res, err) (log (EvRoundTrip t req closed res err) (set_ext x' (set_heap h' w)))
  | ACancel t req =>
      Next tt (log (EvCancel t req) (set_ext (cancelRequest E t req (ext w)) w))
  | ARead s n =>
      let '(x', res) := streamRead E s n (ext w) in
      Next res (log (EvRead s n res) (set_ext x' w))
  | AClose s =>
      let '(x', err) := streamClose E s (ext w) in
      Next err (log (EvClose s err) (set_ext x' w))
  | ACall c => Next tt (log (EvCall c) w)
  end.

(** How one goroutine's run of a program ends. *)
Inductive outcome (A : Type) :=
| Done (a : A) (w : World)   (* it returned [a] *)
| Panicked (w : World)       (* it panicked *)
| Deadlock (w : World).      (* it waits for a mutex nobody will unlock *)
Arguments Done {A}.
Arguments Panicked {A}.
Arguments Deadlock {A}.

(** Run of a program by one goroutine, nothing else running. *)
Fixpoint run {A} (p : prog A) (w : World) : outcome A :=
  match p with
  | Ret a => Done a w
  | Panic => Panicked w
  | Vis a k =>
      match handle a w with
      | Next b w' => run (k b) w'
      | Crash w' => Panicked w'
      | Blocked => Deadlock w
      end
  end.

(** *** Goroutines running together *)

(** What a goroutine has left to do. *)
Inductive thread :=
| Thread {A} (p : prog A).

(** The world, the goroutine inside a critical section of [mu] (a ghost: the
    mutex itself only knows whether it is locked) and the goroutines. *)
Record Pool := mkPool {
  world : World;
  owner : option nat;
  threads : list thread;
}.

(** What kind of step an action is for the locking discipline. *)
Inductive kind := KAcquire | KRelease | KMap | KOutside.

Definition kind_of {B} (a : action B) : kind :=
  match a with
  | ALock => KAcquire
  | AUnlock => KRelease
  | AMapIsNil | AMapMake | AMapLoad _ | AMapStore _ _ | AMapDelete _ => KMap
  | AHeap _ | AIntercept _ _ | ARoundTrip _ _ | ACancel _ _ | ARead _ _ | AClose _
  | ACall _ => KOutside
  end.

Definition next_owner (i : nat) (k : kind) (o : option nat) : option nat :=
  match k with
  | KAcquire => Some i
  | KRelease => None
  | _ => o
  end.

(** Goroutine [i] makes its next step, if it has one and is not blocked. *)
Definition sched (i : nat) (c : Pool) : Pool :=
  match threads c !! i with
  | Some (Thread (Vis a k)) =>
      match handle a (world c) with
      | Next b w' =>
          mkPool w' (next_owner i (kind_of a) (owner c)) (<[i:=Thread (k b)]> (threads c))
      | Crash w' => mkPool w' (owner c) (<[i:=Thread (@Panic unit)]> (threads c))
      | Blocked => c
      end
  | _ => c
  end.

(** An interleaving: the goroutines scheduled one step at a time. *)
Definition interleave (schedule : list nat) (c : Pool) : Pool :=
  foldl (fun c i => sched i c) c schedule.

(** The kind of step a goroutine is about to make. *)
Definition about_to (t : thread) : option kind :=
  match t with
  | Thread (Vis a _) => Some (kind_of a)
  | _ => None
  end.

(** The goroutine is between a [Lock] and the matching [Unlock]: all it does
    there is operate on the map and unlock. *)
Definition in_critical (t : thread) : Prop :=
  about_to t = Some KMap ∨ about_to t = Some KRelease.

(** The locking discipline.  What a goroutine knows about the mutex:
    [None], it does not hold it; [Some nonnil], it holds it, and [nonnil]
    tells whether it has seen or made the map non-nil since.  The discipline
    permits, without the mutex, no map operation and no unlock; with it,
    only map operations and the unlock, and no store to a map that may be
    nil. *)
Definition permitted {B} (a : action B) (st : option bool) : Prop :=
  match a with
  | AUnlock | AMapIsNil | AMapMake | AMapLoad _ | AMapDelete _ => is_Some st
  | AMapStore _ _ => st = Some true
  | ALock | AHeap _ | AIntercept _ _ | ARoundTrip _ _ | ACancel _ _ | ARead _ _
  | AClose _ | ACall _ => st = None
  end.

(** What the goroutine knows after the action [a] returned [b]. *)
Definition next {B} (a : action B) : option bool → B → option bool :=
  match a in action B return option bool → B → option bool with
  | ALock => fun _ _ => Some false
  | AUnlock => fun _ _ => None
  | AMapIsNil => fun st b => (fun nonnil : bool => nonnil || negb b) <$> st
  | AMapMake => fun _ _ => Some true
  | _ => fun st _ => st
  end.

(** A program follows the discipline from the state [st] on, and ends
    (returns or panics) without the mutex. *)
Fixpoint disciplined {A} (st : option bool) (p : prog A) : Prop :=
  match p with
  | Ret _ | Panic => st = None
  | Vis a k => permitted a st ∧ ∀ b, disciplined (next a st b) (k b)
  end.

Definition thread_disciplined (st : option bool) (t : thread) : Prop :=
  match t with
  | Thread p => disciplined st p
  end.

(** What the scheduler maintains: the mutex is locked exactly when some
    goroutine owns it; the owner follows the discipline from a state in which
    it holds the mutex (and if it counts on a non-nil map, the map is not
    nil); every other goroutine follows it from the state without mutex. *)
Definition pool_inv (c : Pool) : Prop :=
  (mu (world c) = true ↔ is_Some (owner c)) ∧
  ∀ i t, threads c !! i = Some t →
    if decide (owner c = Some i)
    then ∃ st, is_Some st ∧ thread_disciplined st t ∧
               (st = Some true → is_Some (modReq (world c)))
    else thread_disciplined None t.

End Execution.

Arguments World : clear implicits.
Arguments Pool : clear implicits.
Arguments step : clear implicits.
Arguments outcome : clear implicits.
Arguments mkWorld {X}.
Arguments Next {X B}.
Arguments Crash {X B}.
Arguments Blocked {X B}.
Arguments Done {X A}.
Arguments Panicked {X A}.
Arguments Deadlock {X A}.
Arguments mkPool {X}.

(** ** Uses of the package *)

Section Uses.

Local Open Scope prog_scope.

Context {X : Type}.
Variable E : Collaborators X.
Variable k : RequestIntercepter.

(** What the owner of a response does with its body. *)
Inductive body_use :=
| UseRead (n : nat)     (* res.Body.Read(p), len(p) = n *)
| UseClose.             (* res.Body.Close() *)

Definition use (r : ptr) (u : body_use) : prog unit :=
  match u with
  | UseRead n => Read r n ;; Ret tt
  | UseClose => Close r ;; Ret tt
  end.

Fixpoint uses (r : ptr) (us : list body_use) : prog unit :=
  match us with
  | [] => Ret tt
  | u :: us' => use r u ;; uses r us'
  end.

(** A call into the package. *)
Inductive api_call :=
| CallRoundTrip (req : ptr)
| CallCancelRequest (req : ptr)
| CallRead (r : ptr) (n : nat)
| CallClose (r : ptr).

Definition perform (c : api_call) : prog unit :=
  match c with
  | CallRoundTrip req => RoundTrip (slack E) k req ;; Ret tt
  | CallCancelRequest req => CancelRequest (is_canceler E) k req
  | CallRead r n => Read r n ;; Ret tt
  | CallClose r => Close r ;; Ret tt
  end.

(** A goroutine that makes the calls [cs] one after the other. *)
Fixpoint goroutine (cs : list api_call) : prog unit :=
  match cs with
  | [] => Ret tt
  | c :: cs' => perform c ;; goroutine cs'
  end.

(** The events of [setModReq(orig, mod)] when the map was nil or not. *)
Definition setModReq_events (wasnil : bool) (orig mod_ : ptr) : list event :=
  [EvLock; EvMapIsNil wasnil] ++ (if wasnil then [EvMapMake] else []) ++
  [match mod_ with
   | Some _ => EvMapStore orig mod_
   | None => EvMapDelete orig
   end; EvUnlock].

(** The entries after [setModReq(orig, mod)]. *)
Definition setModReq_entries (orig mod_ : ptr) (m : gmap ptr ptr) : gmap ptr ptr :=
  match mod_ with
  | Some _ => <[orig:=mod_]> m
  | None => delete orig m
  end.

(** The number of calls of a function value among the events. *)
Definition calls_of (e : event) : nat :=
  match e with
  | EvCall _ => 1
  | _ => 0
  end.

Definition calls (evs : list event) : nat := sum_list_with calls_of evs.

(** The number of times the stream [s] was closed: by the package itself
    ([EvClose]) or by the base transport during a [RoundTrip]. *)
Definition closes_of (s : sid) (e : event) : nat :=
  match e with
  | EvClose s' _ => if decide (s' = s) then 1 else 0
  | EvRoundTrip _ _ closed _ _ => length (filter (fun s' => s' = s) closed)
  | _ => 0
  end.

Definition closes (s : sid) (evs : list event) : nat :=
  sum_list_with (closes_of s) evs.

(** The number of times the entry of [orig] was deleted from the map. *)
Definition deletes_of (orig : ptr) (e : event) : nat :=
  match e with
  | EvMapDelete o => if decide (o = orig) then 1 else 0
  | _ => 0
  end.

Definition deletes (orig : ptr) (evs : list event) : nat :=
  sum_list_with (deletes_of orig) evs.

(** Operations on the tracking map, and calls of the base transport. *)
Definition is_map_event (e : event) : bool :=
  match e with
  | EvMapIsNil _ | EvMapMake | EvMapLoad _ _ | EvMapStore _ _ | EvMapDelete _ => true
  | _ => false
  end.

Definition is_close (e : event) : bool :=
  match e with
  | EvClose _ _ => true
  | _ => false
  end.

Definition is_round_trip (e : event) : bool :=
  match e with
  | EvRoundTrip _ _ _ _ _ => true
  | _ => false
  end.

(** An event that lets a tracked body run its cleanup: the inner stream
    returned [io.EOF] from [Read], or [Close] was called. *)
Definition triggers (e : event) : bool :=
  match e with
  | EvRead _ _ (_, Some EOF) => true
  | EvClose _ _ => true
  | _ => false
  end.

Definition triggered (evs : list event) : bool := existsb triggers evs.

End Uses.

(** ** What a run leaves to observe *)

Section Observations.

Context {X : Type}.
Variable E : Collaborators X.

Definition is_nil_map (w : World X) : bool :=
  match modReq w with
  | None => true
  | Some _ => false
  end.

(** The events of [runFunc] on a reader whose function field is [f]. *)
Definition runFunc_events (f : option closure) (wasnil : bool) : list event :=
  match f with
  | Some (UnsetModReq req) => EvCall (UnsetModReq req) :: setModReq_events wasnil req None
  | None => []
  end.

Definition armed (f : option closure) : nat :=
  match f with
  | Some _ => 1
  | None => 0
  end.

Definition armed_for (orig : ptr) (f : option closure) : nat :=
  match f with
  | Some (UnsetModReq req) => if decide (req = orig) then 1 else 0
  | None => 0
  end.

(** What the entries are after a tracked body that held the function [f]
    was used, given whether its cleanup was set off. *)
Definition cleaned (f : option closure) (fired : bool) (m : option (gmap ptr ptr))
    : option (gmap ptr ptr) :=
  match f with
  | Some (UnsetModReq req) => if fired then Some (delete req (default ∅ m)) else m
  | None => m
  end.

(** What closing the request body does to the world outside, and the
    event it leaves; nothing for a request without body. *)
Definition closing (body : stream) (x : X) : X * list event :=
  match body with
  | Some s => let '(x', err) := streamClose E s x in (x', [EvClose s err])
  | None => (x, [])
  end.

(** The events of [RoundTrip] up to the return of the base transport. *)
Definition dispatch_events (k : RequestIntercepter) (m : modifier) (wasnil : bool)
    (l l2 : loc) (closed : list sid) (res : ptr) (err : option error) : list event :=
  EvIntercept m (Some l2) None ::
  setModReq_events wasnil (Some l) (Some l2) ++
  [EvRoundTrip (base k) (Some l2) closed res err].

(** The world a run ends in. *)
Definition final {A} (o : outcome X A) : World X :=
  match o with
  | Done _ w | Panicked w | Deadlock w => w
  end.

End Observations.

(** ** Further observations *)

(** The number of events of a kind. *)
Definition occurrences (f : event → bool) (evs : list event) : nat :=
  sum_list_with (fun e => if f e then 1 else 0) evs.

Definition is_intercept (e : event) : bool :=
  match e with
  | EvIntercept _ _ _ => true
  | _ => false
  end.

(** What [RoundTrip] has no business doing: a read of a stream, a
    cancellation, a call of a function value, a lookup in the tracking map. *)
Definition is_foreign (e : event) : bool :=
  match e with
  | EvRead _ _ _ | EvCancel _ _ | EvCall _ | EvMapLoad _ _ => true
  | _ => false
  end.

(** The calls on streams among the events. *)
Definition is_stream_event (e : event) : bool :=
  match e with
  | EvRead _ _ _ | EvClose _ _ => true
  | _ => false
  end.

Definition stream_events (evs : list event) : list event :=
  List.filter is_stream_event evs.

(** A store into the tracking map binds the request to a request, not to
    nil. *)
Definition stores_request {B} (a : action B) : Prop :=
  match a with
  | AMapStore _ md => md ≠ None
  | _ => True
  end.

(** Every store a program can make is of that kind. *)
Fixpoint careful {A} (p : prog A) : Prop :=
  match p with
  | Vis a k => stores_request a ∧ ∀ b, careful (k b)
  | _ => True
  end.

Definition thread_careful (t : thread) : Prop :=
  match t with
  | Thread p => careful p
  end.

(** No request is bound to nil. *)
Definition no_nil_entry (m : gmap ptr ptr) : Prop :=
  map_Forall (fun _ md => md ≠ None) m.

(** The program unlocks the mutex within [n] steps, whatever its actions
    return. *)
Fixpoint within {A} (p : prog A) (n : nat) : Prop :=
  match p with
  | Vis a k =>
      match kind_of a, n with
      | KRelease, S _ => True
      | KRelease, 0 => False
      | _, S n' => ∀ b, within (k b) n'
      | _, 0 => False
      end
  | _ => False
  end.

(** Every [Lock] of the program is followed by its [Unlock] within four
    steps. *)
Fixpoint brief {A} (p : prog A) : Prop :=
  match p with
  | Vis a k => (kind_of a = KAcquire → ∀ b, within (k b) 4) ∧ ∀ b, brief (k b)
  | _ => True
  end.

Definition thread_brief (t : thread) : Prop :=
  match t with
  | Thread p => brief p
  end.

Definition thread_within (t : thread) (n : nat) : Prop :=
  match t with
  | Thread p => within p n
  end.

Section Progress.

Context {X : Type}.
Variable E : Collaborators X.

(** A call made on the stream [s] itself, without a tracked body in between:
    the world outside afterwards and the event it leaves. *)
Definition direct_use (s : sid) (u : body_use) (x : X) : X * event :=
  match u with
  | UseRead n => let '(x', res) := streamRead E s n x in (x', EvRead s n res)
  | UseClose => let '(x', err) := streamClose E s x in (x', EvClose s err)
  end.

Fixpoint direct_uses (s : sid) (us : list body_use) (x : X) : X * list event :=
  match us with
  | [] => (x, [])
  | u :: us' =>
      let '(x', e) := direct_use s u x in
      let '(x'', es) := direct_uses s us' x' in
      (x'', e :: es)
  end.

(** Goroutine [i] has a step to make and can make it now. *)
Definition can_step (c : Pool X) (i : nat) : bool :=
  match threads c !! i with
  | Some (Thread (Vis a _)) =>
      match handle E a (world c) with
      | Next _ _ => true
      | _ => false
      end
  | _ => false
  end.

(** Goroutine [i] waits for the mutex. *)
Definition waits (c : Pool X) (i : nat) : bool :=
  match threads c !! i with
  | Some (Thread (Vis a _)) =>
      match handle E a (world c) with
      | Blocked => true
      | _ => false
      end
  | _ => false
  end.

(** What the scheduler maintains besides [pool_inv]: the owner of the mutex
    is one of the goroutines, every goroutine keeps its critical sections
    short, and the owner is at most four steps from its [Unlock]. *)
Definition pool_live (c : Pool X) : Prop :=
  (∀ i, owner c = Some i → is_Some (threads c !! i)) ∧
  (∀ i t, threads c !! i = Some t → thread_brief t) ∧
  (∀ i t, owner c = Some i → threads c !! i = Some t → ∃ n, n ≤ 4 ∧ thread_within t n).

End Progress.

Section Provenance.

Variable k : RequestIntercepter.

(** Where the requests a program passes on come from.  [loaded] are the
    values it has looked up in the tracking map, [accepted] the requests a
    modifier has returned for without error.  The program cancels, on the
    base transport, only what it has looked up, and stores only what a
    modifier has accepted. *)
Definition vouched {B} (a : action B) (loaded accepted : list ptr) : Prop :=
  match a with
  | ACancel t r => t = base k ∧ r ∈ loaded
  | AMapStore _ md => md ∈ accepted
  | _ => True
  end.

Definition loaded_after {B} (a : action B) : list ptr → B → list ptr :=
  match a in action B return list ptr → B → list ptr with
  | AMapLoad _ => fun ls r => r :: ls
  | _ => fun ls _ => ls
  end.

Definition accepted_after {B} (a : action B) : list ptr → B → list ptr :=
  match a in action B return list ptr → B → list ptr with
  | AIntercept _ req => fun acc err => match err with
                                       | None => req :: acc
                                       | Some _ => acc
                                       end
  | _ => fun acc _ => acc
  end.

Fixpoint provenance {A} (loaded accepted : list ptr) (p : prog A) : Prop :=
  match p with
  | Vis a k' =>
      vouched a loaded accepted ∧
      ∀ b, provenance (loaded_after a loaded b) (accepted_after a accepted b) (k' b)
  | _ => True
  end.

(** What the events so far say about the entries of the map and about each
    other: an entry was stored; what was stored had been accepted by a
    modifier; what a lookup returned was nil or had been stored for the
    request looked up; what was cancelled was cancelled on the base
    transport and had been looked up. *)
Definition trace_sound (tr : list event) (m : gmap ptr ptr) : Prop :=
  (∀ o v, m !! o = Some v → EvMapStore o v ∈ tr) ∧
  (∀ o v, EvMapStore o v ∈ tr → ∃ md, EvIntercept md v None ∈ tr) ∧
  (∀ o r, EvMapLoad o r ∈ tr → r = None ∨ EvMapStore o r ∈ tr) ∧
  (∀ t r, EvCancel t r ∈ tr → t = base k ∧ ∃ o, EvMapLoad o r ∈ tr).

(** What the goroutine holds was looked up, or accepted, in the events so
    far. *)
Definition thread_sound (tr : list event) (t : thread) : Prop :=
  match t with
  | Thread p =>
      ∃ loaded accepted, provenance loaded accepted p ∧
        (∀ r, r ∈ loaded → ∃ o, EvMapLoad o r ∈ tr) ∧
        (∀ r, r ∈ accepted → ∃ md, EvIntercept md r None ∈ tr)
  end.

(** What the scheduler maintains of it. *)
Definition pool_sound {X} (c : Pool X) : Prop :=
  trace_sound (trace (world c)) (entries (world c)) ∧
  ∀ i t, threads c !! i = Some t → thread_sound (trace (world c)) t.

End Provenance.

(** ** A test bench

    The scenario of the package's test, [TestRequestIntercepter_RoundTrip]:
    a server that answers 200 only to requests with the header
    [intercepted: true], and a modifier that sets it; next to them a modifier
    that refuses every request and a server nobody listens on. *)

Definition setting_modifier : modifier := 0.
Definition refusing_modifier : modifier := 1.
Definition test_server : transport := CustomTransport 0.
Definition dead_server : transport := CustomTransport 1.

(** The body of the request [req] points to, as a list of streams to close. *)
Definition body_of (h : Heap) (req : ptr) : list sid :=
  match req with
  | Some l => match reqs h !! l with
              | Some v => match Body v with
                          | Some s => [s]
                          | None => []
                          end
              | None => []
              end
  | None => []
  end.

Definition test_env : Collaborators nat :=
  mkCollaborators nat
    (fun _ needed => needed)
    (fun m req h x =>
       match m with
       | 0 => match exec_mutation (fun _ n => n) req
                      (HeaderSet "intercepted" ["true"%string]) h with
              | Some (_, h') => (h', x, None)
              | None => (h, x, Some (Err "no header map"))
              end
       | _ => (h, x, Some (Err "refused"))
       end)
    (fun t req h x =>
       match t with
       | CustomTransport 0 =>
           let ok := bool_decide ((req ≫= fun l => req_headers h l !! "intercepted"%string)
                                  = Some ["true"%string]) in
           (x, body_of h req,
            (Some (mkResponse (if ok then 200 else 500) (Plain (Some 9))), None))
       | _ => (x, body_of h req, (None, Some (Err "connection refused")))
       end)
    (fun t => match t with
              | DefaultTransport => true
              | CustomTransport _ => false
              end)
    (fun _ _ x => x)
    (fun _ n x => if decide (x < 2) then (S x, (n, None)) else (S x, (0, Some EOF)))
    (fun _ x => (x, None)).

Definition test_request : Request :=
  mkRequest "POST" (Some 0) "HTTP/1.1" 1 1 (Some 0) (Some 7) 4 false "example.com" None 3.

(** A request without URL and without header map. *)
Definition bare_request : Request :=
  mkRequest "GET" None "HTTP/1.1" 1 1 None None 0 false "" None 0.

Definition test_heap : Heap :=
  mkHeap {[ 0 := test_request; 1 := bare_request ]}
         {[ 0 := {[ "Accept"%string := mkSlice (Some 0) 0 1 2 ]} ]}
         {[ 0 := ["text/html"; ""]%string ]}
         {[ 0 := mkURL "http" "" None "example.com" "/" "" false "" "" ]}
         ∅ ∅.

Definition test_world : World nat := mkWorld test_heap 0 false None [].

(** A world with a request in flight: its entry, and the tracked body of its
    response. *)
Definition busy_world : World nat :=
  mkWorld (set_rdrs <[0:=mkReader (Plain (Some 9)) (Some (UnsetModReq (Some 0)))]> test_heap)
          0 false (Some {[ Some 0 := Some 5 ]}) [].

Definition test_interceptor : RequestIntercepter :=
  NewRequestInterceptor (Some test_server) (Some setting_modifier).
Definition refusing_interceptor : RequestIntercepter :=
  NewRequestInterceptor (Some test_server) (Some refusing_modifier).
Definition dead_interceptor : RequestIntercepter :=
  NewRequestInterceptor (Some dead_server) (Some setting_modifier).
Definition default_interceptor : RequestIntercepter :=
  NewRequestInterceptor None (Some setting_modifier).

(** Transports that break the [http.RoundTripper] contract, one that returns
    neither a response nor an error and one whose response has no body, in
    a world where every transport can cancel. *)
Definition silent_server : transport := CustomTransport 2.
Definition bodiless_server : transport := CustomTransport 3.

Definition edge_env : Collaborators nat :=
  mkCollaborators nat
    (slack test_env)
    (intercept test_env)
    (fun t req h x =>
       match t with
       | CustomTransport 2 => (x, body_of h req, (None, None))
       | CustomTransport 3 => (x, body_of h req, (Some (mkResponse 204 (Plain None)), None))
       | _ => roundTrip test_env t req h x
       end)
    (fun _ => true)
    (cancelRequest test_env)
    (streamRead test_env)
    (streamClose test_env).

Definition silent_interceptor : RequestIntercepter :=
  NewRequestInterceptor (Some silent_server) (Some setting_modifier).
Definition bodiless_interceptor : RequestIntercepter :=
  NewRequestInterceptor (Some bodiless_server) (Some setting_modifier).

(** A request with a trailer map. *)
Definition chunked_request : Request :=
  mkRequest "POST" None "HTTP/1.1" 1 1 (Some 0) (Some 7) (-1) false "example.com" (Some 1) 0.

Definition chunked_heap : Heap :=
  mkHeap {[ 0 := chunked_request ]} {[ 0 := ∅; 1 := ∅ ]} ∅ ∅ ∅ ∅.

(** One goroutine in the middle of [RoundTrip], just after the [Lock] of
    [setModReq], and another about to start. *)
Definition locked_pool : Pool nat :=
  interleave test_env [0; 0; 0; 0]
    (mkPool test_world None
       ((fun cs => Thread (goroutine test_env test_interceptor cs)) <$>
        [[CallRoundTrip (Some 0)]; [CallRoundTrip (Some 1); CallCancelRequest (Some 0)]])).

(** * Facts *)

(** ** Facts about the heap and the cloner *)

Lemma heap_incl_refl h : h ⊑ h.
Proof. by split. Qed.

Lemma heap_incl_trans h1 h2 h3 : h1 ⊑ h2 → h2 ⊑ h3 → h1 ⊑ h3.
Proof. intros [] []. split; by etrans. Qed.

Lemma new_loc_fresh {V} (m : gmap loc V) : m !! new_loc m = None.
Proof. apply not_elem_of_dom, is_fresh. Qed.

Lemma insert_new_loc_incl {V} (m : gmap loc V) (v : V) : m ⊆ <[new_loc m:=v]> m.
Proof. apply insert_subseteq, new_loc_fresh. Qed.

Lemma elems_incl h h' s a :
  arrs h ⊆ arrs h' → s_base s = Some a → is_Some (arrs h !! a) →
  elems h' s = elems h s.
Proof.
  intros Hsub Hb [arr Ha]. unfold elems. rewrite Hb, Ha.
  by rewrite (lookup_weaken _ _ _ _ Ha Hsub).
Qed.

Lemma elems_nil_base h s : s_base s = None → elems h s = [].
Proof. unfold elems. by intros ->. Qed.

Section ClonerFacts.

Variable slack : nat → nat → nat.

(** [append([]string(nil), xs...)] never panics; it returns the nil slice for
    no elements and otherwise a slice over a new array that holds [xs]. *)
Lemma append_nil_spec (xs : list string) (h : Heap) :
  ∃ s2 h', append slack nil_slice xs h = Some (s2, h') ∧
    elems h' s2 = xs ∧ s_len s2 = length xs ∧
    (∀ a, s_base s2 = Some a → arrs h !! a = None ∧ is_Some (arrs h' !! a)) ∧
    arrs h ⊆ arrs h' ∧
    reqs h' = reqs h ∧ hdrs h' = hdrs h ∧ urls h' = urls h ∧
    resps h' = resps h ∧ rdrs h' = rdrs h.
Proof.
  destruct xs as [|x xs].
  - exists nil_slice, h. by repeat split.
  - eexists _, _. unfold append. rewrite decide_False by (simpl; lia).
    split; [done|]. cbn [s_base s_len s_off s_cap nil_slice].
    split_and!; try done.
    + unfold elems. cbn. rewrite lookup_insert_eq. cbn.
      f_equal. by rewrite take_app_length.
    + intros ? [= <-]. split; [apply new_loc_fresh|].
      cbn. rewrite lookup_insert_eq. eauto.
    + cbn. apply insert_new_loc_incl.
Qed.

Lemma arrs_fresh_weaken (h h' : Heap) a :
  arrs h ⊆ arrs h' → arrs h' !! a = None → arrs h !! a = None.
Proof.
  intros Hsub Hn. destruct (arrs h !! a) eqn:E; [|done].
  by rewrite (lookup_weaken _ _ _ _ E Hsub) in Hn.
Qed.

Lemma elems_stable (h h' : Heap) s :
  arrs h ⊆ arrs h' → (∀ a, s_base s = Some a → is_Some (arrs h !! a)) →
  elems h' s = elems h s.
Proof.
  intros Hsub Hc. destruct (s_base s) as [a|] eqn:Hb.
  - eapply elems_incl; eauto.
  - by rewrite !elems_nil_base.
Qed.

(** The copying loop: every visited key is bound, in the destination map, to
    a slice with the same elements over an array that did not exist before
    and that no other key shares; nothing else changes. *)
Lemma copy_entries_spec (es : list (string * slice)) (m2 : loc)
    (e : gmap string slice) (h : Heap) :
  NoDup es.*1 →
  hdrs h !! m2 = Some e →
  (∀ k s a, (k, s) ∈ es → s_base s = Some a → is_Some (arrs h !! a)) →
  ∃ h' e', copy_entries slack (Some m2) es h = Some (tt, h') ∧
    hdrs h' = <[m2:=e']> (hdrs h) ∧
    arrs h ⊆ arrs h' ∧
    reqs h' = reqs h ∧ urls h' = urls h ∧ resps h' = resps h ∧ rdrs h' = rdrs h ∧
    (∀ k, k ∉ es.*1 → e' !! k = e !! k) ∧
    (∀ k s, (k, s) ∈ es → ∃ s2, e' !! k = Some s2 ∧
        elems h' s2 = elems h s ∧
        ∀ a, s_base s2 = Some a → arrs h !! a = None ∧ is_Some (arrs h' !! a)) ∧
    (∀ k1 k2 s1 s2 a, k1 ∈ es.*1 → k2 ∈ es.*1 → k1 ≠ k2 →
        e' !! k1 = Some s1 → e' !! k2 = Some s2 →
        s_base s1 = Some a → s_base s2 ≠ Some a).
Proof.
  revert e h. induction es as [|[k s] es IH]; intros e h Hnd Hm Hcl.
  - exists h, e. split_and!; try done.
    + by rewrite insert_id.
    + intros ?? Hin. by apply elem_of_nil in Hin.
    + intros ????? Hin. by apply elem_of_nil in Hin.
  - apply NoDup_cons in Hnd as [Hk Hnd].
    destruct (append_nil_spec (elems h s) h)
      as (s2 & h1 & Happ & Hel & _ & Hfr & Harr & Hr & Hh & Hu & Hp & Hd).
    set (h2 := set_hdrs <[m2:=<[k:=s2]> e]> h1).
    destruct (IH (<[k:=s2]> e) h2) as (h' & e' & Hrun & Hh' & Harr' & Hr' & Hu' & Hp' & Hd'
                                        & Hout & Hin & Hdis); clear IH.
    { done. }
    { cbn. by rewrite lookup_insert_eq. }
    { intros k0 s0 a Hel0 Hb. cbn.
      destruct (Hcl k0 s0 a) as [arr Ha]; [by right|done|].
      rewrite (lookup_weaken _ _ _ _ Ha Harr). eauto. }
    assert (Hhd : e' !! k = Some s2).
    { rewrite Hout by done. by rewrite lookup_insert_eq. }
    assert (Hhd_fresh : ∀ a, s_base s2 = Some a → is_Some (arrs h2 !! a)).
    { intros a Hb. by apply Hfr. }
    exists h', e'. split_and!.
    + cbn [copy_entries]. unfold hbind at 1. rewrite Happ.
      unfold hbind at 1. unfold map_assign. rewrite Hh, Hm. apply Hrun.
    + rewrite Hh'. cbn. by rewrite insert_insert_eq, Hh.
    + by etrans.
    + by rewrite Hr'.
    + by rewrite Hu'.
    + by rewrite Hp'.
    + by rewrite Hd'.
    + intros k0 Hk0. rewrite fmap_cons, not_elem_of_cons in Hk0.
      destruct Hk0 as [Hne Hk0]. rewrite Hout by done. by rewrite lookup_insert_ne.
    + intros k0 s0 [[= -> ->]|Hel0]%elem_of_cons.
      * exists s2. split_and!; [done| |].
        -- rewrite (elems_stable h2 h' s2) by done.
           by rewrite <- Hel.
        -- intros a Hb. split; [by apply Hfr|].
           destruct (Hhd_fresh a Hb) as [arr Ha].
           rewrite (lookup_weaken _ _ _ _ Ha Harr'). eauto.
      * destruct (Hin k0 s0 Hel0) as (s3 & Hs3 & Hel3 & Hfr3).
        exists s3. split_and!; [done| |].
        -- rewrite Hel3. apply elems_stable; [done|].
           intros a Hb. eapply Hcl; [|done]. by right.
        -- intros a Hb. destruct (Hfr3 a Hb) as [Hn Hs]. split; [|done].
           by apply (arrs_fresh_weaken h h2).
    + assert (Htail : ∀ k0 s0 a, k0 ∈ es.*1 → e' !! k0 = Some s0 →
                s_base s0 = Some a → arrs h2 !! a = None).
      { intros k0 s0 a [[k0' s0'] [-> Hel0]]%list_elem_of_fmap He Hb.
        destruct (Hin k0' s0' Hel0) as (s3 & Hs3 & _ & Hfr3).
        cbn in He. rewrite He in Hs3. injection Hs3 as <-. by apply Hfr3. }
      intros k1 k2 s1 s3 a Hk1 Hk2 Hne H1 H3 Hb1 Hb3.
      rewrite fmap_cons in Hk1, Hk2. cbn in Hk1, Hk2.
      apply elem_of_cons in Hk1 as [->|Hk1]; apply elem_of_cons in Hk2 as [->|Hk2].
      * done.
      * rewrite Hhd in H1. injection H1 as <-.
        destruct (Hhd_fresh a Hb1) as [arr Ha].
        by rewrite (Htail k2 s3 a Hk2 H3 Hb3) in Ha.
      * rewrite Hhd in H3. injection H3 as <-.
        destruct (Hhd_fresh a Hb3) as [arr Ha].
        by rewrite (Htail k1 s1 a Hk1 H1 Hb1) in Ha.
      * by eapply (Hdis k1 k2).
Qed.

(** What [cloneRequest] computes, step by step. *)
Lemma cloneRequest_spec (h : Heap) (l : loc) (v : Request) :
  closed_req h l v →
  ∃ (l2 m2 : loc) (e2 : gmap string slice) (u2 : ptr) (h' : Heap),
    cloneRequest slack (Some l) h = Some (Some l2, h') ∧
    reqs h !! l2 = None ∧ hdrs h !! m2 = None ∧
    reqs h' = <[l2:=with_URL u2 (with_Header (Some m2) v)]> (reqs h) ∧
    hdrs h' = <[m2:=e2]> (hdrs h) ∧
    arrs h ⊆ arrs h' ∧ urls h ⊆ urls h' ∧ resps h' = resps h ∧ rdrs h' = rdrs h ∧
    elems h' <$> e2 = header_content h (Header v) ∧
    (∀ k s a, e2 !! k = Some s → s_base s = Some a →
       arrs h !! a = None ∧ is_Some (arrs h' !! a)) ∧
    (∀ k1 k2 s1 s2 a, k1 ≠ k2 → e2 !! k1 = Some s1 → e2 !! k2 = Some s2 →
       s_base s1 = Some a → s_base s2 ≠ Some a) ∧
    match RURL v with
    | Some u => ∃ l3, u2 = Some l3 ∧ urls h !! l3 = None ∧ urls h' !! l3 = urls h !! u
    | None => u2 = None ∧ urls h' = urls h
    end.
Proof.
  intros [Hv Hhd Hvals Hurl].
  set (l2 := new_loc (reqs h)). set (m2 := new_loc (hdrs h)).
  set (es := default ∅ (Header v ≫= (hdrs h !!.))).
  set (h3 := mkHeap (<[l2:=with_Header (Some m2) v]> (<[l2:=v]> (reqs h)))
                    (<[m2:=∅]> (hdrs h)) (arrs h) (urls h) (resps h) (rdrs h)).
  destruct (copy_entries_spec (map_to_list es) m2 ∅ h3)
    as (h4 & e2 & Hrun & Hh4 & Harr4 & Hr4 & Hu4 & Hp4 & Hd4 & Hout & Hin & Hdis).
  { apply NoDup_fst_map_to_list. }
  { cbn. by rewrite lookup_insert_eq. }
  { intros k s a Hel Hb. cbn. apply elem_of_map_to_list in Hel.
    subst es. destruct (Header v) as [m|] eqn:Hm; cbn in Hel; [|done].
    destruct (hdrs h !! m) as [e|] eqn:He; cbn in Hel; [|done].
    by eapply Hvals. }
  assert (Hprefix : ∀ (k : Request → ptr → heapM ptr),
    (let! v0 := load_req (Some l) in
     let! r2 := alloc_req v0 in
     let! es0 := map_entries (Header v0) in
     let! m0 := make_map (size es0) in
     do! modify_req r2 (with_Header m0) in
     do! copy_entries slack m0 (map_to_list es0) in
     k v0 r2) h = k v (Some l2) h4).
  { intros k. unfold hbind, load_req. rewrite Hv. cbn.
    replace (map_entries (Header v) (set_reqs <[new_loc (reqs h):=v]> h))
      with (Some (es, set_reqs <[l2:=v]> h)).
    2:{ subst es. unfold map_entries. destruct (Header v) as [m|] eqn:Hm; [|done].
        cbn. destruct (Hhd m eq_refl) as [e He]. by rewrite He. }
    cbn. fold l2 m2. rewrite lookup_insert_eq.
    unfold set_reqs, set_hdrs in *. cbn. fold h3. by rewrite Hrun. }
  assert (Hcontent : elems h4 <$> e2 = header_content h (Header v)).
  { apply map_eq. intros k. rewrite lookup_fmap.
    assert (Hes : header_content h (Header v) = elems h <$> es).
    { subst es. unfold header_content. destruct (Header v) as [m|]; cbn.
      - by destruct (hdrs h !! m).
      - by rewrite fmap_empty. }
    rewrite Hes, lookup_fmap.
    destruct (es !! k) as [s|] eqn:Hk.
    - apply elem_of_map_to_list in Hk.
      destruct (Hin k s Hk) as (s2 & -> & Hel & _). cbn. by rewrite Hel.
    - rewrite Hout; [by rewrite lookup_empty|].
      intros [[k' s'] [-> Hel]]%list_elem_of_fmap.
      apply elem_of_map_to_list in Hel. cbn in Hk. by rewrite Hk in Hel. }
  assert (Hbound : ∀ k s, e2 !! k = Some s → ∃ s0, (k, s0) ∈ map_to_list es).
  { intros k s Hk. destruct (es !! k) as [s0|] eqn:Hes.
    - exists s0. by apply elem_of_map_to_list.
    - rewrite Hout in Hk; [by rewrite lookup_empty in Hk|].
      intros [[k' s'] [-> Hel]]%list_elem_of_fmap.
      apply elem_of_map_to_list in Hel. cbn in Hes. by rewrite Hes in Hel. }
  assert (Hfresh : ∀ k s a, e2 !! k = Some s → s_base s = Some a →
            arrs h !! a = None ∧ is_Some (arrs h4 !! a)).
  { intros k s a Hk Hb. destruct (Hbound k s Hk) as [s0 Hel].
    destruct (Hin k s0 Hel) as (s2 & Hs2 & _ & Hfr).
    rewrite Hk in Hs2. injection Hs2 as <-. by apply Hfr. }
  assert (Hdistinct : ∀ k1 k2 s1 s2 a, k1 ≠ k2 → e2 !! k1 = Some s1 →
            e2 !! k2 = Some s2 → s_base s1 = Some a → s_base s2 ≠ Some a).
  { intros k1 k2 s1 s2 a Hne H1 H2. apply (Hdis k1 k2); try done.
    - destruct (Hbound k1 s1 H1) as [s0 Hel]. apply list_elem_of_fmap. by exists (k1, s0).
    - destruct (Hbound k2 s2 H2) as [s0 Hel]. apply list_elem_of_fmap. by exists (k2, s0). }
  assert (Hl2 : reqs h !! l2 = None) by apply new_loc_fresh.
  assert (Hm2 : hdrs h !! m2 = None) by apply new_loc_fresh.
  destruct (RURL v) as [u|] eqn:Hu.
  - destruct (Hurl u eq_refl) as [uv Huv].
    set (l3 := new_loc (urls h)).
    exists l2, m2, e2, (Some l3),
      (mkHeap (<[l2:=with_URL (Some l3) (with_Header (Some m2) v)]> (reqs h4))
              (hdrs h4) (arrs h4) (<[l3:=uv]> (urls h4)) (resps h4) (rdrs h4)).
    split_and!; try done.
    + unfold cloneRequest.
      etrans; [apply (Hprefix (fun v0 r2 =>
        match RURL v0 with
        | Some _ => let! u0 := load_url (RURL v0) in
                    let! r2URL := alloc_url u0 in
                    do! modify_req r2 (with_URL r2URL) in hret r2
        | None => hret r2
        end))|].
      cbn beta. rewrite Hu. unfold hbind, load_url. rewrite Hu4. cbn. rewrite Huv. cbn.
      rewrite Hr4. cbn. rewrite lookup_insert_eq.
      unfold hret, set_reqs, set_urls. cbn. by rewrite Hu4, Hr4.
    + cbn. rewrite Hr4. cbn. by rewrite !insert_insert_eq.
    + cbn. rewrite Hh4. cbn. by rewrite insert_insert_eq.
    + cbn. rewrite Hu4. cbn. apply insert_new_loc_incl.
    + exists l3. split_and!; [done|apply new_loc_fresh|].
      cbn. rewrite Hu4. cbn. by rewrite lookup_insert_eq.
  - exists l2, m2, e2, None, h4.
    split_and!; try done.
    + unfold cloneRequest.
      etrans; [apply (Hprefix (fun v0 r2 =>
        match RURL v0 with
        | Some _ => let! u0 := load_url (RURL v0) in
                    let! r2URL := alloc_url u0 in
                    do! modify_req r2 (with_URL r2URL) in hret r2
        | None => hret r2
        end))|].
      cbn beta. by rewrite Hu.
    + rewrite Hr4. cbn. rewrite insert_insert_eq. f_equal.
      destruct v; cbn in *. by subst.
    + rewrite Hh4. cbn. by rewrite insert_insert_eq.
    + by rewrite Hu4.
Qed.

(** *** The frame of a modifier's edits *)

Lemma hbind_inv {A B} (m : heapM A) (f : A → heapM B) h b h' :
  hbind m f h = Some (b, h') → ∃ a h1, m h = Some (a, h1) ∧ f a h1 = Some (b, h').
Proof.
  unfold hbind. destruct (m h) as [[a h1]|]; [|done]. intros ?. by exists a, h1.
Qed.

Lemma load_req_inv r h v h' :
  load_req r h = Some (v, h') → ∃ l, r = Some l ∧ reqs h !! l = Some v ∧ h' = h.
Proof.
  unfold load_req. destruct r as [l|]; [|done].
  destruct (reqs h !! l) eqn:E; [|done]. cbn. intros [= -> ->]. by exists l.
Qed.

Lemma modify_req_inv r f h u h' :
  modify_req r f h = Some (u, h') →
  ∃ l v, r = Some l ∧ reqs h !! l = Some v ∧ h' = set_reqs <[l:=f v]> h.
Proof.
  unfold modify_req. destruct r as [l|]; [|done].
  destruct (reqs h !! l) as [v|] eqn:E; [|done]. intros [= _ <-]. by exists l, v.
Qed.

Lemma map_assign_inv m k s h u h' :
  map_assign m k s h = Some (u, h') →
  ∃ l e, m = Some l ∧ hdrs h !! l = Some e ∧ h' = set_hdrs <[l:=<[k:=s]> e]> h.
Proof.
  unfold map_assign. destruct m as [l|]; [|done].
  destruct (hdrs h !! l) as [e|] eqn:E; [|done]. intros [= _ <-]. by exists l, e.
Qed.

Lemma map_index_inv m k s h h' :
  map_index m k h = Some (s, h') →
  h' = h ∧ (s = nil_slice ∨ ∃ l e, m = Some l ∧ hdrs h !! l = Some e ∧ e !! k = Some s).
Proof.
  unfold map_index, hbind, map_entries, hret. destruct m as [l|].
  - destruct (hdrs h !! l) as [e|] eqn:E; [|done]. cbn. intros [= <- <-].
    split; [done|]. destruct (e !! k) as [s0|] eqn:Ek; cbn; [|by left].
    right. by exists l, e.
  - intros [= <- <-]. split; [done|]. left. by rewrite lookup_empty.
Qed.

(** [append] writes only into the array of its argument or into a new one. *)
Lemma append_frame (h0 h h' : Heap) s vs s' :
  append slack s vs h = Some (s', h') →
  arrs h0 ⊆ arrs h →
  (∀ a, s_base s = Some a → arrs h0 !! a = None) →
  arrs h0 ⊆ arrs h' ∧ (∀ a, s_base s' = Some a → arrs h0 !! a = None) ∧
  reqs h' = reqs h ∧ hdrs h' = hdrs h ∧ urls h' = urls h ∧
  resps h' = resps h ∧ rdrs h' = rdrs h.
Proof.
  intros Happ Hsub Hown. unfold append in Happ.
  destruct vs as [|x vs]; [by injection Happ as <- <-|].
  case_decide.
  - destruct (s_base s) as [a|] eqn:Hb; [|done].
    destruct (arrs h !! a) as [arr|] eqn:Ha; [|done].
    injection Happ as <- <-. cbn. split_and!; try done.
    apply insert_subseteq_r; [by apply Hown|done].
  - injection Happ as <- <-. cbn. split_and!; try done.
    + apply insert_subseteq_r; [|done].
      eapply lookup_weaken_None; [apply new_loc_fresh|done].
    + intros ? [= <-]. eapply lookup_weaken_None; [apply new_loc_fresh|done].
Qed.

Lemma incl_fresh {V} (m0 m : gmap loc V) : m0 ⊆ m → m0 !! new_loc m = None.
Proof. intros. eapply lookup_weaken_None; [apply new_loc_fresh|done]. Qed.

(** One edit made through the clone's pointer changes no object of [h0],
    and what the clone reaches afterwards is still none of [h0]'s. *)
Lemma exec_mutation_frame (h0 h h' : Heap) (l2 : loc) (op : mutation) :
  h0 ⊑ h → owned h0 h l2 →
  exec_mutation slack (Some l2) op h = Some (tt, h') →
  h0 ⊑ h' ∧ owned h0 h' l2.
Proof.
  intros [Ir Ih Ia Iu Ip Id] [Or Oh Oa Ou] Hex.
  destruct op as [m|k vs|k x|k|k i x| |u|u]; cbn [exec_mutation] in Hex.
  - (* req.Method = m *)
    apply modify_req_inv in Hex as (l & v & [= <-] & Hv & ->).
    split; [split; cbn; try done; by apply insert_subseteq_r|].
    split; cbn; [done|..]; intros v2; rewrite lookup_insert_eq; intros; simplify_eq; cbn in *; eauto.
  - (* req.Header[k] = []string{vs...} *)
    apply hbind_inv in Hex as (v & h1 & (l & [= <-] & Hv & ->)%load_req_inv & Hex).
    apply hbind_inv in Hex as (s & h1 & Hlit & Hex).
    injection Hlit as <- <-.
    apply map_assign_inv in Hex as (m & e & Hm & He & ->). cbn in He.
    assert (hdrs h0 !! m = None) by eauto.
    split; [split; cbn; try done|].
    + by apply insert_subseteq_r.
    + apply insert_subseteq_r; [by apply incl_fresh|done].
    + split; cbn; [done|eauto| |eauto].
      intros v2 m' e' k' s' a Hv2 Hm' He' Hk' Hb. simplify_eq.
      rewrite lookup_insert_eq in He'. simplify_eq.
      destruct (decide (k = k')) as [->|Hne].
      * rewrite lookup_insert_eq in Hk'. simplify_eq. cbn in Hb. simplify_eq.
        by apply incl_fresh.
      * rewrite lookup_insert_ne in Hk' by done. eauto.
  - (* req.Header[k] = append(req.Header[k], x) *)
    apply hbind_inv in Hex as (v & h1 & (l & [= <-] & Hv & ->)%load_req_inv & Hex).
    apply hbind_inv in Hex as (s & h1 & [-> Hs]%map_index_inv & Hex).
    apply hbind_inv in Hex as (s' & h1 & Happ & Hex).
    apply map_assign_inv in Hex as (m & e & Hm & He & ->).
    apply (append_frame h0) in Happ as (Ia' & Hs' & Er & Eh & Eu & Ep & Ed); [|done|].
    2:{ intros a Hb. destruct Hs as [->|(m' & e' & Hm' & He' & Hk)]; [done|]. eauto. }
    rewrite Eh in He. assert (hdrs h0 !! m = None) by eauto.
    split; [split; cbn; rewrite ?Er, ?Eu, ?Ep, ?Ed; try done|].
    + rewrite Eh. by apply insert_subseteq_r.
    + split; cbn; rewrite ?Er, ?Eh; [done|eauto| |eauto].
      intros v2 m' e' k' s2 a Hv2 Hm' He' Hk' Hb. simplify_eq.
      rewrite lookup_insert_eq in He'. simplify_eq.
      destruct (decide (k = k')) as [->|Hne].
      * rewrite lookup_insert_eq in Hk'. simplify_eq. eauto.
      * rewrite lookup_insert_ne in Hk' by done. eauto.
  - (* delete(req.Header, k) *)
    apply hbind_inv in Hex as (v & h1 & (l & [= <-] & Hv & ->)%load_req_inv & Hex).
    unfold map_delete in Hex. destruct (Header v) as [m|] eqn:Hm.
    + destruct (hdrs h !! m) as [e|] eqn:He; [|done]. injection Hex as <-.
      assert (hdrs h0 !! m = None) by eauto.
      split; [split; cbn; try done; by apply insert_subseteq_r|].
      split; cbn; [done|eauto| |eauto].
      intros v2 m' e' k' s2 a Hv2 Hm' He' Hk' Hb. simplify_eq.
      rewrite lookup_insert_eq in He'. simplify_eq.
      apply lookup_delete_Some in Hk' as [_ Hk']. eauto.
    + injection Hex as <-. by split.
  - (* req.Header[k][i] = x *)
    apply hbind_inv in Hex as (v & h1 & (l & [= <-] & Hv & ->)%load_req_inv & Hex).
    apply hbind_inv in Hex as (s & h1 & [-> Hs]%map_index_inv & Hex).
    unfold slice_poke in Hex. case_decide; [|done].
    destruct (s_base s) as [a|] eqn:Hb; [|done].
    destruct (arrs h !! a) as [arr|] eqn:Ha; [|done]. injection Hex as <-.
    assert (arrs h0 !! a = None).
    { destruct Hs as [->|(m' & e' & Hm' & He' & Hk)]; [done|]. eauto. }
    split; [split; cbn; try done; by apply insert_subseteq_r|].
    split; cbn; eauto.
  - (* req.Header = make(http.Header) *)
    apply hbind_inv in Hex as (m & h1 & Hmk & Hex). injection Hmk as <- <-.
    apply modify_req_inv in Hex as (l & v & [= <-] & Hv & ->). cbn in Hv.
    split; [split; cbn; try done|].
    + by apply insert_subseteq_r.
    + apply insert_subseteq_r; [by apply incl_fresh|done].
    + split; cbn; [done|..]; intros v2; rewrite lookup_insert_eq; intros; simplify_eq;
        cbn in *; simplify_eq; eauto using incl_fresh.
      by simplify_map_eq.
  - (* *req.URL = u *)
    apply hbind_inv in Hex as (v & h1 & (l & [= <-] & Hv & ->)%load_req_inv & Hex).
    unfold store_url in Hex. destruct (RURL v) as [p|] eqn:Hp; [|done].
    case_decide; [|done]. injection Hex as <-.
    assert (urls h0 !! p = None) by eauto.
    split; [split; cbn; try done; by apply insert_subseteq_r|].
    split; cbn; eauto.
  - (* req.URL = &u *)
    apply hbind_inv in Hex as (p & h1 & Hal & Hex). injection Hal as <- <-.
    apply modify_req_inv in Hex as (l & v & [= <-] & Hv & ->). cbn in Hv.
    split; [split; cbn; try done|].
    + by apply insert_subseteq_r.
    + apply insert_subseteq_r; [by apply incl_fresh|done].
    + split; cbn; [done|..]; intros v2; rewrite lookup_insert_eq; intros; simplify_eq;
        cbn in *; simplify_eq; eauto using incl_fresh.
Qed.

Lemma exec_mutations_frame (h0 : Heap) (l2 : loc) (ops : list mutation) (h : Heap) :
  h0 ⊑ h → owned h0 h l2 →
  h0 ⊑ (exec_mutations slack (Some l2) ops h).1 ∧
  owned h0 (exec_mutations slack (Some l2) ops h).1 l2.
Proof.
  revert h. induction ops as [|op ops IH]; intros h Hi Ho; [done|]. cbn.
  destruct (exec_mutation slack (Some l2) op h) as [[[] h']|] eqn:E; [|done].
  destruct (exec_mutation_frame h0 h h' l2 op Hi Ho E). by apply IH.
Qed.

(** What a request of [h0] looks like is the same in every extension. *)
Lemma closed_req_view (h0 h : Heap) (l : loc) (v : Request) :
  closed_req h0 l v → h0 ⊑ h →
  reqs h !! l = Some v ∧ req_headers h l = req_headers h0 l ∧ req_url h l = req_url h0 l.
Proof.
  intros [Hv Hhd Hvals Hurl] [Ir Ih Ia Iu _ _].
  pose proof (lookup_weaken _ _ _ _ Hv Ir) as Hv'.
  unfold req_headers, req_url. rewrite Hv, Hv'. split_and!; [done| |].
  - unfold header_content. destruct (Header v) as [m|] eqn:Hm; [|done].
    destruct (Hhd m eq_refl) as [e He]. rewrite He, (lookup_weaken _ _ _ _ He Ih). cbn.
    apply map_eq. intros k. rewrite !lookup_fmap.
    destruct (e !! k) as [s|] eqn:Hk; [|done]. cbn. f_equal.
    apply elems_stable; [done|]. intros a Hb. by eapply Hvals.
  - unfold url_value. destruct (RURL v) as [u|] eqn:Hu; [|done].
    destruct (Hurl u eq_refl) as [uv Huv]. by rewrite Huv, (lookup_weaken _ _ _ _ Huv Iu).
Qed.

Lemma cloneRequest_owned (h : Heap) (l : loc) (v : Request) :
  closed_req h l v →
  ∃ (l2 m2 : loc) (e2 : gmap string slice) (u2 : ptr) (h' : Heap),
    cloneRequest slack (Some l) h = Some (Some l2, h') ∧
    reqs h !! l2 = None ∧ hdrs h !! m2 = None ∧
    reqs h' !! l2 = Some (with_URL u2 (with_Header (Some m2) v)) ∧
    hdrs h' !! m2 = Some e2 ∧
    elems h' <$> e2 = header_content h (Header v) ∧
    (∀ k s a, e2 !! k = Some s → s_base s = Some a → arrs h !! a = None) ∧
    (∀ k1 k2 s1 s2 a, k1 ≠ k2 → e2 !! k1 = Some s1 → e2 !! k2 = Some s2 →
       s_base s1 = Some a → s_base s2 ≠ Some a) ∧
    match RURL v with
    | Some u => ∃ l3, u2 = Some l3 ∧ urls h !! l3 = None ∧ urls h' !! l3 = urls h !! u
    | None => u2 = None ∧ urls h' = urls h
    end ∧
    h ⊑ h' ∧ owned h h' l2.
Proof.
  intros Hcl.
  destruct (cloneRequest_spec h l v Hcl)
    as (l2 & m2 & e2 & u2 & h' & Hrun & Hl2 & Hm2 & Hr & Hh & Ha & Hu & Hp & Hd
        & Hcont & Hfr & Hdis & Hurl).
  exists l2, m2, e2, u2, h'.
  assert (Hv2 : reqs h' !! l2 = Some (with_URL u2 (with_Header (Some m2) v))).
  { by rewrite Hr, lookup_insert_eq. }
  assert (He2 : hdrs h' !! m2 = Some e2) by (by rewrite Hh, lookup_insert_eq).
  split_and!; try done.
  - intros k s a Hk Hb. by eapply Hfr.
  - split; try done.
    + rewrite Hr. by apply insert_subseteq.
    + rewrite Hh. by apply insert_subseteq.
    + by rewrite Hp.
    + by rewrite Hd.
  - split; [done|..]; intros v2; rewrite Hv2; intros; simplify_eq; cbn in *; simplify_eq.
    + done.
    + by eapply Hfr.
    + destruct (RURL v); [|by destruct Hurl].
      destruct Hurl as (l3 & ? & ? & _). by simplify_eq.
Qed.

(** C1.  [cloneRequest] returns a new request: its method, protocol version,
    context and body reference are those of the original; its header
    collection is a new map whose values are slices over new arrays
    (one per key) with the same content; its URL, when the original has
    one, is a new URL object with the same value.  Whatever sequence of edits
    a modifier then makes to the clone's headers and URL, completed or cut
    short by a panic, the original request still has the headers and the URL
    it had. *)
Theorem cloneRequest_deep_copy (h : Heap) (l : loc) (v : Request) :
  closed_req h l v →
  ∃ (l2 m2 : loc) (v2 : Request) (e2 : gmap string slice) (h' : Heap),
    cloneRequest slack (Some l) h = Some (Some l2, h') ∧
    (* a new request object *)
    reqs h !! l2 = None ∧ reqs h' !! l2 = Some v2 ∧
    (* scalar fields *)
    Method v2 = Method v ∧ Proto v2 = Proto v ∧
    ProtoMajor v2 = ProtoMajor v ∧ ProtoMinor v2 = ProtoMinor v ∧
    ctx v2 = ctx v ∧ Body v2 = Body v ∧
    (* headers: new container, new value arrays, equal content *)
    Header v2 = Some m2 ∧ hdrs h !! m2 = None ∧ hdrs h' !! m2 = Some e2 ∧
    (∀ k s a, e2 !! k = Some s → s_base s = Some a → arrs h !! a = None) ∧
    (∀ k1 k2 s1 s2 a, k1 ≠ k2 → e2 !! k1 = Some s1 → e2 !! k2 = Some s2 →
       s_base s1 = Some a → s_base s2 ≠ Some a) ∧
    req_headers h' l2 = req_headers h l ∧
    (* URL: a new object with the same value *)
    (∀ u, RURL v = Some u →
       ∃ u2, RURL v2 = Some u2 ∧ urls h !! u2 = None ∧ urls h' !! u2 = urls h !! u) ∧
    req_url h' l2 = req_url h l ∧
    (* the original is out of reach of the modifier's edits *)
    ∀ ops : list mutation,
      let h'' := (exec_mutations slack (Some l2) ops h').1 in
      reqs h'' !! l = Some v ∧
      req_headers h'' l = req_headers h l ∧
      req_url h'' l = req_url h l.
Proof.
  intros Hcl.
  destruct (cloneRequest_owned h l v Hcl)
    as (l2 & m2 & e2 & u2 & h' & Hrun & Hl2 & Hm2 & Hv2 & He2 & Hcont & Hfr & Hdis
        & Hurl & Hincl & Hown).
  exists l2, m2, (with_URL u2 (with_Header (Some m2) v)), e2, h'.
  pose proof (closed_req_at _ _ _ Hcl) as Hv.
  split_and!; try done.
  - unfold req_headers. rewrite Hv2, Hv. cbn. by rewrite He2.
  - intros u Hu. rewrite Hu in Hurl. destruct Hurl as (l3 & -> & ? & ?). by exists l3.
  - unfold req_url. rewrite Hv2, Hv. cbn.
    destruct (RURL v) as [u|].
    + by destruct Hurl as (l3 & -> & ? & ?).
    + by destruct Hurl as [-> _].
  - intros ops h''.
    destruct (exec_mutations_frame h l2 ops h' Hincl Hown) as [Hincl' _].
    by apply closed_req_view.
Qed.

(** C10.  [cloneRequest] does not panic on a request whose URL is nil or
    whose header map is nil.  With a nil URL the clone's URL is nil and
    no URL object is read or created.  With a nil header map the clone's map
    is a new, non-nil, empty map, so that assigning a header to the clone
    succeeds (the same assignment on a nil map panics). *)
Theorem cloneRequest_absent_fields (h : Heap) (l : loc) (v : Request) :
  closed_req h l v →
  ∃ (l2 : loc) (v2 : Request) (h' : Heap),
    cloneRequest slack (Some l) h = Some (Some l2, h') ∧
    reqs h' !! l2 = Some v2 ∧
    (RURL v = None → RURL v2 = None ∧ urls h' = urls h) ∧
    (Header v = None →
       ∃ m2, Header v2 = Some m2 ∧ hdrs h !! m2 = None ∧ hdrs h' !! m2 = Some ∅ ∧
         req_headers h' l2 = ∅ ∧
         ∀ k vs, ∃ h'', exec_mutation slack (Some l2) (HeaderSet k vs) h' = Some (tt, h'') ∧
                        req_headers h'' l2 = {[k := vs]} ∧
                        exec_mutation slack (Some l) (HeaderSet k vs) h = None).
Proof.
  intros Hcl.
  destruct (cloneRequest_owned h l v Hcl)
    as (l2 & m2 & e2 & u2 & h' & Hrun & Hl2 & Hm2 & Hv2 & He2 & Hcont & Hfr & Hdis
        & Hurl & Hincl & Hown).
  exists l2, (with_URL u2 (with_Header (Some m2) v)), h'.
  pose proof (closed_req_at _ _ _ Hcl) as Hv.
  split_and!; try done.
  - intros Hu. rewrite Hu in Hurl. by destruct Hurl as [-> ?].
  - intros Hh. rewrite Hh in Hcont. cbn in Hcont.
    apply fmap_empty_inv in Hcont as ->.
    exists m2. split_and!; try done.
    + unfold req_headers. rewrite Hv2. cbn. rewrite He2. cbn. apply (fmap_empty (M:=gmap string)).
    + intros k vs. eexists. split_and!.
      * cbn. unfold hbind, load_req. rewrite Hv2. cbn. by rewrite He2.
      * unfold req_headers. cbn. rewrite Hv2. cbn. rewrite lookup_insert_eq. cbn.
        rewrite insert_empty, map_fmap_singleton. f_equal.
        unfold elems. cbn. rewrite lookup_insert_eq. cbn. by rewrite firstn_all.
      * cbn. unfold hbind, load_req. rewrite Hv. cbn. by rewrite Hh.
Qed.

End ClonerFacts.

(** ** Facts about single runs *)

Section RunFacts.

Context {X : Type}.
Variable E : Collaborators X.

Ltac unfold_world :=
  unfold log, set_mu, set_modReq, set_heap, set_ext, entries in *;
  cbn [heap ext mu modReq trace] in *.

Lemma run_bind {A B} (p : prog A) (f : A → prog B) (w : World X) :
  run E (bind p f) w =
  match run E p w with
  | Done a w' => run E (f a) w'
  | Panicked w' => Panicked w'
  | Deadlock w' => Deadlock w'
  end.
Proof.
  revert w. induction p as [a| |C a k IH]; intros w; cbn; [done..|].
  destruct (handle E a w); [apply IH|done..].
Qed.

Lemma run_heap {A B} (m : heapM A) (f : A → prog B) (w : World X) a h' :
  m (heap w) = Some (a, h') →
  run E (bind (act (AHeap m)) f) w = run E (f a) (set_heap h' w).
Proof. intros Hm. cbn. by rewrite Hm. Qed.

(** [setModReq], run with the mutex free: it returns, the mutex is free
    again, the map is allocated and holds the entries it held before with
    [orig] bound to [mod] (or unbound, for a nil [mod]). *)
Lemma run_setModReq (orig md : ptr) (w : World X) :
  mu w = false →
  run E (setModReq orig md) w =
  Done tt (mkWorld (heap w) (ext w) false
             (Some (setModReq_entries orig md (entries w)))
             (trace w ++ setModReq_events (is_nil_map w) orig md)).
Proof.
  destruct w as [h x m mr tr]. cbn. intros ->.
  destruct mr as [mm|], md as [l|]; cbn; unfold_world; rewrite <- ?app_assoc; done.
Qed.

(** [runFunc] on a reader whose function was already run (or never set):
    nothing happens. *)
Lemma run_runFunc_nil (r : loc) (v : onEOFReader) (w : World X) :
  rdrs (heap w) !! r = Some v → fn v = None →
  run E (runFunc (Some r)) w = Done tt w.
Proof.
  intros Hr Hf. unfold runFunc.
  rewrite (run_heap _ _ w v (heap w)) by (cbn; by rewrite Hr).
  rewrite Hf. cbn. by destruct w.
Qed.

(** [runFunc] on a reader that still holds its function: the function is
    called, then the field is cleared. *)
Lemma run_runFunc_fn (r : loc) (v : onEOFReader) (req : ptr) (w : World X) :
  rdrs (heap w) !! r = Some v → fn v = Some (UnsetModReq req) → mu w = false →
  run E (runFunc (Some r)) w =
  Done tt (mkWorld (set_rdrs <[r:=mkReader (rc v) None]> (heap w)) (ext w) false
             (Some (delete req (entries w)))
             (trace w ++ EvCall (UnsetModReq req) :: setModReq_events (is_nil_map w) req None)).
Proof.
  intros Hr Hf Hmu. unfold runFunc.
  rewrite (run_heap _ _ w v (heap w)) by (cbn; by rewrite Hr).
  rewrite Hf. unfold call. rewrite !run_bind. cbn [run act handle].
  rewrite run_setModReq by done. cbn.
  unfold clear_fn. unfold_world. rewrite Hr. by rewrite <- app_assoc.
Qed.

Lemma run_runFunc (r : loc) (v : onEOFReader) (w : World X) :
  rdrs (heap w) !! r = Some v → mu w = false →
  ∃ w', run E (runFunc (Some r)) w = Done tt w' ∧
    trace w' = trace w ++ runFunc_events (fn v) (is_nil_map w) ∧
    rdrs (heap w') !! r = Some (mkReader (rc v) None) ∧
    mu w' = false ∧ ext w' = ext w ∧
    modReq w' = match fn v with
                | Some (UnsetModReq req) => Some (delete req (entries w))
                | None => modReq w
                end.
Proof.
  intros Hr Hmu. destruct (fn v) as [[req]|] eqn:Hf.
  - eexists. split; [by eapply run_runFunc_fn|]. cbn.
    by rewrite lookup_insert_eq.
  - exists w. split; [by eapply run_runFunc_nil|]. cbn. rewrite app_nil_r.
    split_and!; try done. rewrite Hr. f_equal. destruct v; cbn in *. by subst.
Qed.

Lemma deletes_app (orig : ptr) (evs1 evs2 : list event) :
  deletes orig (evs1 ++ evs2) = deletes orig evs1 + deletes orig evs2.
Proof. apply sum_list_with_app. Qed.

Lemma closes_app (s : sid) (evs1 evs2 : list event) :
  closes s (evs1 ++ evs2) = closes s evs1 + closes s evs2.
Proof. apply sum_list_with_app. Qed.

Lemma calls_app (evs1 evs2 : list event) : calls (evs1 ++ evs2) = calls evs1 + calls evs2.
Proof. apply sum_list_with_app. Qed.

Lemma triggered_app (evs1 evs2 : list event) :
  triggered (evs1 ++ evs2) = triggered evs1 || triggered evs2.
Proof. apply existsb_app. Qed.

Lemma triggered_cons (e : event) (evs : list event) :
  triggered (e :: evs) = triggers e || triggered evs.
Proof. done. Qed.

Lemma runFunc_events_calls (f : option closure) (b : bool) :
  calls (runFunc_events f b) = armed f.
Proof. destruct f as [[req]|], b; done. Qed.

Lemma runFunc_events_deletes (orig : ptr) (f : option closure) (b : bool) :
  deletes orig (runFunc_events f b) = armed_for orig f.
Proof. destruct f as [[req]|], b; cbn; try done; case_decide; done. Qed.

Lemma runFunc_events_triggered (f : option closure) (b : bool) :
  triggered (runFunc_events f b) = false.
Proof. destruct f as [[[req|]]|], b; done. Qed.

Lemma triggers_read (s : sid) (n : nat) (res : nat * option error) :
  triggers (EvRead s n res) = bool_decide (res.2 = Some EOF).
Proof. destruct res as [m [[]|]]; done. Qed.

Lemma use_spec (r : loc) (s : sid) (f : option closure) (u : body_use) (w : World X) :
  rdrs (heap w) !! r = Some (mkReader (Plain (Some s)) f) → mu w = false →
  ∃ w' evs,
    run E (use (Some r) u) w = Done tt w' ∧
    trace w' = trace w ++ evs ∧
    (u = UseClose → triggered evs = true) ∧
    rdrs (heap w') !! r = Some (mkReader (Plain (Some s)) (if triggered evs then None else f)) ∧
    mu w' = false ∧
    calls evs = (if triggered evs then armed f else 0) ∧
    (∀ orig, deletes orig evs = if triggered evs then armed_for orig f else 0) ∧
    modReq w' = cleaned f (triggered evs) (modReq w).
Proof.
  intros Hr Hmu. destruct u as [n|]; unfold use.
  - (* Read *)
    rewrite run_bind. unfold Read.
    rewrite (run_heap _ _ w (mkReader (Plain (Some s)) f) (heap w)) by (cbn; by rewrite Hr).
    cbn [rc rc_Read]. rewrite run_bind. cbn [act run handle].
    replace (set_heap (heap w) w) with w by (by destruct w).
    destruct (streamRead E s n (ext w)) as [x' res] eqn:Hrd.
    set (w1 := log (EvRead s n res) (set_ext x' w)).
    case_decide as Heof.
    + destruct (run_runFunc r (mkReader (Plain (Some s)) f) w1)
        as (w2 & Hrun & Htr & Hr2 & Hmu2 & _ & Hm2); [done..|].
      rewrite run_bind, Hrun. cbn.
      exists w2, (EvRead s n res :: runFunc_events f (is_nil_map w)).
      assert (Htrig : triggered (EvRead s n res :: runFunc_events f (is_nil_map w)) = true).
      { rewrite triggered_cons, triggers_read. by rewrite bool_decide_eq_true_2. }
      rewrite Htrig. split_and!; try done.
      * rewrite Htr. cbn. by rewrite <- app_assoc.
      * change (calls (?e :: ?l)) with (calls_of e + calls l).
        by rewrite runFunc_events_calls.
      * intros orig. change (deletes orig (?e :: ?l)) with (deletes_of orig e + deletes orig l).
        by rewrite runFunc_events_deletes.

    + cbn. exists w1, [EvRead s n res].
      assert (Htrig : triggered [EvRead s n res] = false).
      { rewrite triggered_cons, triggers_read. by rewrite bool_decide_eq_false_2. }
      rewrite Htrig. split_and!; try done. cbn. by destruct f as [[req]|].
  - (* Close *)
    rewrite run_bind. unfold Close.
    rewrite (run_heap _ _ w (mkReader (Plain (Some s)) f) (heap w)) by (cbn; by rewrite Hr).
    cbn [rc rc_Close]. rewrite run_bind. cbn [act run handle].
    replace (set_heap (heap w) w) with w by (by destruct w).
    destruct (streamClose E s (ext w)) as [x' err] eqn:Hcl.
    set (w1 := log (EvClose s err) (set_ext x' w)).
    destruct (run_runFunc r (mkReader (Plain (Some s)) f) w1)
      as (w2 & Hrun & Htr & Hr2 & Hmu2 & _ & Hm2); [done..|].
    rewrite run_bind, Hrun. cbn.
    exists w2, (EvClose s err :: runFunc_events f (is_nil_map w)).
    change (triggered (EvClose s err :: ?l)) with true. cbv iota.
    split_and!; try done.
    + rewrite Htr. cbn. by rewrite <- app_assoc.
    + change (calls (?e :: ?l)) with (calls_of e + calls l).
      by rewrite runFunc_events_calls.
    + intros orig. change (deletes orig (?e :: ?l)) with (deletes_of orig e + deletes orig l).
      by rewrite runFunc_events_deletes.
Qed.

Lemma uses_spec (r : loc) (s : sid) (us : list body_use) (f : option closure) (w : World X) :
  rdrs (heap w) !! r = Some (mkReader (Plain (Some s)) f) → mu w = false →
  ∃ w' evs,
    run E (uses (Some r) us) w = Done tt w' ∧
    trace w' = trace w ++ evs ∧
    (UseClose ∈ us → triggered evs = true) ∧
    rdrs (heap w') !! r = Some (mkReader (Plain (Some s)) (if triggered evs then None else f)) ∧
    mu w' = false ∧
    calls evs = (if triggered evs then armed f else 0) ∧
    (∀ orig, deletes orig evs = if triggered evs then armed_for orig f else 0) ∧
    modReq w' = cleaned f (triggered evs) (modReq w).
Proof.
  revert f w. induction us as [|u us IH]; intros f w Hr Hmu.
  - exists w, []. cbn. rewrite app_nil_r. split_and!; try done.
    + intros Hin. by apply elem_of_nil in Hin.
    + by destruct f as [[req]|].
  - destruct (use_spec r s f u w Hr Hmu)
      as (w1 & evs1 & Hrun1 & Htr1 & Hcl1 & Hr1 & Hmu1 & Hc1 & Hd1 & Hm1).
    destruct (IH _ w1 Hr1 Hmu1)
      as (w2 & evs2 & Hrun2 & Htr2 & Hcl2 & Hr2 & Hmu2 & Hc2 & Hd2 & Hm2).
    exists w2, (evs1 ++ evs2). cbn [uses]. rewrite run_bind, Hrun1, Hrun2.
    rewrite triggered_app, calls_app, Hc1, Hc2, Hm2, Hm1, Htr2, Htr1, Hr2.
    split_and!; try done.
    + by rewrite app_assoc.
    + intros [<-|Hin]%elem_of_cons.
      * by rewrite Hcl1.
      * rewrite Hcl2 by done. by destruct (triggered evs1).
    + by destruct (triggered evs1), (triggered evs2).
    + destruct (triggered evs1), (triggered evs2), f as [[req]|]; cbn; lia.
    + intros orig. rewrite deletes_app, Hd1, Hd2.
      destruct (triggered evs1), (triggered evs2), f as [[req]|]; cbn; lia.
    + destruct (triggered evs1), (triggered evs2), f as [[req]|]; cbn; done.
Qed.

Lemma req_body_closed (h : Heap) (l : loc) (v : Request) :
  reqs h !! l = Some v → req_body (Some l) h = Some (Body v, h).
Proof. intros Hv. unfold req_body, hbind, load_req. by rewrite Hv. Qed.

(** The deferred function, when the request is as it was when it was
    registered. *)
Lemma run_deferred_close (l : loc) (v : Request) (b : bool) (w : World X) :
  reqs (heap w) !! l = Some v →
  run E (deferred_close (Some l) (bool_decide (Body v ≠ None)) b) w =
  Done tt (if b then w
           else mkWorld (heap w) (closing E (Body v) (ext w)).1 (mu w) (modReq w)
                        (trace w ++ (closing E (Body v) (ext w)).2)).
Proof.
  intros Hv. unfold deferred_close.
  destruct b.
  { by rewrite andb_false_r. }
  rewrite andb_true_r. destruct (Body v) as [s|] eqn:Hb.
  - rewrite bool_decide_eq_true_2 by done.
    rewrite (run_heap _ _ w (Some s) (heap w)) by (rewrite <- Hb; by apply req_body_closed).
    destruct w as [h x m mr tr]. cbn. by destruct (streamClose E s x).
  - rewrite bool_decide_eq_false_2 by (by intros []).
    destruct w as [h x m mr tr]. cbn. by rewrite app_nil_r.
Qed.

(** [RoundTrip] when the modifier returns an error. *)
Lemma run_RoundTrip_refused (k : RequestIntercepter) (m : modifier)
    (l : loc) (v : Request) (w : World X) (req2 : ptr) (h1 h2 : Heap) (x2 : X) (e : error) :
  reqs (heap w) !! l = Some v →
  requestModifier k = Some m →
  cloneRequest (slack E) (Some l) (heap w) = Some (req2, h1) →
  intercept E m req2 h1 (ext w) = (h2, x2, Some e) →
  reqs h2 !! l = Some v →
  run E (RoundTrip (slack E) k (Some l)) w =
  Done (None, Some (Wrapped e "error while intercepting request"))
       (mkWorld h2 (closing E (Body v) x2).1 (mu w) (modReq w)
          (trace w ++ EvIntercept m req2 (Some e) :: (closing E (Body v) x2).2)).
Proof.
  intros Hv Hm Hclone Hint Hv2. unfold RoundTrip.
  rewrite (run_heap _ _ w (Body v) (heap w)) by (by apply req_body_closed).
  rewrite (run_heap _ _ _ req2 h1) by done.
  rewrite Hm. cbn [bind act run handle]. unfold_world. rewrite Hint.
  rewrite run_bind, (run_deferred_close l v) by done. cbn. by rewrite <- app_assoc.
Qed.

(** [RoundTrip] when the modifier succeeds and the base transport returns
    an error. *)
Lemma run_RoundTrip_send_failed (k : RequestIntercepter) (m : modifier)
    (l l2 : loc) (v : Request) (w : World X) (h1 h2 : Heap) (x2 x3 : X)
    (closed : list sid) (resp : option Response) (e : error) :
  reqs (heap w) !! l = Some v →
  requestModifier k = Some m →
  mu w = false →
  cloneRequest (slack E) (Some l) (heap w) = Some (Some l2, h1) →
  intercept E m (Some l2) h1 (ext w) = (h2, x2, None) →
  roundTrip E (base k) (Some l2) h2 x2 = (x3, closed, (resp, Some e)) →
  run E (RoundTrip (slack E) k (Some l)) w =
  Done (None, Some e)
       (mkWorld (deliver resp h2).2 x3 false (Some (delete (Some l) (entries w)))
          (trace w ++
           dispatch_events k m (is_nil_map w) l l2 closed (deliver resp h2).1 (Some e) ++
           setModReq_events false (Some l) None)).
Proof.
  intros Hv Hm Hmu Hclone Hint Hrt. unfold RoundTrip.
  rewrite (run_heap _ _ w (Body v) (heap w)) by (by apply req_body_closed).
  rewrite (run_heap _ _ _ (Some l2) h1) by done.
  rewrite Hm. cbn [bind act run handle]. unfold_world. rewrite Hint.
  rewrite run_bind, run_setModReq by done. cbn [bind act run handle heap ext].
  rewrite Hrt. unfold dispatch_events.
  destruct resp as [rv|]; cbn [run deliver fst snd];
    rewrite run_bind, run_setModReq by done;
    rewrite run_bind; unfold deferred_close; rewrite andb_false_r; cbn; unfold_world; cbn;
    rewrite delete_insert_eq; unfold is_nil_map; cbn [modReq];
    destruct (modReq w); cbn; rewrite <- ?app_assoc; cbn; done.
Qed.

(** [RoundTrip] when the modifier succeeds and the base transport returns a
    response: the body of the response is now a reader that wraps the body
    the transport returned and holds the function that removes the entry. *)
Lemma run_RoundTrip_response (k : RequestIntercepter) (m : modifier)
    (l l2 : loc) (v : Request) (w : World X) (h1 h2 : Heap) (x2 x3 : X)
    (closed : list sid) (rv : Response) :
  reqs (heap w) !! l = Some v →
  requestModifier k = Some m →
  mu w = false →
  cloneRequest (slack E) (Some l) (heap w) = Some (Some l2, h1) →
  intercept E m (Some l2) h1 (ext w) = (h2, x2, None) →
  roundTrip E (base k) (Some l2) h2 x2 = (x3, closed, (Some rv, None)) →
  let res := new_loc (resps h2) in
  let rd := new_loc (rdrs h2) in
  run E (RoundTrip (slack E) k (Some l)) w =
  Done (Some res, None)
       (mkWorld (mkHeap (reqs h2) (hdrs h2) (arrs h2) (urls h2)
                   (<[res:=mkResponse (StatusCode rv) (Tracking rd)]> (resps h2))
                   (<[rd:=mkReader (RBody rv) (Some (UnsetModReq (Some l)))]> (rdrs h2)))
          x3 false (Some (<[Some l:=Some l2]> (entries w)))
          (trace w ++ dispatch_events k m (is_nil_map w) l l2 closed (Some res) None)).
Proof.
  intros Hv Hm Hmu Hclone Hint Hrt res rd. unfold RoundTrip.
  rewrite (run_heap _ _ w (Body v) (heap w)) by (by apply req_body_closed).
  rewrite (run_heap _ _ _ (Some l2) h1) by done.
  rewrite Hm. cbn [bind act run handle]. unfold_world. rewrite Hint.
  rewrite run_bind, run_setModReq by done. cbn [bind act run handle heap ext].
  rewrite Hrt. unfold dispatch_events. cbn [run handle heap deliver]. unfold_world.
  unfold resp_body. cbn [resps set_resps]. rewrite lookup_insert_eq. cbn [fmap option_fmap option_map].
  cbn [bind act run handle heap new_reader set_heap]. cbn [rdrs set_resps].
  unfold_world. unfold set_resp_body. cbn [resps set_rdrs set_resps]. rewrite lookup_insert_eq.
  rewrite run_bind. unfold deferred_close. rewrite andb_false_r. cbn.
  unfold set_resps, set_rdrs. cbn.
  fold res rd. rewrite insert_insert_eq.
  unfold is_nil_map; cbn [modReq].
  destruct (modReq w); cbn; rewrite <- ?app_assoc; cbn; done.
Qed.

(** [RoundTrip] on an interceptor without modifier panics at the call of
    [Intercept], after the deferred function closed the request body. *)
Lemma run_RoundTrip_nil_modifier (k : RequestIntercepter)
    (l : loc) (v : Request) (w : World X) (req2 : ptr) (h1 : Heap) :
  reqs (heap w) !! l = Some v →
  requestModifier k = None →
  cloneRequest (slack E) (Some l) (heap w) = Some (req2, h1) →
  reqs h1 !! l = Some v →
  run E (RoundTrip (slack E) k (Some l)) w =
  Panicked (mkWorld h1 (closing E (Body v) (ext w)).1 (mu w) (modReq w)
              (trace w ++ (closing E (Body v) (ext w)).2)).
Proof.
  intros Hv Hm Hclone Hv1. unfold RoundTrip.
  rewrite (run_heap _ _ w (Body v) (heap w)) by (by apply req_body_closed).
  rewrite (run_heap _ _ _ req2 h1) by done.
  rewrite Hm. by rewrite run_bind, (run_deferred_close l v).
Qed.



(** The events of [RoundTrip] once the base transport has been called,
    whatever it returned. *)
Lemma RoundTrip_events_after_dispatch (k : RequestIntercepter) (m : modifier)
    (l l2 : loc) (v : Request) (w : World X) (h1 h2 : Heap) (x2 x3 : X)
    (closed : list sid) (resp : option Response) (err : option error) :
  reqs (heap w) !! l = Some v →
  requestModifier k = Some m →
  mu w = false →
  cloneRequest (slack E) (Some l) (heap w) = Some (Some l2, h1) →
  intercept E m (Some l2) h1 (ext w) = (h2, x2, None) →
  roundTrip E (base k) (Some l2) h2 x2 = (x3, closed, (resp, err)) →
  trace (final (run E (RoundTrip (slack E) k (Some l)) w)) =
  trace w ++ dispatch_events k m (is_nil_map w) l l2 closed (deliver resp h2).1 err ++
  match err with
  | Some _ => setModReq_events false (Some l) None
  | None => []
  end.
Proof.
  intros Hv Hm Hmu Hclone Hint Hrt.
  destruct err as [e|].
  { by erewrite run_RoundTrip_send_failed. }
  destruct resp as [rv|].
  - erewrite run_RoundTrip_response by done. cbn. by rewrite app_nil_r.
  - unfold RoundTrip.
    rewrite (run_heap _ _ w (Body v) (heap w)) by (by apply req_body_closed).
    rewrite (run_heap _ _ _ (Some l2) h1) by done.
    rewrite Hm. cbn [bind act run handle]. unfold_world. rewrite Hint.
    rewrite run_bind, run_setModReq by done. cbn [bind act run handle heap ext].
    rewrite Hrt. cbn.
    unfold is_nil_map. cbn [modReq].
    destruct (modReq w); cbn; rewrite <- ?app_assoc; cbn; done.
Qed.

(** Once the modifier has returned, [RoundTrip] touches no request, header
    map, array or URL. *)
Lemma RoundTrip_heap_after_intercept (k : RequestIntercepter) (m : modifier)
    (l l2 : loc) (v : Request) (w : World X) (h1 h2 : Heap) (x2 : X)
    (ierr : option error) :
  reqs (heap w) !! l = Some v →
  requestModifier k = Some m →
  mu w = false →
  cloneRequest (slack E) (Some l) (heap w) = Some (Some l2, h1) →
  intercept E m (Some l2) h1 (ext w) = (h2, x2, ierr) →
  reqs h2 !! l = Some v →
  let h' := heap (final (run E (RoundTrip (slack E) k (Some l)) w)) in
  reqs h' = reqs h2 ∧ hdrs h' = hdrs h2 ∧ arrs h' = arrs h2 ∧ urls h' = urls h2.
Proof.
  intros Hv Hm Hmu Hclone Hint Hv2 h'. subst h'.
  destruct ierr as [e|].
  { by erewrite run_RoundTrip_refused. }
  destruct (roundTrip E (base k) (Some l2) h2 x2) as [[x3 closed] [resp err]] eqn:Hrt.
  destruct err as [e|].
  { erewrite run_RoundTrip_send_failed by done. by destruct resp. }
  destruct resp as [rv|].
  - by erewrite run_RoundTrip_response.
  - unfold RoundTrip.
    rewrite (run_heap _ _ w (Body v) (heap w)) by (by apply req_body_closed).
    rewrite (run_heap _ _ _ (Some l2) h1) by done.
    rewrite Hm. cbn [bind act run handle]. unfold_world. rewrite Hint.
    rewrite run_bind, run_setModReq by done. cbn [bind act run handle heap ext].
    by rewrite Hrt.
Qed.

Lemma views_of_requests (h h' : Heap) (l : loc) :
  reqs h' = reqs h → hdrs h' = hdrs h → arrs h' = arrs h → urls h' = urls h →
  req_headers h' l = req_headers h l ∧ req_url h' l = req_url h l.
Proof. destruct h, h'. cbn. by intros -> -> -> ->. Qed.

(** X17.  [RoundTrip] does not modify the caller's request.  With a modifier
    that edits the request it is handed (and nothing else) by any sequence
    of header and URL edits, when [RoundTrip] is over, however it ends
    (refusal of the modifier, panic of an edit, error or response of the
    base transport), the caller's request object is unchanged and has the
    headers and the URL it had. *)
Corollary RoundTrip_leaves_request (k : RequestIntercepter) (m : modifier)
    (ops : list mutation) (l : loc) (v : Request) (w : World X) :
  closed_req (heap w) l v → requestModifier k = Some m → mu w = false →
  (∀ req h x, (intercept E m req h x).1.1 = (exec_mutations (slack E) req ops h).1) →
  let w' := final (run E (RoundTrip (slack E) k (Some l)) w) in
  reqs (heap w') !! l = Some v ∧
  req_headers (heap w') l = req_headers (heap w) l ∧
  req_url (heap w') l = req_url (heap w) l.
Proof.
  intros Hcl Hm Hmu Hops w'.
  destruct (cloneRequest_owned (slack E) (heap w) l v Hcl)
    as (l2 & m2 & e2 & u2 & h1 & Hclone & _ & _ & _ & _ & _ & _ & _ & _ & Hincl & Hown).
  destruct (intercept E m (Some l2) h1 (ext w)) as [[h2 x2] ierr] eqn:Hint.
  pose proof (closed_req_at _ _ _ Hcl) as Hv.
  specialize (Hops (Some l2) h1 (ext w)). rewrite Hint in Hops. cbn in Hops. subst h2.
  destruct (exec_mutations_frame (slack E) (heap w) l2 ops h1 Hincl Hown) as [Hincl' _].
  destruct (closed_req_view (heap w) _ l v Hcl Hincl') as (Hv2 & Hhd & Hurl).
  destruct (RoundTrip_heap_after_intercept k m l l2 v w h1 _ x2 ierr Hv Hm Hmu Hclone Hint Hv2)
    as (Hr & Hh & Ha & Hu).
  destruct (views_of_requests _ (heap w') l Hr Hh Ha Hu) as [-> ->].
  subst w'. by rewrite Hr.
Qed.

Lemma closes_setModReq_events (s : sid) (b : bool) (orig md : ptr) :
  closes s (setModReq_events b orig md) = 0.
Proof. by destruct b, md. Qed.

Lemma closes_dispatch_events (s : sid) (k : RequestIntercepter) (m : modifier) (b : bool)
    (l l2 : loc) (closed : list sid) (res : ptr) (err : option error) :
  closes s (dispatch_events k m b l l2 closed res err) =
  length (filter (fun s' => s' = s) closed).
Proof.
  unfold dispatch_events.
  change (closes s (?e :: ?l)) with (closes_of s e + closes s l).
  rewrite closes_app, closes_setModReq_events. cbn. lia.
Qed.

Lemma closes_closing (s : sid) (x : X) : closes s (closing E (Some s) x).2 = 1.
Proof.
  cbn. destruct (streamClose E s x). cbn. by rewrite decide_True.
Qed.

Lemma clone_of_closed (l : loc) (v : Request) (h : Heap) :
  closed_req h l v →
  ∃ (l2 : loc) (h1 : Heap), cloneRequest (slack E) (Some l) h = Some (Some l2, h1).
Proof.
  intros Hcl. destruct (cloneRequest_owned (slack E) h l v Hcl) as (l2 & ? & ? & ? & h1 & ? & _).
  by exists l2, h1.
Qed.

(** C2.  In a [RoundTrip] whose modifier succeeds, the entry of the original
    request is stored after the call of [Intercept] and before the call of
    the base transport.  If the base transport returns an error the entry is
    deleted (once) before [RoundTrip] returns.  If it returns a response, the
    entry is there when [RoundTrip] returns, and whatever the caller then
    does with the body, the entry is deleted once, by the first [Read] that
    meets end-of-stream or the first [Close], and not before.  A map that
    was empty before the request is empty again once that happened; [Close]
    alone is enough. *)
Theorem tracking_entry_lifecycle (k : RequestIntercepter) (m : modifier)
    (l : loc) (v : Request) (w : World X) :
  closed_req (heap w) l v → requestModifier k = Some m → mu w = false →
  ∃ (l2 : loc) (h1 : Heap),
    cloneRequest (slack E) (Some l) (heap w) = Some (Some l2, h1) ∧
    ∀ h2 x2 x3 closed resp err,
      intercept E m (Some l2) h1 (ext w) = (h2, x2, None) →
      roundTrip E (base k) (Some l2) h2 x2 = (x3, closed, (resp, err)) →
      let modified := [EvIntercept m (Some l2) None] in
      let recorded := setModReq_events (is_nil_map w) (Some l) (Some l2) in
      let sent := [EvRoundTrip (base k) (Some l2) closed (deliver resp h2).1 err] in
      let removed := setModReq_events false (Some l) None in
      EvMapStore (Some l) (Some l2) ∈ recorded ∧
      deletes (Some l) (modified ++ recorded ++ sent) = 0 ∧
      (* the send fails *)
      (∀ e, err = Some e →
         ∃ w', run E (RoundTrip (slack E) k (Some l)) w = Done (None, Some e) w' ∧
           trace w' = trace w ++ modified ++ recorded ++ sent ++ removed ∧
           deletes (Some l) removed = 1 ∧
           entries w' !! Some l = None ∧
           (entries w = ∅ → size (entries w') = 0)) ∧
      (* the send succeeds *)
      (∀ rv s, err = None → resp = Some rv → RBody rv = Plain (Some s) →
         ∃ (res rd : loc) (w1 : World X),
           run E (RoundTrip (slack E) k (Some l)) w = Done (Some res, None) w1 ∧
           trace w1 = trace w ++ modified ++ recorded ++ sent ∧
           entries w1 !! Some l = Some (Some l2) ∧
           resps (heap w1) !! res = Some (mkResponse (StatusCode rv) (Tracking rd)) ∧
           rdrs (heap w1) !! rd = Some (mkReader (Plain (Some s)) (Some (UnsetModReq (Some l)))) ∧
           ∀ us : list body_use,
             ∃ (w2 : World X) (evs : list event),
               run E (uses (Some rd) us) w1 = Done tt w2 ∧
               trace w2 = trace w1 ++ evs ∧
               (UseClose ∈ us → triggered evs = true) ∧
               deletes (Some l) evs = (if triggered evs then 1 else 0) ∧
               entries w2 !! Some l = (if triggered evs then None else Some (Some l2)) ∧
               (entries w = ∅ → size (entries w2) = if triggered evs then 0 else 1)).
Proof.
  intros Hcl Hm Hmu. destruct (clone_of_closed l v (heap w) Hcl) as (l2 & h1 & Hclone).
  pose proof (closed_req_at _ _ _ Hcl) as Hv.
  exists l2, h1. split; [done|].
  intros h2 x2 x3 closed resp err Hint Hrt modified recorded sent removed.
  split_and!.
  - subst recorded. unfold setModReq_events. destruct (is_nil_map w); set_solver.
  - subst modified recorded sent. unfold setModReq_events. by destruct (is_nil_map w).
  - intros e ->. eexists. split; [by eapply run_RoundTrip_send_failed|].
    cbn [trace modReq]. split_and!.
    + unfold dispatch_events. subst modified recorded sent removed. cbn.
      by rewrite <- !app_assoc.
    + subst removed. cbn. by rewrite decide_True.
    + unfold entries at 1. cbn. apply lookup_delete_eq.
    + intros ->. unfold entries at 1. cbn. by rewrite delete_empty.
  - intros rv s -> -> Hb.
    pose proof (run_RoundTrip_response k m l l2 v w h1 h2 x2 x3 closed rv
                  Hv Hm Hmu Hclone Hint Hrt) as Hrun. cbn zeta in Hrun. rewrite Hb in Hrun.
    set (res := new_loc (resps h2)) in *. set (rd := new_loc (rdrs h2)) in *.
    eexists res, rd, _. split; [exact Hrun|]. cbn [trace heap resps rdrs].
    split_and!.
    + unfold dispatch_events. subst modified recorded sent. cbn.
      by rewrite <- !app_assoc.
    + unfold entries at 1. cbn. apply lookup_insert_eq.
    + apply lookup_insert_eq.
    + apply lookup_insert_eq.
    + intros us.
      match type of Hrun with _ = Done _ ?ww => set (w1 := ww) in * end.
      destruct (uses_spec rd s us (Some (UnsetModReq (Some l))) w1)
        as (w2 & evs & Hrun2 & Htr2 & Hcl2 & Hr2 & Hmu2 & Hc2 & Hd2 & Hm2).
      { subst w1. cbn. apply lookup_insert_eq. }
      { done. }
      exists w2, evs. split_and!; try done.
      * rewrite Hd2. cbn. rewrite decide_True by done. done.
      * unfold entries at 1. rewrite Hm2. subst w1. cbn.
        destruct (triggered evs); cbn.
        -- apply lookup_delete_eq.
        -- apply lookup_insert_eq.
      * intros Hempty. unfold entries at 1. rewrite Hm2. subst w1. cbn. rewrite Hempty.
        destruct (triggered evs); cbn.
        -- by rewrite delete_insert_eq, delete_empty.
        -- by rewrite insert_empty, map_size_singleton.
Qed.

(** C3.  When [Intercept] returns an error (and has left the caller's
    request object alone), [RoundTrip] returns a nil response and that error
    wrapped with the message "error while intercepting request"; the
    tracking map is left as it was (not even allocated) and the run contains
    no map operation and no call of the base transport: after [Intercept] it
    only closes the request body, if there is one. *)
Theorem RoundTrip_intercept_error (k : RequestIntercepter) (m : modifier)
    (l : loc) (v : Request) (w : World X) :
  closed_req (heap w) l v → requestModifier k = Some m →
  ∃ (l2 : loc) (h1 : Heap),
    cloneRequest (slack E) (Some l) (heap w) = Some (Some l2, h1) ∧
    ∀ h2 x2 e,
      intercept E m (Some l2) h1 (ext w) = (h2, x2, Some e) →
      reqs h2 !! l = Some v →
      ∃ (w' : World X) (evs : list event),
        run E (RoundTrip (slack E) k (Some l)) w =
          Done (None, Some (Wrapped e "error while intercepting request")) w' ∧
        Cause (Wrapped e "error while intercepting request") = Cause e ∧
        ErrorString (Wrapped e "error while intercepting request") =
          "error while intercepting request: " +:+ ErrorString e ∧
        modReq w' = modReq w ∧
        trace w' = trace w ++ evs ∧
        evs = EvIntercept m (Some l2) (Some e) :: (closing E (Body v) x2).2 ∧
        Forall (fun ev => is_map_event ev = false ∧ is_round_trip ev = false) evs.
Proof.
  intros Hcl Hm. destruct (clone_of_closed l v (heap w) Hcl) as (l2 & h1 & Hclone).
  pose proof (closed_req_at _ _ _ Hcl) as Hv.
  exists l2, h1. split; [done|]. intros h2 x2 e Hint Hv2.
  eexists _, _. split; [by eapply run_RoundTrip_refused|].
  cbn [trace modReq]. split_and!; try done.
  apply Forall_cons. split; [done|].
  destruct (Body v) as [s|]; cbn; [|done].
  destruct (streamClose E s x2). by repeat constructor.
Qed.

(** C4.  When the base transport returns an error, [RoundTrip] deletes the
    entry of the original request and returns a nil response and that very
    error value: no entry for the request is left in the map, and the other
    entries are untouched. *)
Theorem RoundTrip_base_error (k : RequestIntercepter) (m : modifier)
    (l : loc) (v : Request) (w : World X) :
  closed_req (heap w) l v → requestModifier k = Some m → mu w = false →
  ∃ (l2 : loc) (h1 : Heap),
    cloneRequest (slack E) (Some l) (heap w) = Some (Some l2, h1) ∧
    ∀ h2 x2 x3 closed resp e,
      intercept E m (Some l2) h1 (ext w) = (h2, x2, None) →
      roundTrip E (base k) (Some l2) h2 x2 = (x3, closed, (resp, Some e)) →
      ∃ (w' : World X) (evs : list event),
        run E (RoundTrip (slack E) k (Some l)) w = Done (None, Some e) w' ∧
        trace w' = trace w ++ evs ∧
        deletes (Some l) evs = 1 ∧
        entries w' !! Some l = None ∧
        (∀ o, o ≠ Some l → entries w' !! o = entries w !! o) ∧
        (entries w = ∅ → size (entries w') = 0).
Proof.
  intros Hcl Hm Hmu. destruct (clone_of_closed l v (heap w) Hcl) as (l2 & h1 & Hclone).
  pose proof (closed_req_at _ _ _ Hcl) as Hv.
  exists l2, h1. split; [done|]. intros h2 x2 x3 closed resp e Hint Hrt.
  eexists _, _. split; [by eapply run_RoundTrip_send_failed|].
  cbn [trace modReq]. split_and!; try done.
  - rewrite deletes_app. unfold dispatch_events, setModReq_events.
    destruct (is_nil_map w); cbn; by rewrite decide_True.
  - unfold entries at 1. cbn. apply lookup_delete_eq.
  - intros o Ho. unfold entries at 1. cbn. by apply lookup_delete_ne.
  - intros ->. unfold entries at 1. cbn. by rewrite delete_empty.
Qed.

Lemma run_Read (r : loc) (v : onEOFReader) (s : sid) (n : nat) (w : World X)
    (x' : X) (res : nat * option error) :
  rdrs (heap w) !! r = Some v → rc v = Plain (Some s) → mu w = false →
  streamRead E s n (ext w) = (x', res) →
  ∃ w', run E (Read (Some r) n) w = Done res w' ∧
    trace w' = trace w ++ EvRead s n res ::
      (if decide (res.2 = Some EOF) then runFunc_events (fn v) (is_nil_map w) else []) ∧
    ext w' = x' ∧ mu w' = false ∧
    rdrs (heap w') !! r =
      Some (if decide (res.2 = Some EOF) then mkReader (Plain (Some s)) None else v).
Proof.
  intros Hr Hrc Hmu Hrd. unfold Read.
  rewrite (run_heap _ _ w v (heap w)) by (cbn; by rewrite Hr).
  rewrite Hrc. cbn [rc_Read]. rewrite run_bind. cbn [act run handle].
  replace (set_heap (heap w) w) with w by (by destruct w).
  rewrite Hrd. set (w1 := log (EvRead s n res) (set_ext x' w)).
  case_decide as Heof.
  - destruct (run_runFunc r v w1) as (w2 & Hrun & Htr & Hr2 & Hmu2 & Hx2 & _); [done..|].
    rewrite run_bind, Hrun. cbn. exists w2. rewrite Htr, Hr2, Hmu2, Hx2, Hrc.
    split_and!; try done. cbn. by rewrite <- app_assoc.
  - cbn. by exists w1.
Qed.

Lemma run_Close (r : loc) (v : onEOFReader) (s : sid) (w : World X)
    (x' : X) (err : option error) :
  rdrs (heap w) !! r = Some v → rc v = Plain (Some s) → mu w = false →
  streamClose E s (ext w) = (x', err) →
  ∃ w', run E (Close (Some r)) w = Done err w' ∧
    trace w' = trace w ++ EvClose s err :: runFunc_events (fn v) (is_nil_map w) ∧
    ext w' = x' ∧ mu w' = false ∧
    rdrs (heap w') !! r = Some (mkReader (Plain (Some s)) None).
Proof.
  intros Hr Hrc Hmu Hcl. unfold Close.
  rewrite (run_heap _ _ w v (heap w)) by (cbn; by rewrite Hr).
  rewrite Hrc. cbn [rc_Close]. rewrite run_bind. cbn [act run handle].
  replace (set_heap (heap w) w) with w by (by destruct w).
  rewrite Hcl. set (w1 := log (EvClose s err) (set_ext x' w)).
  destruct (run_runFunc r v w1) as (w2 & Hrun & Htr & Hr2 & Hmu2 & Hx2 & _); [done..|].
  rewrite run_bind, Hrun. cbn. exists w2. rewrite Htr, Hr2, Hmu2, Hx2, Hrc.
  split_and!; try done. cbn. by rewrite <- app_assoc.
Qed.



(** C6.  [Read] on a tracked body calls [Read] on the inner stream and
    returns what it returned; when that is [io.EOF] the cleanup runs after
    the inner call and before the return.  [Close] calls [Close] on the inner
    stream, then runs the cleanup, then returns the error of the inner
    [Close]. *)
Theorem tracked_body_delegates (r : loc) (v : onEOFReader) (s : sid) (w : World X) :
  rdrs (heap w) !! r = Some v → rc v = Plain (Some s) → mu w = false →
  (∀ n x' res,
     streamRead E s n (ext w) = (x', res) →
     ∃ w' : World X,
       run E (Read (Some r) n) w = Done res w' ∧
       trace w' = trace w ++ EvRead s n res ::
         (if decide (res.2 = Some EOF) then runFunc_events (fn v) (is_nil_map w) else []) ∧
       ext w' = x' ∧
       rdrs (heap w') !! r =
         Some (if decide (res.2 = Some EOF) then mkReader (Plain (Some s)) None else v)) ∧
  (∀ x' err,
     streamClose E s (ext w) = (x', err) →
     ∃ w' : World X,
       run E (Close (Some r)) w = Done err w' ∧
       trace w' = trace w ++ EvClose s err :: runFunc_events (fn v) (is_nil_map w) ∧
       ext w' = x' ∧
       rdrs (heap w') !! r = Some (mkReader (Plain (Some s)) None)).
Proof.
  intros Hr Hrc Hmu. split.
  - intros n x' res Hrd.
    destruct (run_Read r v s n w x' res Hr Hrc Hmu Hrd) as (w' & ? & ? & ? & _ & ?).
    by exists w'.
  - intros x' err Hcl.
    destruct (run_Close r v s w x' err Hr Hrc Hmu Hcl) as (w' & ? & ? & ? & _ & ?).
    by exists w'.
Qed.

(** C7 (as the code has it).  [CancelRequest] does something only when the
    base transport has a [CancelRequest] method.  Then it reads the entry of
    the given request and deletes it under the mutex, and calls the
    transport's [CancelRequest] with what it read: the modified request if
    there was an entry, nil if there was none.  When the transport has no
    such method the call does nothing at all: the entry stays. *)
Theorem CancelRequest_behaviour (k : RequestIntercepter) (req : ptr) (w : World X) :
  mu w = false →
  (is_canceler E (base k) = true →
     let r := default None (entries w !! req) in
     run E (CancelRequest (is_canceler E) k req) w =
       Done tt (mkWorld (heap w) (cancelRequest E (base k) r (ext w)) false
                  (delete req <$> modReq w)
                  (trace w ++ [EvLock; EvMapLoad req r; EvMapDelete req; EvUnlock;
                               EvCancel (base k) r])) ∧
     (∀ md, entries w !! req = Some md → r = md) ∧
     default ∅ (delete req <$> modReq w) !! req = None) ∧
  (is_canceler E (base k) = false →
     run E (CancelRequest (is_canceler E) k req) w = Done tt w).
Proof.
  intros Hmu. unfold CancelRequest. split; intros Hc; rewrite Hc.
  - split_and!.
    + destruct w as [h x mm mr tr]. cbn in *. subst. unfold_world. cbn.
      by rewrite <- !app_assoc.
    + by intros md ->.
    + destruct (modReq w); cbn; [apply lookup_delete_eq|done].
  - done.
Qed.

Lemma setModReq_events_no_close (b : bool) (orig md : ptr) :
  Forall (fun ev => is_close ev = false) (setModReq_events b orig md).
Proof. destruct b, md; by repeat constructor. Qed.

(** C8.  For a request with a body: when the modifier is missing or returns
    an error (and has left the caller's request object alone), the base
    transport is not called and [RoundTrip] itself closes the body, once.  Once the base transport has been called, [RoundTrip]
    closes nothing: the body has been closed as many times as the transport
    closed it, so exactly once with a transport that honours the
    [http.RoundTripper] contract. *)
Theorem request_body_closed_once (k : RequestIntercepter) (l : loc) (v : Request)
    (s : sid) (w : World X) :
  closed_req (heap w) l v → Body v = Some s → mu w = false →
  ∃ (l2 : loc) (h1 : Heap),
    cloneRequest (slack E) (Some l) (heap w) = Some (Some l2, h1) ∧
    (requestModifier k = None →
       ∃ evs, trace (final (run E (RoundTrip (slack E) k (Some l)) w)) = trace w ++ evs ∧
         closes s evs = 1 ∧ Forall (fun ev => is_round_trip ev = false) evs) ∧
    ∀ m h2 x2 ierr,
      requestModifier k = Some m →
      intercept E m (Some l2) h1 (ext w) = (h2, x2, ierr) →
      (is_Some ierr → reqs h2 !! l = Some v →
         ∃ evs, trace (final (run E (RoundTrip (slack E) k (Some l)) w)) = trace w ++ evs ∧
           closes s evs = 1 ∧ Forall (fun ev => is_round_trip ev = false) evs) ∧
      (ierr = None →
         ∀ x3 closed resp err,
           roundTrip E (base k) (Some l2) h2 x2 = (x3, closed, (resp, err)) →
           ∃ evs, trace (final (run E (RoundTrip (slack E) k (Some l)) w)) = trace w ++ evs ∧
             Forall (fun ev => is_close ev = false) evs ∧
             closes s evs = length (filter (fun s' => s' = s) closed) ∧
             (length (filter (fun s' => s' = s) closed) = 1 → closes s evs = 1)).
Proof.
  intros Hcl Hb Hmu.
  destruct (cloneRequest_owned (slack E) (heap w) l v Hcl)
    as (l2 & m2 & e2 & u2 & h1 & Hclone & _ & _ & _ & _ & _ & _ & _ & _ & Hincl & _).
  pose proof (closed_req_at _ _ _ Hcl) as Hv.
  pose proof (lookup_weaken _ _ _ _ Hv (incl_reqs _ _ Hincl)) as Hv1.
  exists l2, h1. split_and!; [done| |].
  - intros Hm. eexists. erewrite run_RoundTrip_nil_modifier by done. cbn [final trace].
    split; [done|]. rewrite Hb. split; [apply closes_closing|].
    cbn. destruct (streamClose E s (ext w)). by repeat constructor.
  - intros m h2 x2 ierr Hm Hint. split.
    + intros [e ->] Hv2. eexists. erewrite run_RoundTrip_refused by done.
      cbn [final trace]. split; [done|]. rewrite Hb.
      change (closes s (?e :: ?l)) with (closes_of s e + closes s l).
      rewrite closes_closing. split; [done|].
      cbn. destruct (streamClose E s x2). by repeat constructor.
    + intros -> x3 closed resp err Hrt. eexists.
      erewrite RoundTrip_events_after_dispatch by done.
      split; [done|]. split_and!.
      * unfold dispatch_events. apply Forall_app. split.
        -- apply Forall_cons. split; [done|]. apply Forall_app. split.
           ++ apply setModReq_events_no_close.
           ++ by repeat constructor.
        -- destruct err; [apply setModReq_events_no_close|constructor].
      * rewrite closes_app, closes_dispatch_events.
        destruct err; [rewrite closes_setModReq_events|cbn]; lia.
      * intros Hone. rewrite closes_app, closes_dispatch_events.
        destruct err; [rewrite closes_setModReq_events|cbn]; lia.
Qed.

End RunFacts.

(** ** Facts about goroutines running together *)

Section PoolFacts.

Context {X : Type}.
Variable E : Collaborators X.

Lemma disciplined_bind {A B} (p : prog A) (f : A → prog B) (st : option bool) :
  disciplined st p → (∀ a, disciplined None (f a)) → disciplined st (bind p f).
Proof.
  revert st. induction p as [a| |C a k IH]; intros st Hp Hf; cbn in *.
  - subst. apply Hf.
  - done.
  - destruct Hp as [Hperm Hk]. split; [done|]. intros b. by apply IH.
Qed.

Ltac discipline :=
  cbn;
  repeat match goal with
         | |- _ ∧ _ => split
         | |- ∀ _, _ => intros ?
         | |- is_Some (Some _) => by eexists
         | |- _ = _ => done
         | b : bool |- _ => destruct b; cbn
         | m : ptr |- context [match ?m with _ => _ end] => destruct m; cbn
         end.

Lemma setModReq_disciplined (orig md : ptr) : disciplined None (setModReq orig md).
Proof. unfold setModReq. discipline. Qed.

Lemma call_disciplined (c : closure) : disciplined None (call c).
Proof.
  destruct c as [req]. unfold call. apply disciplined_bind; [by discipline|].
  intros _. apply setModReq_disciplined.
Qed.

Lemma runFunc_disciplined (r : ptr) : disciplined None (runFunc r).
Proof.
  unfold runFunc. apply disciplined_bind; [by discipline|]. intros v.
  destruct (fn v) as [c|]; [|done].
  apply disciplined_bind; [apply call_disciplined|]. intros _. by discipline.
Qed.

Lemma Read_disciplined (r : ptr) (n : nat) : disciplined None (Read r n).
Proof.
  unfold Read. apply disciplined_bind; [by discipline|]. intros v.
  apply disciplined_bind; [destruct (rc v) as [[]|]; by discipline|]. intros res.
  case_decide; [|done]. apply disciplined_bind; [apply runFunc_disciplined|done].
Qed.

Lemma Close_disciplined (r : ptr) : disciplined None (Close r).
Proof.
  unfold Close. apply disciplined_bind; [by discipline|]. intros v.
  apply disciplined_bind; [destruct (rc v) as [[]|]; by discipline|]. intros err.
  apply disciplined_bind; [apply runFunc_disciplined|done].
Qed.

Lemma deferred_close_disciplined (req : ptr) (registered b : bool) :
  disciplined None (deferred_close req registered b).
Proof.
  unfold deferred_close. destruct (registered && negb b); [|done].
  apply disciplined_bind; [by discipline|]. intros body.
  apply disciplined_bind; [destruct body; by discipline|done].
Qed.

Lemma RoundTrip_disciplined (k : RequestIntercepter) (req : ptr) :
  disciplined None (RoundTrip (slack E) k req).
Proof.
  unfold RoundTrip. apply disciplined_bind; [by discipline|]. intros body.
  apply disciplined_bind; [by discipline|]. intros req2.
  destruct (requestModifier k) as [m|].
  2:{ apply disciplined_bind; [apply deferred_close_disciplined|done]. }
  apply disciplined_bind; [by discipline|]. intros [e|].
  { apply disciplined_bind; [apply deferred_close_disciplined|done]. }
  apply disciplined_bind; [apply setModReq_disciplined|]. intros _.
  apply disciplined_bind; [by discipline|]. intros [res [e|]].
  { apply disciplined_bind; [apply setModReq_disciplined|]. intros _.
    apply disciplined_bind; [apply deferred_close_disciplined|done]. }
  apply disciplined_bind; [by discipline|]. intros b.
  apply disciplined_bind; [by discipline|]. intros r.
  apply disciplined_bind; [by discipline|]. intros _.
  apply disciplined_bind; [apply deferred_close_disciplined|done].
Qed.

Lemma CancelRequest_disciplined (k : RequestIntercepter) (req : ptr) :
  disciplined None (CancelRequest (is_canceler E) k req).
Proof. unfold CancelRequest. destruct (is_canceler E (base k)); by discipline. Qed.

Lemma goroutine_disciplined (k : RequestIntercepter) (cs : list api_call) :
  disciplined None (goroutine E k cs).
Proof.
  induction cs as [|c cs IH]; [done|]. cbn [goroutine].
  apply disciplined_bind; [|by intros _].
  destruct c as [req|req|r n|r]; cbn [perform].
  - apply disciplined_bind; [apply RoundTrip_disciplined|done].
  - apply CancelRequest_disciplined.
  - apply disciplined_bind; [apply Read_disciplined|done].
  - apply disciplined_bind; [apply Close_disciplined|done].
Qed.

(** One permitted action that returns: what it does to the mutex and to the
    map, by kind. *)
Lemma step_facts {B} (a : action B) (w w' : World X) (b : B) (st : option bool) :
  handle E a w = Next b w' →
  permitted a st →
  (st = Some true → is_Some (modReq w)) →
  match kind_of a with
  | KAcquire => st = None ∧ mu w = false ∧ mu w' = true ∧ modReq w' = modReq w ∧
                next a st b = Some false
  | KRelease => is_Some st ∧ mu w' = false ∧ modReq w' = modReq w ∧ next a st b = None
  | KMap => is_Some st ∧ mu w' = mu w ∧ is_Some (next a st b) ∧
            (next a st b = Some true → is_Some (modReq w'))
  | KOutside => st = None ∧ mu w' = mu w ∧ modReq w' = modReq w ∧ next a st b = None
  end.
Proof.
  intros Hh Ha Hnn.
  destruct a; cbn in *.
  - (* AHeap *) destruct (m (heap w)) as [[]|]; by simplify_eq.
  - (* ALock *) destruct (mu w) eqn:?; by simplify_eq.
  - (* AUnlock *) destruct (mu w) eqn:?; by simplify_eq.
  - (* AMapIsNil *) simplify_eq. cbn. destruct Ha as [nn ->]. cbn.
    split_and!; [by eexists|done|by eexists|].
    destruct nn; cbn; [by auto|]. by destruct (modReq w).
  - (* AMapMake *) simplify_eq. cbn. split_and!; [done|done|by eexists|by eexists].
  - (* AMapLoad *) by simplify_eq.
  - (* AMapStore *) destruct (modReq w); simplify_eq. cbn.
    split_and!; [by eexists|done|by eexists|by eexists].
  - (* AMapDelete *) simplify_eq. cbn. split_and!; [done..|]. intros Hst.
    destruct (Hnn Hst) as [mm ->]. by eexists.
  - (* AIntercept *)
    destruct (intercept E m req (heap w) (ext w)) as [[] ?]. by simplify_eq.
  - (* ARoundTrip *)
    destruct (roundTrip E t req (heap w) (ext w)) as [[] [[] ?]]; cbn in *; by simplify_eq.
  - (* ACancel *) by simplify_eq.
  - (* ARead *) destruct (streamRead E s n (ext w)). by simplify_eq.
  - (* AClose *) destruct (streamClose E s (ext w)). by simplify_eq.
  - (* ACall *) by simplify_eq.
Qed.

(** A permitted action panics only outside the critical section, and leaves
    the world as it was. *)
Lemma crash_facts {B} (a : action B) (w w' : World X) (st : option bool) :
  handle E a w = Crash w' →
  permitted a st →
  (is_Some st → mu w = true) →
  (st = Some true → is_Some (modReq w)) →
  st = None ∧ w' = w.
Proof.
  intros Hh Ha Hmu Hnn.
  destruct a; cbn in *; try done.
  - destruct (m (heap w)) as [[]|]; by simplify_eq.
  - destruct (mu w); done.
  - rewrite Hmu in Hh by done. done.
  - destruct (Hnn Ha) as [mm Hmm]. by rewrite Hmm in Hh.
  - destruct (intercept E m req (heap w) (ext w)) as [[] ?]. done.
  - destruct (roundTrip E t req (heap w) (ext w)) as [[] [[] ?]]; cbn in *; done.
  - destruct (streamRead E s n (ext w)). done.
  - destruct (streamClose E s (ext w)). done.
Qed.

Lemma sched_inv (i : nat) (c : Pool X) : pool_inv c → pool_inv (sched E i c).
Proof.
  intros [Hmu Hth]. unfold sched.
  destruct (threads c !! i) as [[A p]|] eqn:Hi; [|done].
  destruct p as [r| |B a k]; [done..|].
  pose proof (Hth i _ Hi) as Hme.
  destruct (handle E a (world c)) as [b w'|w'|] eqn:Hh; [| |done].
  - (* the action returns *)
    destruct (decide (owner c = Some i)) as [Hown|Hown].
    + (* by the owner of the mutex *)
      destruct Hme as (st & Hst & [Hperm Hk] & Hnn).
      pose proof (step_facts a _ _ b st Hh Hperm Hnn) as Hstep.
      destruct (kind_of a) eqn:Hkind; cbn [next_owner].
      * destruct Hstep as [-> _]. by destruct Hst.
      * destruct Hstep as (_ & Hmu' & Hm' & Hnext). split; cbn.
        -- rewrite Hmu'. split; [done|]. by intros [].
        -- intros j t [(<- & <- & _)|[Hne Hj]]%list_lookup_insert_Some; cbn.
           ++ rewrite <- Hnext. apply Hk.
           ++ specialize (Hth j t Hj). rewrite Hown in Hth.
              by rewrite decide_False in Hth by congruence.
      * destruct Hstep as (_ & Hmu' & Hnext & Hnn'). split; cbn.
        -- by rewrite Hmu'.
        -- intros j t [(<- & <- & _)|[Hne Hj]]%list_lookup_insert_Some.
           ++ rewrite decide_True by done. exists (next a st b). split_and!; [done| |done].
              apply Hk.
           ++ specialize (Hth j t Hj). rewrite Hown in *.
              rewrite decide_False in Hth by congruence.
              by rewrite decide_False by congruence.
      * destruct Hstep as [-> _]. by destruct Hst.
    + (* by a goroutine that does not own it *)
      destruct Hme as [Hperm Hk].
      pose proof (step_facts a _ _ b None Hh Hperm ltac:(done)) as Hstep.
      destruct (kind_of a) eqn:Hkind; cbn [next_owner].
      * destruct Hstep as (_ & Hmu0 & Hmu' & Hm' & Hnext).
        assert (Hfree : owner c = None).
        { destruct (owner c) eqn:Ho; [|done].
          destruct Hmu as [_ Hmu]. rewrite Hmu in Hmu0 by done. done. }
        split; cbn.
        -- rewrite Hmu'. split; [by eexists|done].
        -- intros j t [(<- & <- & _)|[Hne Hj]]%list_lookup_insert_Some.
           ++ rewrite decide_True by done. exists (Some false).
              split_and!; [by eexists| |done]. cbn. rewrite <- Hnext. apply Hk.
           ++ specialize (Hth j t Hj). rewrite Hfree in Hth. cbn in Hth.
              by rewrite decide_False by congruence.
      * destruct Hstep as [[? [=]] _].
      * destruct Hstep as [[? [=]] _].
      * destruct Hstep as (_ & Hmu' & Hm' & Hnext). split; cbn.
        -- by rewrite Hmu'.
        -- intros j t [(<- & <- & _)|[Hne Hj]]%list_lookup_insert_Some.
           ++ rewrite decide_False by done. cbn. rewrite <- Hnext. apply Hk.
           ++ specialize (Hth j t Hj). rewrite Hm'. done.
  - (* the action panics *)
    assert (Hst : ∃ st, thread_disciplined st (Thread (Vis a k)) ∧
                    (is_Some st → mu (world c) = true) ∧
                    (st = Some true → is_Some (modReq (world c))) ∧
                    (st = None → owner c ≠ Some i)).
    { destruct (decide (owner c = Some i)) as [Hown|Hown].
      - destruct Hme as (st & Hs & Hd & Hnn). exists st. split_and!; try done.
        + intros _. apply Hmu. by rewrite Hown.
        + intros ->. by destruct Hs.
      - exists None. split_and!; try done. }
    destruct Hst as (st & [Hperm Hk] & Hmu1 & Hnn & Hnot).
    destruct (crash_facts a _ _ st Hh Hperm Hmu1 Hnn) as [-> ->].
    split; cbn; [done|].
    intros j t [(<- & <- & _)|[Hne Hj]]%list_lookup_insert_Some.
    + by rewrite decide_False by auto.
    + by apply Hth.
Qed.

Lemma interleave_inv (schedule : list nat) (c : Pool X) :
  pool_inv c → pool_inv (interleave E schedule c).
Proof.
  revert c. induction schedule as [|i schedule IH]; intros c Hc; [done|].
  cbn. apply IH. by apply sched_inv.
Qed.

(** With the scheduler's invariant, a goroutine is inside the critical
    section exactly when it owns the mutex. *)
Lemma in_critical_owner (c : Pool X) (i : nat) (t : thread) :
  pool_inv c → threads c !! i = Some t → in_critical t ↔ owner c = Some i.
Proof.
  intros [Hmu Hth] Hi. specialize (Hth i t Hi). destruct t as [A p].
  unfold in_critical. split.
  - intros Hcrit. destruct (decide (owner c = Some i)) as [|Hown]; [done|]. exfalso.
    destruct p as [r| |B a k]; cbn in *; [by destruct Hcrit..|].
    destruct Hth as [Hperm _].
    destruct a; cbn in *; destruct Hcrit as [[=]|[=]]; try done; by destruct Hperm.
  - intros Hown. rewrite decide_True in Hth by done.
    destruct Hth as (st & [nn ->] & Hd & _).
    destruct p as [r| |B a k]; cbn in *; [done..|].
    destruct Hd as [Hperm _].
    destruct a; cbn in *; try done; auto.
Qed.

Lemma setModReq_events_make (b : bool) (orig md : ptr) :
  EvMapMake ∈ setModReq_events b orig md ↔ b = true.
Proof.
  unfold setModReq_events. rewrite list_elem_of_In.
  destruct b, md; cbn; intuition discriminate.
Qed.

(** C9.  Goroutines that call [RoundTrip], [CancelRequest] and the [Read]
    and [Close] of tracked bodies on one interceptor, interleaved in any
    way: at every moment the mutex is locked exactly when one goroutine owns
    it; the goroutine whose next step is an operation on the tracking map
    (a read, a write, a delete, the nil test or the allocation) or the
    unlock is that owner, so no two goroutines are at the map together; and a
    goroutine that is about to call the modifier, the base transport or a
    stream does not own the mutex.  [setModReq] allocates the map, inside
    its critical section, exactly when it finds it nil. *)
Theorem map_accesses_serialized (k : RequestIntercepter) (css : list (list api_call))
    (schedule : list nat) (w : World X) :
  mu w = false →
  let c := interleave E schedule
             (mkPool w None ((fun cs => Thread (goroutine E k cs)) <$> css)) in
  (mu (world c) = true ↔ is_Some (owner c)) ∧
  (∀ i t, threads c !! i = Some t → in_critical t ↔ owner c = Some i) ∧
  (∀ i j ti tj, threads c !! i = Some ti → threads c !! j = Some tj →
     in_critical ti → in_critical tj → i = j) ∧
  (∀ i t, threads c !! i = Some t → about_to t = Some KOutside → owner c ≠ Some i) ∧
  (∀ orig md (w0 : World X), mu w0 = false →
     ∃ w1, run E (setModReq orig md) w0 = Done tt w1 ∧
       is_Some (modReq w1) ∧ mu w1 = false ∧
       trace w1 = trace w0 ++ setModReq_events (is_nil_map w0) orig md ∧
       (EvMapMake ∈ setModReq_events (is_nil_map w0) orig md ↔ modReq w0 = None)).
Proof.
  intros Hmu c.
  assert (Hinv : pool_inv c).
  { apply interleave_inv. split; cbn.
    - rewrite Hmu. split; [done|]. by intros [].
    - intros i t Hi. apply list_lookup_fmap_Some in Hi as (cs & -> & _).
      cbn. apply goroutine_disciplined. }
  split_and!.
  - apply Hinv.
  - intros i t Hi. by apply in_critical_owner.
  - intros i j ti tj Hi Hj Hci Hcj.
    apply (in_critical_owner c i ti Hinv Hi) in Hci.
    apply (in_critical_owner c j tj Hinv Hj) in Hcj. congruence.
  - intros i t Hi Hout Hown.
    apply (in_critical_owner c i t Hinv Hi) in Hown.
    destruct Hown as [Hk|Hk]; rewrite Hk in Hout; done.
  - intros orig md w0 Hmu0. eexists. split; [by apply run_setModReq|].
    cbn [modReq mu trace]. split_and!; try done.
    etrans; [apply setModReq_events_make|]. unfold is_nil_map. by destruct (modReq w0).
Qed.

End PoolFacts.

(** ** Further facts about the cloner *)

Section MoreClonerFacts.

Variable slack : nat → nat → nat.

(** A live request is live in every extension of the heap. *)
Lemma closed_req_incl (h h' : Heap) (l : loc) (v : Request) :
  closed_req h l v → h ⊑ h' → closed_req h' l v.
Proof.
  intros [Hv Hhd Hvals Hurl] [Ir Ih Ia Iu _ _]. split.
  - by eapply lookup_weaken.
  - intros m Hm. destruct (Hhd m Hm) as [e He]. exists e. by eapply lookup_weaken.
  - intros m e' k s a Hm He' Hk Hb. destruct (Hhd m Hm) as [e He].
    rewrite (lookup_weaken _ _ _ _ He Ih) in He'. injection He' as <-.
    destruct (Hvals m e k s a Hm He Hk Hb) as [arr Ha]. exists arr. by eapply lookup_weaken.
  - intros u Hu. destruct (Hurl u Hu) as [uv Huv]. exists uv. by eapply lookup_weaken.
Qed.

(** The clone is a live request with the headers and the URL of the
    original, and the original is as it was. *)
Lemma cloneRequest_closed (h : Heap) (l : loc) (v : Request) :
  closed_req h l v →
  ∃ (l2 : loc) (v2 : Request) (h' : Heap),
    cloneRequest slack (Some l) h = Some (Some l2, h') ∧
    reqs h !! l2 = None ∧ h ⊑ h' ∧
    closed_req h' l2 v2 ∧
    req_headers h' l2 = req_headers h l ∧ req_url h' l2 = req_url h l.
Proof.
  intros Hcl.
  destruct (cloneRequest_spec slack h l v Hcl)
    as (l2 & m2 & e2 & u2 & h' & Hrun & Hl2 & Hm2 & Hr & Hh & Ha & Hu & Hp & Hd
        & Hcont & Hfr & Hdis & Hurl).
  pose proof (closed_req_at _ _ _ Hcl) as Hv.
  assert (Hv2 : reqs h' !! l2 = Some (with_URL u2 (with_Header (Some m2) v))).
  { by rewrite Hr, lookup_insert_eq. }
  assert (He2 : hdrs h' !! m2 = Some e2) by (by rewrite Hh, lookup_insert_eq).
  exists l2, (with_URL u2 (with_Header (Some m2) v)), h'.
  split_and!; try done.
  - split; try done.
    + rewrite Hr. by apply insert_subseteq.
    + rewrite Hh. by apply insert_subseteq.
    + by rewrite Hp.
    + by rewrite Hd.
  - split; cbn.
    + done.
    + intros m [= <-]. by eexists.
    + intros m e k s a [= <-] He Hk Hb. rewrite He2 in He. injection He as <-.
      by eapply Hfr.
    + intros u Hu2. destruct (RURL v) as [u0|] eqn:Hu0.
      * destruct Hurl as (l3 & -> & _ & Hl3). injection Hu2 as <-.
        rewrite Hl3. by apply (closed_url _ _ _ Hcl).
      * destruct Hurl as [-> _]. done.
  - unfold req_headers. rewrite Hv2, Hv. cbn. by rewrite He2.
  - unfold req_url. rewrite Hv2, Hv. cbn. destruct (RURL v) as [u|].
    + by destruct Hurl as (l3 & -> & ? & ?).
    + by destruct Hurl as [-> _].
Qed.

(** A header set through the clone: the clone has it, next to the headers
    of the original; the original has the headers it had. *)
Lemma clone_then_set (h : Heap) (l : loc) (v : Request) (key : string) (vs : list string) :
  closed_req h l v →
  ∃ (l2 : loc) (h1 h2 : Heap),
    cloneRequest slack (Some l) h = Some (Some l2, h1) ∧
    exec_mutation slack (Some l2) (HeaderSet key vs) h1 = Some (tt, h2) ∧
    l2 ≠ l ∧
    req_headers h2 l2 = <[key:=vs]> (req_headers h l) ∧
    req_url h2 l2 = req_url h l ∧
    reqs h2 !! l = Some v ∧
    req_headers h2 l = req_headers h l ∧
    req_url h2 l = req_url h l.
Proof.
  intros Hcl.
  destruct (cloneRequest_spec slack h l v Hcl)
    as (l2 & m2 & e2 & u2 & h1 & Hrun & Hl2 & Hm2 & Hr & Hh & Ha & Hu & Hp & Hd
        & Hcont & Hfr & Hdis & Hurl).
  destruct (cloneRequest_owned slack h l v Hcl)
    as (l2' & ? & ? & ? & h1' & Hrun' & _ & _ & _ & _ & _ & _ & _ & _ & Hincl & Hown).
  rewrite Hrun in Hrun'. injection Hrun' as <- <-.
  pose proof (closed_req_at _ _ _ Hcl) as Hv.
  assert (Hv2 : reqs h1 !! l2 = Some (with_URL u2 (with_Header (Some m2) v))).
  { by rewrite Hr, lookup_insert_eq. }
  assert (He2 : hdrs h1 !! m2 = Some e2) by (by rewrite Hh, lookup_insert_eq).
  set (a := new_loc (arrs h1)).
  set (s := mkSlice (Some a) 0 (length vs) (length vs)).
  set (h2 := set_hdrs <[m2:=<[key:=s]> e2]> (set_arrs <[a:=vs]> h1)).
  assert (Hex : exec_mutation slack (Some l2) (HeaderSet key vs) h1 = Some (tt, h2)).
  { cbn. unfold hbind, load_req. rewrite Hv2. cbn. by rewrite He2. }
  destruct (exec_mutation_frame slack h h1 h2 l2 _ Hincl Hown Hex) as [Hincl2 _].
  destruct (closed_req_view h h2 l v Hcl Hincl2) as (Hvl & Hhl & Hul).
  exists l2, h1, h2. split_and!; try done.
  - intros ->. by rewrite Hv in Hl2.
  - unfold req_headers at 1. cbn. rewrite Hv2. cbn. rewrite lookup_insert_eq. cbn.
    rewrite fmap_insert. f_equal.
    + unfold elems. cbn. rewrite lookup_insert_eq. cbn. by rewrite firstn_all.
    + unfold req_headers. rewrite Hv, <- Hcont.
      apply map_fmap_ext. intros k' s' Hk'.
      apply elems_stable; [cbn; apply insert_new_loc_incl|].
      intros a' Hb. by eapply Hfr.
  - unfold req_url at 1. cbn. rewrite Hv2. cbn. unfold req_url. rewrite Hv.
    destruct (RURL v) as [u|].
    + by destruct Hurl as (l3 & -> & ? & ?).
    + by destruct Hurl as [-> _].
Qed.

(** X11.  [cloneRequest] copies only the header map and the URL; everything
    else is copied by the struct assignment, so the clone and the original
    share what those fields refer to.  In particular there is one trailer
    map for both requests: an assignment to a trailer of the clone is an
    assignment to the trailer map of the original (unlike an assignment to
    a header), and the body is the same stream. *)
Theorem cloneRequest_shares_trailer (h : Heap) (l : loc) (v : Request) :
  closed_req h l v →
  ∃ (l2 : loc) (v2 : Request) (h' : Heap),
    cloneRequest slack (Some l) h = Some (Some l2, h') ∧
    l2 ≠ l ∧ reqs h' !! l2 = Some v2 ∧ reqs h' !! l = Some v ∧
    (* the fields copied by the struct assignment alone *)
    Trailer v2 = Trailer v ∧ Body v2 = Body v ∧ Host v2 = Host v ∧
    ContentLength v2 = ContentLength v ∧ RClose v2 = RClose v ∧
    (* one trailer map for both requests *)
    ∀ t e, Trailer v = Some t → hdrs h !! t = Some e →
      Header v2 ≠ Some t ∧
      hdrs h' !! t = Some e ∧
      ∀ k s, ∃ h'',
        map_assign (Trailer v2) k s h' = Some (tt, h'') ∧
        reqs h'' !! l = Some v ∧
        hdrs h'' !! t = Some (<[k:=s]> e) ∧
        header_content h'' (Trailer v) = <[k:=elems h' s]> (header_content h' (Trailer v)).
Proof.
  intros Hcl.
  destruct (cloneRequest_owned slack h l v Hcl)
    as (l2 & m2 & e2 & u2 & h' & Hrun & Hl2 & Hm2 & Hv2 & He2 & _ & _ & _ & _ & Hincl & _).
  pose proof (closed_req_at _ _ _ Hcl) as Hv.
  pose proof (lookup_weaken _ _ _ _ Hv (incl_reqs _ _ Hincl)) as Hv'.
  exists l2, (with_URL u2 (with_Header (Some m2) v)), h'.
  split_and!; try done.
  - intros ->. by rewrite Hv in Hl2.
  - intros t e Ht He.
    pose proof (lookup_weaken _ _ _ _ He (incl_hdrs _ _ Hincl)) as He'.
    cbn [Trailer Header with_URL with_Header]. rewrite Ht. split_and!.
    + intros [= ->]. by rewrite He in Hm2.
    + done.
    + intros k s. eexists. split_and!.
      * unfold map_assign. by rewrite He'.
      * done.
      * cbn. apply lookup_insert_eq.
      * unfold header_content. cbn. rewrite lookup_insert_eq, He'. cbn.
        by rewrite fmap_insert.
Qed.

(** X18.  Cloning composes: the clone of a request can be cloned again (as an
    interceptor whose base transport is another interceptor does), and the
    result is a third request object with the headers and the URL of the
    first; the first two are left as they were. *)
Theorem cloneRequest_twice (h : Heap) (l : loc) (v : Request) :
  closed_req h l v →
  ∃ (l2 l3 : loc) (h1 h2 : Heap),
    cloneRequest slack (Some l) h = Some (Some l2, h1) ∧
    cloneRequest slack (Some l2) h1 = Some (Some l3, h2) ∧
    l2 ≠ l ∧ l3 ≠ l ∧ l3 ≠ l2 ∧
    req_headers h2 l3 = req_headers h l ∧ req_url h2 l3 = req_url h l ∧
    req_headers h2 l2 = req_headers h l ∧ req_url h2 l2 = req_url h l ∧
    req_headers h2 l = req_headers h l ∧ req_url h2 l = req_url h l.
Proof.
  intros Hcl.
  destruct (cloneRequest_closed h l v Hcl) as (l2 & v2 & h1 & Hrun1 & Hl2 & Hi1 & Hcl2 & Hh2 & Hu2).
  destruct (cloneRequest_closed h1 l2 v2 Hcl2)
    as (l3 & v3 & h2 & Hrun2 & Hl3 & Hi2 & Hcl3 & Hh3 & Hu3).
  pose proof (closed_req_at _ _ _ Hcl) as Hv.
  pose proof (closed_req_at _ _ _ Hcl2) as Hv2.
  pose proof (lookup_weaken _ _ _ _ Hv (incl_reqs _ _ Hi1)) as Hv1.
  destruct (closed_req_view h1 h2 l2 v2 Hcl2 Hi2) as (_ & Hh22 & Hu22).
  destruct (closed_req_view h h2 l v Hcl (heap_incl_trans _ _ _ Hi1 Hi2)) as (_ & Hh0 & Hu0).
  exists l2, l3, h1, h2. split_and!; try done; try congruence.
Qed.

(** X21.  [cloneRequest] changes no object that exists: every request,
    header map, array, URL, response and tracked body of the heap is there
    afterwards, as it was.  It creates one request and one header map (and
    no URL for a request without URL), and no response or tracked body. *)
Theorem cloneRequest_allocates_only (h : Heap) (l : loc) (v : Request) :
  closed_req h l v →
  ∃ (l2 m2 : loc) (h' : Heap),
    cloneRequest slack (Some l) h = Some (Some l2, h') ∧
    (* every object there was is there, unchanged *)
    h ⊑ h' ∧
    (* one new request, one new header map, no response, no tracked body *)
    reqs h !! l2 = None ∧ dom (reqs h') = {[l2]} ∪ dom (reqs h) ∧
    hdrs h !! m2 = None ∧ dom (hdrs h') = {[m2]} ∪ dom (hdrs h) ∧
    resps h' = resps h ∧ rdrs h' = rdrs h ∧
    (RURL v = None → urls h' = urls h).
Proof.
  intros Hcl.
  destruct (cloneRequest_spec slack h l v Hcl)
    as (l2 & m2 & e2 & u2 & h' & Hrun & Hl2 & Hm2 & Hr & Hh & Ha & Hu & Hp & Hd
        & Hcont & Hfr & Hdis & Hurl).
  exists l2, m2, h'. split_and!; try done.
  - split; try done.
    + rewrite Hr. by apply insert_subseteq.
    + rewrite Hh. by apply insert_subseteq.
    + by rewrite Hp.
    + by rewrite Hd.
  - rewrite Hr. apply dom_insert_L.
  - rewrite Hh. apply dom_insert_L.
  - intros Hnone. rewrite Hnone in Hurl. by destruct Hurl.
Qed.

End MoreClonerFacts.

(** ** Further facts about single runs *)

Section MoreRunFacts.

Context {X : Type}.
Variable E : Collaborators X.

Local Open Scope prog_scope.

Ltac unfold_world :=
  unfold log, set_mu, set_modReq, set_heap, set_ext, entries in *;
  cbn [heap ext mu modReq trace] in *.


(** X2.  [setModReq(orig, mod)], called with the mutex free, returns with
    the mutex free and the map allocated (a removal allocates it too).
    A lookup of [orig] then finds [mod], or nothing when [mod] is nil; the
    entries of the other requests, the heap and the world outside are as
    they were. *)
Theorem setModReq_effect (orig md : ptr) (w : World X) :
  mu w = false →
  ∃ w', run E (setModReq orig md) w = Done tt w' ∧
    entries w' !! orig = match md with Some _ => Some md | None => None end ∧
    (∀ o, o ≠ orig → entries w' !! o = entries w !! o) ∧
    is_Some (modReq w') ∧ mu w' = false ∧ heap w' = heap w ∧ ext w' = ext w.
Proof.
  intros Hmu. eexists. split; [by apply run_setModReq|].
  unfold entries at 1 2. cbn [modReq mu heap ext default].
  split_and!; try done.
  - destruct md; cbn; [apply lookup_insert_eq|apply lookup_delete_eq].
  - intros o Ho. destruct md; cbn; [by apply lookup_insert_ne|by apply lookup_delete_ne].
Qed.

Lemma entries_setModReq (orig md : ptr) (w : World X) :
  mu w = false →
  ∃ w', run E (setModReq orig md) w = Done tt w' ∧ mu w' = false ∧
    entries w' = setModReq_entries orig md (entries w).
Proof. intros Hmu. eexists. split; [by apply run_setModReq|]. done. Qed.

Lemma entries_setModReq_twice (o1 md1 o2 md2 : ptr) (w : World X) :
  mu w = false →
  entries (final (run E (setModReq o1 md1 ;; setModReq o2 md2) w)) =
  setModReq_entries o2 md2 (setModReq_entries o1 md1 (entries w)).
Proof.
  intros Hmu. rewrite run_bind.
  destruct (entries_setModReq o1 md1 w Hmu) as (w1 & -> & Hmu1 & <-).
  by destruct (entries_setModReq o2 md2 w1 Hmu1) as (w2 & -> & _ & <-).
Qed.

(** X3.  Calls of [setModReq] one after the other: recording a request and
    then removing it leaves the entries without that request (the entries
    as they were, if it was not recorded before); recording it twice keeps
    the last modified request; removing it twice is removing it once; and
    calls for different requests commute. *)
Theorem setModReq_compose (orig : ptr) (l2 l3 : loc) (w : World X) :
  mu w = false →
  let after (p : prog unit) := entries (final (run E p w)) in
  after (setModReq orig (Some l2) ;; setModReq orig None) = delete orig (entries w) ∧
  after (setModReq orig (Some l2) ;; setModReq orig (Some l3)) =
    <[orig:=Some l3]> (entries w) ∧
  after (setModReq orig None ;; setModReq orig None) = after (setModReq orig None) ∧
  (entries w !! orig = None →
   after (setModReq orig (Some l2) ;; setModReq orig None) = entries w) ∧
  ∀ o, o ≠ orig →
    after (setModReq orig (Some l2) ;; setModReq o (Some l3)) =
    after (setModReq o (Some l3) ;; setModReq orig (Some l2)).
Proof.
  intros Hmu after. subst after. cbn beta.
  rewrite !entries_setModReq_twice by done.
  destruct (entries_setModReq orig None w Hmu) as (w1 & Hr & _ & He).
  rewrite Hr. cbn [final]. rewrite He. cbn [setModReq_entries].
  split_and!.
  - apply delete_insert_eq.
  - apply insert_insert_eq.
  - apply delete_delete_eq.
  - intros Hno. rewrite delete_insert_eq. by apply delete_id.
  - intros o Ho. rewrite !entries_setModReq_twice by done. cbn [setModReq_entries].
    by apply insert_insert_ne.
Qed.

(** Only [Lock] can wait, and only while the mutex is locked. *)
Lemma blocked_facts {B} (a : action B) (w : World X) :
  handle E a w = Blocked → kind_of a = KAcquire ∧ mu w = true.
Proof.
  destruct a; cbn; try done.
  - by destruct (m (heap w)) as [[]|].
  - by destruct (mu w).
  - by destruct (mu w).
  - by destruct (modReq w).
  - by destruct (intercept E m req (heap w) (ext w)) as [[] ?].
  - by destruct (roundTrip E t req (heap w) (ext w)) as [[] [[] ?]].
  - by destruct (streamRead E s n (ext w)).
  - by destruct (streamClose E s (ext w)).
Qed.

(** A program that follows the locking discipline, run alone from a state of
    the mutex that matches what it knows: it never waits for the mutex, and
    when it ends, by return or by panic, the mutex is free. *)
Lemma run_disciplined {A} (p : prog A) (st : option bool) (w : World X) :
  disciplined st p →
  (mu w = true ↔ is_Some st) →
  (st = Some true → is_Some (modReq w)) →
  (∀ w', run E p w ≠ Deadlock w') ∧ mu (final (run E p w)) = false.
Proof.
  revert st w. induction p as [r| |B a k IH]; intros st w Hd Hmu Hnn; cbn in Hd.
  - subst st. cbn. split; [done|]. destruct (mu w); [|done].
    destruct Hmu as [Hmu _]. by destruct (Hmu eq_refl).
  - subst st. cbn. split; [done|]. destruct (mu w); [|done].
    destruct Hmu as [Hmu _]. by destruct (Hmu eq_refl).
  - destruct Hd as [Hperm Hk]. cbn [run].
    destruct (handle E a w) as [b w'|w'|] eqn:Hh.
    + pose proof (step_facts E a w w' b st Hh Hperm Hnn) as Hstep.
      apply (IH b (next a st b) w' (Hk b)).
      * destruct (kind_of a).
        -- destruct Hstep as (_ & _ & -> & _ & ->). split; [by eexists|done].
        -- destruct Hstep as (_ & -> & _ & ->). split; [done|by intros []].
        -- destruct Hstep as (Hs & -> & Hs' & _). rewrite Hmu. by split.
        -- destruct Hstep as (-> & -> & _ & ->). done.
      * destruct (kind_of a).
        -- by destruct Hstep as (_ & _ & _ & _ & ->).
        -- by destruct Hstep as (_ & _ & _ & ->).
        -- by destruct Hstep as (_ & _ & _ & ?).
        -- by destruct Hstep as (_ & _ & _ & ->).
    + destruct (crash_facts E a w w' st Hh Hperm) as [-> ->]; [by apply Hmu|done|].
      cbn. split; [done|]. destruct (mu w); [|done].
      destruct Hmu as [Hmu _]. by destruct (Hmu eq_refl).
    + exfalso. destruct (blocked_facts a w Hh) as [Hkind Hlocked].
      destruct a; try done. cbn in Hperm. subst st.
      destruct Hmu as [Hmu _]. by destruct (Hmu Hlocked).
Qed.

(** X4.  A goroutine that makes any sequence of calls of [RoundTrip],
    [CancelRequest], [Read] and [Close], started with the mutex free and
    with nothing else running: it never waits for the mutex, and when it
    ends the mutex is free, also when one of the calls panics (a nil
    modifier, a nil request, a transport that returns no response).  No
    path through the package leaves the mutex locked. *)
Theorem api_calls_release_mutex (k : RequestIntercepter) (cs : list api_call) (w : World X) :
  mu w = false →
  (∀ w', run E (goroutine E k cs) w ≠ Deadlock w') ∧
  mu (final (run E (goroutine E k cs) w)) = false.
Proof.
  intros Hmu. apply (run_disciplined _ None).
  - apply goroutine_disciplined.
  - rewrite Hmu. split; [done|by intros []].
  - done.
Qed.

(** The deferred function, whatever the request has become: it closes at
    most one stream and touches neither the mutex nor the map; it does
    nothing at all when it was not registered or the flag is set. *)
Lemma run_deferred_close_any (req : ptr) (reg b : bool) (w : World X) :
  ∃ w' evs,
    (run E (deferred_close req reg b) w = Done tt w' ∨
     run E (deferred_close req reg b) w = Panicked w') ∧
    trace w' = trace w ++ evs ∧ modReq w' = modReq w ∧ mu w' = mu w ∧ heap w' = heap w ∧
    Forall (fun ev => is_close ev = true) evs ∧ length evs ≤ 1 ∧
    (reg && negb b = false → evs = []).
Proof.
  unfold deferred_close. destruct (reg && negb b).
  2:{ exists w, []. rewrite app_nil_r. split_and!; try done; [by left|by constructor]. }
  cbn [bind act run handle].
  destruct (req_body req (heap w)) as [[body h']|] eqn:Hb.
  2:{ exists w, []. rewrite app_nil_r. split_and!; try done; [by right|by constructor]. }
  assert (h' = heap w) as ->.
  { unfold req_body, hbind, load_req, hret in Hb. destruct req as [l|]; [|done].
    destruct (reqs (heap w) !! l); cbn in Hb; [|done]. by injection Hb. }
  replace (set_heap (heap w) w) with w by (by destruct w).
  destruct body as [s|]; cbn [rc_Close bind act run handle].
  - destruct (streamClose E s (ext w)) as [x' err]. cbn.
    eexists _, [EvClose s err]. split; [by left|]. cbn.
    split_and!; try done. by repeat constructor.
  - exists w, []. rewrite app_nil_r. split_and!; try done; [by right|by constructor].
Qed.

(** [RoundTrip] when the base transport returns neither a response nor an
    error: it panics at [res.Body], after the entry was stored. *)
Lemma run_RoundTrip_no_response (k : RequestIntercepter) (m : modifier)
    (l l2 : loc) (v : Request) (w : World X) (h1 h2 : Heap) (x2 x3 : X)
    (closed : list sid) :
  reqs (heap w) !! l = Some v →
  requestModifier k = Some m →
  mu w = false →
  cloneRequest (slack E) (Some l) (heap w) = Some (Some l2, h1) →
  intercept E m (Some l2) h1 (ext w) = (h2, x2, None) →
  roundTrip E (base k) (Some l2) h2 x2 = (x3, closed, (None, None)) →
  run E (RoundTrip (slack E) k (Some l)) w =
  Panicked (mkWorld h2 x3 false (Some (<[Some l:=Some l2]> (entries w)))
              (trace w ++ dispatch_events k m (is_nil_map w) l l2 closed None None)).
Proof.
  intros Hv Hm Hmu Hclone Hint Hrt. unfold RoundTrip.
  rewrite (run_heap E _ _ w (Body v) (heap w)) by (by apply req_body_closed).
  rewrite (run_heap E _ _ _ (Some l2) h1) by done.
  rewrite Hm. cbn [bind act run handle]. unfold_world. rewrite Hint.
  rewrite run_bind, run_setModReq by done. cbn [bind act run handle heap ext].
  rewrite Hrt. cbn. unfold dispatch_events, is_nil_map. cbn [modReq].
  destruct (modReq w); unfold_world; cbn; rewrite <- ?app_assoc; cbn; done.
Qed.

(** What every run of [RoundTrip] on a live request has in common. *)
Lemma RoundTrip_summary (k : RequestIntercepter) (l : loc) (v : Request) (w : World X) :
  closed_req (heap w) l v → mu w = false →
  ∃ evs,
    trace (final (run E (RoundTrip (slack E) k (Some l)) w)) = trace w ++ evs ∧
    mu (final (run E (RoundTrip (slack E) k (Some l)) w)) = false ∧
    (∀ o, o ≠ Some l →
       entries (final (run E (RoundTrip (slack E) k (Some l)) w)) !! o = entries w !! o) ∧
    Forall (fun ev => is_foreign ev = false) evs ∧
    occurrences is_intercept evs ≤ 1 ∧
    occurrences is_round_trip evs ≤ occurrences is_intercept evs ∧
    occurrences is_close evs ≤ 1 ∧
    (Body v = None → Forall (fun ev => is_close ev = false) evs).
Proof.
  intros Hcl Hmu. pose proof (closed_req_at _ _ _ Hcl) as Hv.
  destruct (clone_of_closed E l v (heap w) Hcl) as (l2 & h1 & Hclone).
  assert (Hunsent : ∀ (pre : list event) (w0 : World X) (q : prog (ptr * option error)),
    modReq w0 = modReq w → mu w0 = false → trace w0 = trace w ++ pre →
    Forall (fun ev => is_foreign ev = false) pre →
    occurrences is_intercept pre ≤ 1 → occurrences is_round_trip pre = 0 →
    occurrences is_close pre = 0 →
    (q = Panic ∨ ∃ r, q = Ret r) →
    let o := run E (deferred_close (Some l) (bool_decide (Body v ≠ None)) false ;; q) w0 in
    ∃ evs, trace (final o) = trace w ++ evs ∧ mu (final o) = false ∧
      (∀ o', o' ≠ Some l → entries (final o) !! o' = entries w !! o') ∧
      Forall (fun ev => is_foreign ev = false) evs ∧
      occurrences is_intercept evs ≤ 1 ∧
      occurrences is_round_trip evs ≤ occurrences is_intercept evs ∧
      occurrences is_close evs ≤ 1 ∧
      (Body v = None → Forall (fun ev => is_close ev = false) evs)).
  { intros pre w0 q Hm0 Hmu0 Htr0 Hfor Hint Hrt Hclo Hq o. subst o.
    destruct (run_deferred_close_any (Some l) (bool_decide (Body v ≠ None)) false w0)
      as (w1 & evs & Hrun & Htr & Hm1 & Hmu1 & _ & Hcls & Hlen & Hnone).
    assert (Hfin : final (run E (deferred_close (Some l) (bool_decide (Body v ≠ None)) false ;; q)
                            w0) = w1).
    { rewrite run_bind. destruct Hrun as [-> | ->]; [|done].
      destruct Hq as [-> |[r ->]]; done. }
    rewrite Hfin. exists (pre ++ evs).
    assert (Hocc : ∀ f, occurrences f (pre ++ evs) = occurrences f pre + occurrences f evs).
    { intros f. apply sum_list_with_app. }
    assert (Hevs : evs = [] ∨ ∃ e, evs = [e] ∧ is_close e = true).
    { destruct evs as [|e [|e' evs]]; [by left| |cbn in Hlen; lia].
      right. exists e. split; [done|]. by apply Forall_cons in Hcls as [? _]. }
    split_and!.
    - by rewrite Htr, Htr0, app_assoc.
    - by rewrite Hmu1.
    - intros o' _. unfold entries. by rewrite Hm1, Hm0.
    - apply Forall_app. split; [done|].
      destruct Hevs as [-> |(e & -> & He)]; [constructor|].
      repeat constructor. by destruct e.
    - rewrite Hocc. destruct Hevs as [-> |(e & -> & He)]; cbn; [lia|].
      destruct e; cbn in *; try done; lia.
    - rewrite !Hocc, Hrt. destruct Hevs as [-> |(e & -> & He)]; cbn; [lia|].
      destruct e; cbn in *; try done; lia.
    - rewrite Hocc, Hclo. destruct Hevs as [-> |(e & -> & He)]; cbn; [lia|].
      destruct e; cbn in *; try done; lia.
    - intros Hb. rewrite Hb in Hnone. rewrite Hnone by done. rewrite app_nil_r.
      clear -Hclo. induction pre as [|e pre IH]; [constructor|].
      unfold occurrences in Hclo. cbn in Hclo. constructor.
      + destruct (is_close e); [lia|done].
      + apply IH. unfold occurrences. lia. }
  destruct (requestModifier k) as [m|] eqn:Hm.
  2:{ (* no modifier *)
    assert (Hrun : run E (RoundTrip (slack E) k (Some l)) w =
              run E (deferred_close (Some l) (bool_decide (Body v ≠ None)) false ;; Panic)
                (set_heap h1 w)).
    { unfold RoundTrip.
      rewrite (run_heap E _ _ w (Body v) (heap w)) by (by apply req_body_closed).
      rewrite (run_heap E _ _ _ (Some l2) h1) by done. by rewrite Hm. }
    rewrite Hrun. apply (Hunsent []); try done.
    - cbn. by rewrite app_nil_r.
    - cbn. lia.
    - by left. }
  destruct (intercept E m (Some l2) h1 (ext w)) as [[h2 x2] ierr] eqn:Hint.
  destruct ierr as [e|].
  { (* the modifier refuses *)
    assert (Hrun : run E (RoundTrip (slack E) k (Some l)) w =
              run E (deferred_close (Some l) (bool_decide (Body v ≠ None)) false ;;
                     Ret (None, Wrap (Some e) "error while intercepting request"))
                (log (EvIntercept m (Some l2) (Some e)) (set_ext x2 (set_heap h2 w)))).
    { unfold RoundTrip.
      rewrite (run_heap E _ _ w (Body v) (heap w)) by (by apply req_body_closed).
      rewrite (run_heap E _ _ _ (Some l2) h1) by done.
      rewrite Hm. cbn [bind act run handle]. unfold_world. by rewrite Hint. }
    rewrite Hrun. apply (Hunsent [EvIntercept m (Some l2) (Some e)]); try done.
    - by repeat constructor.
    - right. by eexists. }
  (* the request is sent *)
  destruct (roundTrip E (base k) (Some l2) h2 x2) as [[x3 closed] [resp err]] eqn:Hrt.
  pose proof (RoundTrip_events_after_dispatch E k m l l2 v w h1 h2 x2 x3 closed resp err
                Hv Hm Hmu Hclone Hint Hrt) as Htr.
  eexists. split; [exact Htr|].
  assert (Hstate : mu (final (run E (RoundTrip (slack E) k (Some l)) w)) = false ∧
            ∀ o, o ≠ Some l →
              entries (final (run E (RoundTrip (slack E) k (Some l)) w)) !! o = entries w !! o).
  { destruct err as [e|]; [|destruct resp as [rv|]].
    - erewrite run_RoundTrip_send_failed by done. cbn [final mu]. split; [done|].
      intros o Ho. unfold entries at 1. cbn. by apply lookup_delete_ne.
    - erewrite run_RoundTrip_response by done. cbn [final mu]. split; [done|].
      intros o Ho. unfold entries at 1. cbn. by apply lookup_insert_ne.
    - erewrite run_RoundTrip_no_response by done. cbn [final mu]. split; [done|].
      intros o Ho. unfold entries at 1. cbn. by apply lookup_insert_ne. }
  destruct Hstate as [Hmu' Hframe].
  unfold dispatch_events, setModReq_events.
  split_and!; try done.
  - destruct (is_nil_map w), err; by repeat constructor.
  - destruct (is_nil_map w), err; cbn; lia.
  - destruct (is_nil_map w), err; cbn; lia.
  - destruct (is_nil_map w), err; cbn; lia.
  - intros _. destruct (is_nil_map w), err; by repeat constructor.
Qed.

(** X5.  [NewRequestInterceptor] accepts a nil modifier, and [RoundTrip] on
    such an interceptor panics at the call of [Intercept]: after the clone
    was made and the deferred function closed the request body (if any),
    with the map and the mutex untouched, the base transport not called and
    the caller's request as it was.  [RoundTrip] on a nil request panics at
    once, before anything happened, whatever the interceptor. *)
Theorem RoundTrip_without_modifier (b : option transport) (l : loc) (v : Request)
    (w : World X) :
  closed_req (heap w) l v →
  ∃ w', run E (RoundTrip (slack E) (NewRequestInterceptor b None) (Some l)) w = Panicked w' ∧
    modReq w' = modReq w ∧ mu w' = mu w ∧
    trace w' = trace w ++ (closing E (Body v) (ext w)).2 ∧
    reqs (heap w') !! l = Some v ∧
    req_headers (heap w') l = req_headers (heap w) l ∧
    ∀ k, run E (RoundTrip (slack E) k None) w = Panicked w.
Proof.
  intros Hcl. pose proof (closed_req_at _ _ _ Hcl) as Hv.
  destruct (cloneRequest_owned (slack E) (heap w) l v Hcl)
    as (l2 & m2 & e2 & u2 & h1 & Hclone & _ & _ & _ & _ & _ & _ & _ & _ & Hincl & _).
  destruct (closed_req_view (heap w) h1 l v Hcl Hincl) as (Hv1 & Hhd & _).
  eexists. split; [by eapply run_RoundTrip_nil_modifier|].
  cbn [modReq mu trace heap]. split_and!; try done.
Qed.

(** X6.  When the base transport returns neither a response nor an error,
    [RoundTrip] panics at [res.Body]: after the entry of the request was
    stored and the transport called, with the mutex free, and without the
    entry being removed or anything being closed by [RoundTrip]; the entry
    stays in the map. *)
Theorem RoundTrip_nil_response (k : RequestIntercepter) (m : modifier)
    (l : loc) (v : Request) (w : World X) :
  closed_req (heap w) l v → requestModifier k = Some m → mu w = false →
  ∃ (l2 : loc) (h1 : Heap),
    cloneRequest (slack E) (Some l) (heap w) = Some (Some l2, h1) ∧
    ∀ h2 x2 x3 closed,
      intercept E m (Some l2) h1 (ext w) = (h2, x2, None) →
      roundTrip E (base k) (Some l2) h2 x2 = (x3, closed, (None, None)) →
      ∃ w', run E (RoundTrip (slack E) k (Some l)) w = Panicked w' ∧
        entries w' !! Some l = Some (Some l2) ∧
        mu w' = false ∧
        trace w' = trace w ++ dispatch_events k m (is_nil_map w) l l2 closed None None ∧
        deletes (Some l) (dispatch_events k m (is_nil_map w) l l2 closed None None) = 0 ∧
        Forall (fun ev => is_close ev = false)
          (dispatch_events k m (is_nil_map w) l l2 closed None None).
Proof.
  intros Hcl Hm Hmu. destruct (clone_of_closed E l v (heap w) Hcl) as (l2 & h1 & Hclone).
  pose proof (closed_req_at _ _ _ Hcl) as Hv.
  exists l2, h1. split; [done|]. intros h2 x2 x3 closed Hint Hrt.
  eexists. split; [by eapply run_RoundTrip_no_response|].
  cbn [mu trace]. split_and!; try done.
  - unfold entries. cbn. apply lookup_insert_eq.
  - unfold dispatch_events, setModReq_events. by destruct (is_nil_map w).
  - unfold dispatch_events, setModReq_events. destruct (is_nil_map w); by repeat constructor.
Qed.

(** X7.  For a request without body ([req.Body == nil]) no deferred function
    is registered: [RoundTrip] calls [Close] on nothing, however it ends
    (missing modifier, refusal of the modifier, error or response of the
    base transport) and whatever the modifier and the transport do. *)
Theorem RoundTrip_without_body (k : RequestIntercepter) (l : loc) (v : Request)
    (w : World X) :
  closed_req (heap w) l v → Body v = None → mu w = false →
  ∃ evs,
    trace (final (run E (RoundTrip (slack E) k (Some l)) w)) = trace w ++ evs ∧
    Forall (fun ev => is_close ev = false) evs.
Proof.
  intros Hcl Hb Hmu.
  destruct (RoundTrip_summary k l v w Hcl Hmu) as (evs & Htr & _ & _ & _ & _ & _ & _ & Hnone).
  exists evs. split; [done|by apply Hnone].
Qed.


(** X9.  [RoundTrip] for one request leaves the entries of all other
    requests as they were, however it ends; and so does every later use of
    a tracked body whose cleanup is the one of that request.  Requests in
    flight are tracked independently of each other. *)
Theorem RoundTrip_keeps_other_entries (k : RequestIntercepter) (l : loc) (v : Request)
    (w : World X) :
  closed_req (heap w) l v → mu w = false →
  let w1 := final (run E (RoundTrip (slack E) k (Some l)) w) in
  (∀ o, o ≠ Some l → entries w1 !! o = entries w !! o) ∧
  ∀ (rd : loc) (s : sid) (f : option closure) (us : list body_use),
    rdrs (heap w1) !! rd = Some (mkReader (Plain (Some s)) f) →
    (∀ req, f = Some (UnsetModReq req) → req = Some l) →
    ∀ o, o ≠ Some l →
      entries (final (run E (uses (Some rd) us) w1)) !! o = entries w !! o.
Proof.
  intros Hcl Hmu w1.
  destruct (RoundTrip_summary k l v w Hcl Hmu) as (evs & _ & Hmu1 & Hframe & _).
  fold w1 in Hmu1, Hframe. split; [done|].
  intros rd s f us Hrd Hf o Ho.
  destruct (uses_spec E rd s us f w1 Hrd Hmu1) as (w2 & evs2 & -> & _ & _ & _ & _ & _ & _ & Hm2).
  cbn [final]. rewrite <- (Hframe o Ho). unfold entries at 1. rewrite Hm2.
  destruct f as [[req]|]; cbn; [|done].
  destruct (triggered evs2); [|done]. cbn.
  rewrite (Hf req eq_refl). by apply lookup_delete_ne.
Qed.

(** [CancelRequest] on a transport that can cancel, run with the mutex
    free. *)
Lemma run_CancelRequest (k : RequestIntercepter) (req : ptr) (w : World X) :
  mu w = false → is_canceler E (base k) = true →
  run E (CancelRequest (is_canceler E) k req) w =
  Done tt (mkWorld (heap w)
             (cancelRequest E (base k) (default None (entries w !! req)) (ext w)) false
             (delete req <$> modReq w)
             (trace w ++ [EvLock; EvMapLoad req (default None (entries w !! req));
                          EvMapDelete req; EvUnlock;
                          EvCancel (base k) (default None (entries w !! req))])).
Proof.
  intros Hmu Hc. unfold CancelRequest. rewrite Hc.
  destruct w as [h x mm mr tr]. cbn in *. subst. unfold_world. cbn.
  by rewrite <- !app_assoc.
Qed.

(** X10.  After a [RoundTrip] that returned a response, on a transport that
    can cancel: [CancelRequest] for the original request cancels, on the
    transport that was sent the request, the modified request that was sent
    (not the original), and removes the entry.  A second [CancelRequest]
    finds no entry and forwards nil.  The cleanup of the response body still
    runs when the body is read to its end or closed, and removes nothing:
    the entries stay as the cancellation left them. *)
Theorem CancelRequest_after_RoundTrip (k : RequestIntercepter) (m : modifier)
    (l : loc) (v : Request) (w : World X) :
  closed_req (heap w) l v → requestModifier k = Some m → mu w = false →
  is_canceler E (base k) = true →
  ∃ (l2 : loc) (h1 : Heap),
    cloneRequest (slack E) (Some l) (heap w) = Some (Some l2, h1) ∧
    ∀ h2 x2 x3 closed rv,
      intercept E m (Some l2) h1 (ext w) = (h2, x2, None) →
      roundTrip E (base k) (Some l2) h2 x2 = (x3, closed, (Some rv, None)) →
      ∃ (res rd : loc) (w1 w2 w3 : World X),
        run E (RoundTrip (slack E) k (Some l)) w = Done (Some res, None) w1 ∧
        EvRoundTrip (base k) (Some l2) closed (Some res) None ∈ trace w1 ∧
        resps (heap w1) !! res = Some (mkResponse (StatusCode rv) (Tracking rd)) ∧
        (* the cancellation reaches the transport, for the request it was given *)
        run E (CancelRequest (is_canceler E) k (Some l)) w1 = Done tt w2 ∧
        trace w2 = trace w1 ++ [EvLock; EvMapLoad (Some l) (Some l2); EvMapDelete (Some l);
                                EvUnlock; EvCancel (base k) (Some l2)] ∧
        ext w2 = cancelRequest E (base k) (Some l2) x3 ∧
        entries w2 = delete (Some l) (entries w) ∧
        (* a second cancellation finds no entry and forwards nil *)
        run E (CancelRequest (is_canceler E) k (Some l)) w2 = Done tt w3 ∧
        trace w3 = trace w2 ++ [EvLock; EvMapLoad (Some l) None; EvMapDelete (Some l);
                                EvUnlock; EvCancel (base k) None] ∧
        entries w3 = entries w2 ∧
        (* the cleanup of the body still runs, and finds nothing to remove *)
        ∀ s us, RBody rv = Plain (Some s) →
          ∃ (w4 : World X) (evs : list event),
            run E (uses (Some rd) us) w2 = Done tt w4 ∧
            trace w4 = trace w2 ++ evs ∧
            calls evs = (if triggered evs then 1 else 0) ∧
            entries w4 = entries w2.
Proof.
  intros Hcl Hm Hmu Hc. destruct (clone_of_closed E l v (heap w) Hcl) as (l2 & h1 & Hclone).
  pose proof (closed_req_at _ _ _ Hcl) as Hv.
  exists l2, h1. split; [done|]. intros h2 x2 x3 closed rv Hint Hrt.
  pose proof (run_RoundTrip_response E k m l l2 v w h1 h2 x2 x3 closed rv
                Hv Hm Hmu Hclone Hint Hrt) as Hrun. cbn zeta in Hrun.
  set (res := new_loc (resps h2)) in *. set (rd := new_loc (rdrs h2)) in *.
  match type of Hrun with _ = Done _ ?ww => set (w1 := ww) in * end.
  assert (Hlook : entries w1 !! Some l = Some (Some l2)).
  { unfold entries. cbn. apply lookup_insert_eq. }
  pose proof (run_CancelRequest k (Some l) w1 eq_refl Hc) as Hrun2.
  rewrite Hlook in Hrun2. cbn [default] in Hrun2.
  match type of Hrun2 with _ = Done _ ?ww => set (w2 := ww) in * end.
  assert (Hent2 : entries w2 = delete (Some l) (entries w)).
  { unfold entries at 1. cbn. apply delete_insert_eq. }
  assert (Hgone : entries w2 !! Some l = None).
  { rewrite Hent2. apply lookup_delete_eq. }
  pose proof (run_CancelRequest k (Some l) w2 eq_refl Hc) as Hrun3.
  rewrite Hgone in Hrun3. cbn [default] in Hrun3.
  match type of Hrun3 with _ = Done _ ?ww => set (w3 := ww) in * end.
  exists res, rd, w1, w2, w3. split_and!; try done.
  - subst w1. cbn [trace]. unfold dispatch_events. set_solver.
  - subst w1. cbn. apply lookup_insert_eq.
  - unfold entries at 1. subst w3. cbn [modReq]. unfold entries at 1. cbn [modReq w2].
    cbn. rewrite delete_delete_eq. done.
  - intros s us Hb.
    destruct (uses_spec E rd s us (Some (UnsetModReq (Some l))) w2)
      as (w4 & evs & Hrun4 & Htr4 & _ & _ & _ & Hc4 & _ & Hm4).
    { subst w2 w1. cbn. rewrite lookup_insert_eq. by rewrite Hb. }
    { done. }
    exists w4, evs. split_and!; try done.
    unfold entries at 1. rewrite Hm4. cbn.
    destruct (triggered evs); [|done]. cbn. fold (entries w2).
    by apply delete_id.
Qed.

Lemma stream_events_runFunc (f : option closure) (b : bool) :
  stream_events (runFunc_events f b) = [].
Proof. destruct f as [[req]|], b; done. Qed.

Lemma stream_events_app (evs1 evs2 : list event) :
  stream_events (evs1 ++ evs2) = stream_events evs1 ++ stream_events evs2.
Proof. apply List.filter_app. Qed.

(** X12.  A tracked body is transparent to the stream it wraps: whatever
    sequence of [Read] and [Close] calls is made on the tracked body, the
    inner stream receives exactly those calls, in that order and with the
    same arguments, and the world outside ends up as if they had been made
    on the stream itself; before and after the cleanup alike. *)
Theorem tracked_body_transparent (r : loc) (v : onEOFReader) (s : sid)
    (us : list body_use) (w : World X) :
  rdrs (heap w) !! r = Some v → rc v = Plain (Some s) → mu w = false →
  ∃ (w' : World X) (evs : list event),
    run E (uses (Some r) us) w = Done tt w' ∧
    trace w' = trace w ++ evs ∧
    stream_events evs = (direct_uses E s us (ext w)).2 ∧
    ext w' = (direct_uses E s us (ext w)).1.
Proof.
  revert v w. induction us as [|u us IH]; intros v w Hr Hrc Hmu.
  { exists w, []. cbn. by rewrite app_nil_r. }
  cbn [uses direct_uses]. rewrite run_bind.
  destruct u as [n|]; cbn [use direct_use]; rewrite run_bind.
  - destruct (streamRead E s n (ext w)) as [x' res] eqn:Hrd.
    destruct (run_Read E r v s n w x' res Hr Hrc Hmu Hrd)
      as (w1 & -> & Htr1 & Hx1 & Hmu1 & Hr1).
    cbn [run].
    destruct (IH _ w1 Hr1) as (w2 & evs & -> & Htr2 & Hev & Hx2); [by case_decide|done|].
    rewrite Hx1 in Hev, Hx2.
    destruct (direct_uses E s us x') as [x'' es]. cbn [fst snd] in *.
    eexists w2, _. split_and!; [done| | |done].
    + rewrite Htr2, Htr1, <- app_assoc. done.
    + rewrite stream_events_app, Hev.
      change (stream_events (?e :: ?l)) with (e :: stream_events l).
      case_decide; [|done]. by rewrite stream_events_runFunc.
  - destruct (streamClose E s (ext w)) as [x' err] eqn:Hcl.
    destruct (run_Close E r v s w x' err Hr Hrc Hmu Hcl)
      as (w1 & -> & Htr1 & Hx1 & Hmu1 & Hr1).
    cbn [run].
    destruct (IH _ w1 Hr1) as (w2 & evs & -> & Htr2 & Hev & Hx2); [done..|].
    rewrite Hx1 in Hev, Hx2.
    destruct (direct_uses E s us x') as [x'' es]. cbn [fst snd] in *.
    eexists w2, _. split_and!; [done| | |done].
    + rewrite Htr2, Htr1, <- app_assoc. done.
    + rewrite stream_events_app, Hev.
      change (stream_events (?e :: ?l)) with (e :: stream_events l).
      by rewrite stream_events_runFunc.
Qed.

(** A tracked body around a nil stream: [Read] and [Close] panic at the
    call on the nil interface and leave everything as it was. *)
Lemma run_nil_body (r : loc) (v : onEOFReader) (w : World X) :
  rdrs (heap w) !! r = Some v → rc v = Plain None →
  (∀ n, run E (Read (Some r) n) w = Panicked w) ∧ run E (Close (Some r)) w = Panicked w.
Proof.
  intros Hr Hrc. split; [intros n; unfold Read|unfold Close];
    rewrite (run_heap E _ _ w v (heap w)) by (cbn; by rewrite Hr);
    rewrite Hrc; cbn; by destruct w.
Qed.

(** X13.  [RoundTrip] wraps the body of the response without looking at it.
    When the transport returns a response whose body is nil, [RoundTrip]
    still returns the response, with a tracked body around nil; every
    [Read] and [Close] on that body panics at the call on the inner body,
    before the cleanup, so that no use of the body removes the entry of the
    request. *)
Theorem RoundTrip_response_without_body (k : RequestIntercepter) (m : modifier)
    (l : loc) (v : Request) (w : World X) :
  closed_req (heap w) l v → requestModifier k = Some m → mu w = false →
  ∃ (l2 : loc) (h1 : Heap),
    cloneRequest (slack E) (Some l) (heap w) = Some (Some l2, h1) ∧
    ∀ h2 x2 x3 closed rv,
      intercept E m (Some l2) h1 (ext w) = (h2, x2, None) →
      roundTrip E (base k) (Some l2) h2 x2 = (x3, closed, (Some rv, None)) →
      RBody rv = Plain None →
      ∃ (res rd : loc) (w1 : World X),
        run E (RoundTrip (slack E) k (Some l)) w = Done (Some res, None) w1 ∧
        resps (heap w1) !! res = Some (mkResponse (StatusCode rv) (Tracking rd)) ∧
        rdrs (heap w1) !! rd = Some (mkReader (Plain None) (Some (UnsetModReq (Some l)))) ∧
        entries w1 !! Some l = Some (Some l2) ∧
        (∀ n, run E (Read (Some rd) n) w1 = Panicked w1) ∧
        run E (Close (Some rd)) w1 = Panicked w1 ∧
        ∀ us, entries (final (run E (uses (Some rd) us) w1)) !! Some l = Some (Some l2).
Proof.
  intros Hcl Hm Hmu. destruct (clone_of_closed E l v (heap w) Hcl) as (l2 & h1 & Hclone).
  pose proof (closed_req_at _ _ _ Hcl) as Hv.
  exists l2, h1. split; [done|]. intros h2 x2 x3 closed rv Hint Hrt Hb.
  pose proof (run_RoundTrip_response E k m l l2 v w h1 h2 x2 x3 closed rv
                Hv Hm Hmu Hclone Hint Hrt) as Hrun. cbn zeta in Hrun. rewrite Hb in Hrun.
  set (res := new_loc (resps h2)) in *. set (rd := new_loc (rdrs h2)) in *.
  match type of Hrun with _ = Done _ ?ww => set (w1 := ww) in * end.
  assert (Hrd : rdrs (heap w1) !! rd = Some (mkReader (Plain None) (Some (UnsetModReq (Some l))))).
  { subst w1. cbn. apply lookup_insert_eq. }
  assert (Hent : entries w1 !! Some l = Some (Some l2)).
  { unfold entries. cbn. apply lookup_insert_eq. }
  destruct (run_nil_body rd _ w1 Hrd eq_refl) as [Hread Hclose].
  exists res, rd, w1. split_and!; try done.
  - subst w1. cbn. apply lookup_insert_eq.
  - intros [|[n|] us]; [done|..]; cbn [uses use]; rewrite !run_bind.
    + by rewrite Hread.
    + by rewrite Hclose.
Qed.

(** X19.  The use the package is made for, as in its test: with a modifier
    that sets one header on the request it is handed, the base transport is
    called with a request, other than the caller's, that has that header
    next to the headers of the caller's request, and the same URL; the
    caller's request has, then and when [RoundTrip] is over, the headers
    and the URL it had. *)
Theorem intercepted_header_reaches_transport (k : RequestIntercepter) (m : modifier)
    (key : string) (vs : list string) (l : loc) (v : Request) (w : World X) :
  closed_req (heap w) l v → requestModifier k = Some m → mu w = false →
  (∀ req h x,
     intercept E m req h x =
     match exec_mutation (slack E) req (HeaderSet key vs) h with
     | Some (_, h') => (h', x, None)
     | None => (h, x, Some (Err "no header map"))
     end) →
  ∃ (l2 : loc) (h2 : Heap),
    l2 ≠ l ∧
    req_headers h2 l2 = <[key:=vs]> (req_headers (heap w) l) ∧
    req_url h2 l2 = req_url (heap w) l ∧
    req_headers h2 l = req_headers (heap w) l ∧
    ∀ x3 closed resp err,
      roundTrip E (base k) (Some l2) h2 (ext w) = (x3, closed, (resp, err)) →
      let w' := final (run E (RoundTrip (slack E) k (Some l)) w) in
      EvIntercept m (Some l2) None ∈ trace w' ∧
      EvRoundTrip (base k) (Some l2) closed (deliver resp h2).1 err ∈ trace w' ∧
      req_headers (heap w') l2 = <[key:=vs]> (req_headers (heap w) l) ∧
      req_headers (heap w') l = req_headers (heap w) l ∧
      req_url (heap w') l = req_url (heap w) l.
Proof.
  intros Hcl Hm Hmu Hmod.
  destruct (clone_then_set (slack E) (heap w) l v key vs Hcl)
    as (l2 & h1 & h2 & Hclone & Hex & Hne & Hh2 & Hu2 & Hvl & Hhl & Hul).
  pose proof (closed_req_at _ _ _ Hcl) as Hv.
  assert (Hint : intercept E m (Some l2) h1 (ext w) = (h2, ext w, None)).
  { by rewrite Hmod, Hex. }
  exists l2, h2. split_and!; try done.
  intros x3 closed resp err Hrt w'.
  pose proof (RoundTrip_events_after_dispatch E k m l l2 v w h1 h2 _ x3 closed resp err
                Hv Hm Hmu Hclone Hint Hrt) as Htr.
  destruct (RoundTrip_heap_after_intercept E k m l l2 v w h1 h2 _ None
              Hv Hm Hmu Hclone Hint Hvl) as (Hr & Hh & Ha & Hu).
  fold w' in Htr, Hr, Hh, Ha, Hu.
  destruct (views_of_requests h2 (heap w') l Hr Hh Ha Hu) as [Hhl' Hul'].
  destruct (views_of_requests h2 (heap w') l2 Hr Hh Ha Hu) as [Hh2' _].
  split_and!.
  - rewrite Htr. unfold dispatch_events. set_solver.
  - rewrite Htr. unfold dispatch_events. set_solver.
  - by rewrite Hh2'.
  - by rewrite Hhl'.
  - by rewrite Hul'.
Qed.

(** X22.  [RoundTrip] keeps the contract of [http.RoundTripper] towards its
    caller.  On an interceptor with a modifier, for a live request, when
    the modifier leaves the caller's request object alone and the base
    transport returns a response or an error: [RoundTrip] returns (it does
    not panic), with the mutex free; it returns a nil response exactly when
    it returns an error (a response that the transport returned together
    with an error is dropped); and a response it returns is a live
    object. *)
Theorem RoundTrip_returns (k : RequestIntercepter) (m : modifier)
    (l : loc) (v : Request) (w : World X) :
  closed_req (heap w) l v → requestModifier k = Some m → mu w = false →
  ∃ (l2 : loc) (h1 : Heap),
    cloneRequest (slack E) (Some l) (heap w) = Some (Some l2, h1) ∧
    ∀ h2 x2 ierr,
      intercept E m (Some l2) h1 (ext w) = (h2, x2, ierr) →
      reqs h2 !! l = Some v →
      (∀ x3 closed, roundTrip E (base k) (Some l2) h2 x2 ≠ (x3, closed, (None, None))) →
      ∃ (res : ptr) (err : option error) (w' : World X),
        run E (RoundTrip (slack E) k (Some l)) w = Done (res, err) w' ∧
        (res = None ↔ is_Some err) ∧
        (∀ r, res = Some r → is_Some (resps (heap w') !! r)) ∧
        mu w' = false.
Proof.
  intros Hcl Hm Hmu. destruct (clone_of_closed E l v (heap w) Hcl) as (l2 & h1 & Hclone).
  pose proof (closed_req_at _ _ _ Hcl) as Hv.
  exists l2, h1. split; [done|]. intros h2 x2 ierr Hint Hv2 Hcontract.
  destruct ierr as [e|].
  { eexists _, _, _. split; [by eapply run_RoundTrip_refused|]. cbn [mu].
    split_and!; [|done..]. split; [by eexists|done]. }
  destruct (roundTrip E (base k) (Some l2) h2 x2) as [[x3 closed] [resp err]] eqn:Hrt.
  destruct err as [e|]; [|destruct resp as [rv|]].
  - eexists _, _, _. split; [by eapply run_RoundTrip_send_failed|]. cbn [mu].
    split_and!; [|done..]. split; [by eexists|done].
  - eexists _, _, _. split; [by eapply run_RoundTrip_response|]. cbn [mu heap resps].
    split_and!; [| |done].
    + split; [done|]. by intros [? [=]].
    + intros r [= <-]. rewrite lookup_insert_eq. by eexists.
  - by destruct (Hcontract x3 closed).
Qed.

End MoreRunFacts.

(** ** Further facts about goroutines running together *)

Section MorePoolFacts.

Context {X : Type}.
Variable E : Collaborators X.

Local Open Scope prog_scope.

(** An action that panics leaves the world as it was. *)
Lemma crash_same {B} (a : action B) (w w' : World X) :
  handle E a w = Crash w' → w' = w.
Proof.
  destruct a; cbn; try done.
  - destruct (m (heap w)) as [[]|]; by intros [=].
  - by destruct (mu w).
  - destruct (mu w); by intros [=].
  - destruct (modReq w); by intros [=].
  - by destruct (intercept E m req (heap w) (ext w)) as [[] ?].
  - by destruct (roundTrip E t req (heap w) (ext w)) as [[] [[] ?]].
  - by destruct (streamRead E s n (ext w)).
  - by destruct (streamClose E s (ext w)).
Qed.

(** *** No request is ever bound to nil *)

Lemma careful_bind {A B} (p : prog A) (f : A → prog B) :
  careful p → (∀ a, careful (f a)) → careful (bind p f).
Proof.
  induction p as [a| |C a k IH]; intros Hp Hf; cbn in *; [done..|].
  destruct Hp as [Ha Hk]. split; [done|]. intros b. by apply IH.
Qed.

Lemma setModReq_careful (orig md : ptr) : careful (setModReq orig md).
Proof.
  unfold setModReq. cbn. split; [done|]. intros _. split; [done|]. intros isnil.
  destruct isnil, md; cbn; repeat split; done.
Qed.

Lemma runFunc_careful (r : ptr) : careful (runFunc r).
Proof.
  unfold runFunc. apply careful_bind; [by repeat split|]. intros v.
  destruct (fn v) as [[req]|]; [|done]. unfold call.
  apply careful_bind; [|by repeat split].
  apply careful_bind; [by repeat split|]. intros _. apply setModReq_careful.
Qed.

Lemma rc_Read_careful (b : rbody) (n : nat) : careful (rc_Read b n).
Proof. destruct b as [[s|]|r]; by repeat split. Qed.

Lemma rc_Close_careful (b : rbody) : careful (rc_Close b).
Proof. destruct b as [[s|]|r]; by repeat split. Qed.

Lemma Read_careful (r : ptr) (n : nat) : careful (Read r n).
Proof.
  unfold Read. apply careful_bind; [by repeat split|]. intros v.
  apply careful_bind; [apply rc_Read_careful|]. intros res.
  case_decide; [|done]. apply careful_bind; [apply runFunc_careful|done].
Qed.

Lemma Close_careful (r : ptr) : careful (Close r).
Proof.
  unfold Close. apply careful_bind; [by repeat split|]. intros v.
  apply careful_bind; [apply rc_Close_careful|]. intros err.
  apply careful_bind; [apply runFunc_careful|done].
Qed.

Lemma deferred_close_careful (req : ptr) (registered b : bool) :
  careful (deferred_close req registered b).
Proof.
  unfold deferred_close. destruct (registered && negb b); [|done].
  apply careful_bind; [by repeat split|]. intros body.
  apply careful_bind; [apply rc_Close_careful|done].
Qed.

Lemma RoundTrip_careful (k : RequestIntercepter) (req : ptr) :
  careful (RoundTrip (slack E) k req).
Proof.
  unfold RoundTrip. apply careful_bind; [by repeat split|]. intros body.
  apply careful_bind; [by repeat split|]. intros req2.
  destruct (requestModifier k) as [m|].
  2:{ apply careful_bind; [apply deferred_close_careful|done]. }
  apply careful_bind; [by repeat split|]. intros [e|].
  { apply careful_bind; [apply deferred_close_careful|done]. }
  apply careful_bind; [apply setModReq_careful|]. intros _.
  apply careful_bind; [by repeat split|]. intros [res [e|]].
  { apply careful_bind; [apply setModReq_careful|]. intros _.
    apply careful_bind; [apply deferred_close_careful|done]. }
  apply careful_bind; [by repeat split|]. intros b.
  apply careful_bind; [by repeat split|]. intros r.
  apply careful_bind; [by repeat split|]. intros _.
  apply careful_bind; [apply deferred_close_careful|done].
Qed.

Lemma CancelRequest_careful (k : RequestIntercepter) (req : ptr) :
  careful (CancelRequest (is_canceler E) k req).
Proof. unfold CancelRequest. destruct (is_canceler E (base k)); by repeat split. Qed.

Lemma goroutine_careful (k : RequestIntercepter) (cs : list api_call) :
  careful (goroutine E k cs).
Proof.
  induction cs as [|c cs IH]; [done|]. cbn [goroutine].
  apply careful_bind; [|by intros _].
  destruct c as [req|req|r n|r]; cbn [perform].
  - apply careful_bind; [apply RoundTrip_careful|done].
  - apply CancelRequest_careful.
  - apply careful_bind; [apply Read_careful|done].
  - apply careful_bind; [apply Close_careful|done].
Qed.

Lemma step_no_nil {B} (a : action B) (w w' : World X) (b : B) :
  handle E a w = Next b w' → stores_request a →
  no_nil_entry (entries w) → no_nil_entry (entries w').
Proof.
  unfold entries. intros Hh Ha Hw. destruct a; cbn in *.
  - destruct (m (heap w)) as [[]|]; by simplify_eq.
  - destruct (mu w); by simplify_eq.
  - destruct (mu w); by simplify_eq.
  - by simplify_eq.
  - simplify_eq. cbn. apply map_Forall_empty.
  - by simplify_eq.
  - destruct (modReq w) as [mm|]; simplify_eq. cbn in *. by apply map_Forall_insert_2.
  - simplify_eq. cbn. destruct (modReq w) as [mm|]; cbn in *; [|done].
    by apply map_Forall_delete.
  - destruct (intercept E m req (heap w) (ext w)) as [[] ?]. by simplify_eq.
  - destruct (roundTrip E t req (heap w) (ext w)) as [[] [[] ?]]; cbn in *; by simplify_eq.
  - by simplify_eq.
  - destruct (streamRead E s n (ext w)). by simplify_eq.
  - destruct (streamClose E s (ext w)). by simplify_eq.
  - by simplify_eq.
Qed.

Lemma sched_no_nil (i : nat) (c : Pool X) :
  (∀ j t, threads c !! j = Some t → thread_careful t) →
  no_nil_entry (entries (world c)) →
  (∀ j t, threads (sched E i c) !! j = Some t → thread_careful t) ∧
  no_nil_entry (entries (world (sched E i c))).
Proof.
  intros Hth Hw. unfold sched.
  destruct (threads c !! i) as [[A p]|] eqn:Hi; [|done].
  destruct p as [r| |B a k]; [done..|].
  destruct (Hth i _ Hi) as [Ha Hk].
  destruct (handle E a (world c)) as [b w'|w'|] eqn:Hh; [| |done]; cbn.
  - split; [|by eapply step_no_nil].
    intros j t [(<- & <- & _)|[Hne Hj]]%list_lookup_insert_Some; [apply Hk|by eapply Hth].
  - rewrite (crash_same a _ _ Hh). split; [|done].
    intros j t [(<- & <- & _)|[Hne Hj]]%list_lookup_insert_Some; [done|by eapply Hth].
Qed.

Lemma interleave_no_nil (schedule : list nat) (c : Pool X) :
  (∀ j t, threads c !! j = Some t → thread_careful t) →
  no_nil_entry (entries (world c)) →
  no_nil_entry (entries (world (interleave E schedule c))).
Proof.
  revert c. induction schedule as [|i schedule IH]; intros c Hth Hw; [done|].
  cbn. destruct (sched_no_nil i c Hth Hw). by apply IH.
Qed.

(** X14.  Goroutines that call [RoundTrip], [CancelRequest] and the [Read]
    and [Close] of tracked bodies, interleaved in any way: the tracking map
    never binds a request to nil ([setModReq] turns the store of a nil into
    a removal).  So a lookup yields nil exactly for the requests that have
    no entry, which is what [CancelRequest] forwards. *)
Theorem tracking_map_binds_no_nil (k : RequestIntercepter) (css : list (list api_call))
    (schedule : list nat) (w : World X) :
  no_nil_entry (entries w) →
  let c := interleave E schedule
             (mkPool w None ((fun cs => Thread (goroutine E k cs)) <$> css)) in
  no_nil_entry (entries (world c)) ∧
  ∀ req, default None (entries (world c) !! req) = None ↔ entries (world c) !! req = None.
Proof.
  intros Hw c.
  assert (Hnil : no_nil_entry (entries (world c))).
  { apply interleave_no_nil; [|done]. cbn.
    intros j t Hj. apply list_lookup_fmap_Some in Hj as (cs & -> & _).
    apply goroutine_careful. }
  split; [done|].
  intros req. destruct (entries (world c) !! req) as [md|] eqn:Hreq; [|done].
  cbn. split; [|done]. intros ->. by destruct (Hnil _ _ Hreq).
Qed.

(** *** Progress *)

(** The goroutine that owns the mutex has a step to make. *)
Lemma owner_pending (c : Pool X) (i : nat) {A} (p : prog A) :
  pool_inv c → owner c = Some i → threads c !! i = Some (Thread p) →
  ∃ B (a : action B) (k : B → prog A), p = Vis a k.
Proof.
  intros [Hmu Hth] Hown Hi. specialize (Hth i _ Hi).
  rewrite decide_True in Hth by done.
  destruct Hth as (st & [nn ->] & Hd & Hnn).
  destruct p as [r| |B a k]; cbn in Hd; [done..|]. by exists B, a, k.
Qed.

(** That step is an operation on the map or the unlock, and it can be made
    now: the owner neither waits nor panics. *)
Lemma owner_steps (c : Pool X) (i : nat) {A B} (a : action B) (k : B → prog A) :
  pool_inv c → owner c = Some i → threads c !! i = Some (Thread (Vis a k)) →
  (∃ (b : B) (w' : World X), handle E a (world c) = Next b w') ∧
  (kind_of a = KMap ∨ kind_of a = KRelease).
Proof.
  intros [Hmu Hth] Hown Hi. specialize (Hth i _ Hi).
  rewrite decide_True in Hth by done.
  destruct Hth as (st & [nn ->] & [Hperm Hk] & Hnn).
  assert (Hlocked : mu (world c) = true) by (apply Hmu; by rewrite Hown).
  split.
  - destruct (handle E a (world c)) as [b w'|w'|] eqn:Hh.
    + by exists b, w'.
    + by destruct (crash_facts E a _ _ (Some nn) Hh Hperm).
    + destruct (blocked_facts E a _ Hh) as [Hkind _]. by destruct a.
  - destruct a; cbn in *; try done; auto.
Qed.

Lemma within_bind {A B} (p : prog A) (f : A → prog B) (n : nat) :
  within p n → within (bind p f) n.
Proof.
  revert n. induction p as [a| |C a k IH]; intros n Hp; cbn in *; [done..|].
  destruct (kind_of a), n; try done; intros b; by apply IH.
Qed.

Lemma brief_bind {A B} (p : prog A) (f : A → prog B) :
  brief p → (∀ a, brief (f a)) → brief (bind p f).
Proof.
  induction p as [a| |C a k IH]; intros Hp Hf; cbn in *; [done..|].
  destruct Hp as [Ha Hk]. split.
  - intros Hkind b. by apply within_bind, Ha.
  - intros b. by apply IH.
Qed.

Ltac brevity :=
  cbn;
  repeat match goal with
         | |- _ ∧ _ => split
         | |- ∀ _, _ => intros ?
         | |- _ → _ => intros ?
         | H : _ = KAcquire |- _ => discriminate H
         | |- True => exact I
         | b : bool |- _ => destruct b; cbn
         | m : ptr |- context [match ?m with _ => _ end] => destruct m; cbn
         end.

Lemma setModReq_brief (orig md : ptr) : brief (setModReq orig md).
Proof. unfold setModReq. brevity. Qed.

Lemma runFunc_brief (r : ptr) : brief (runFunc r).
Proof.
  unfold runFunc. apply brief_bind; [by brevity|]. intros v.
  destruct (fn v) as [[req]|]; [|done]. unfold call.
  apply brief_bind; [|by brevity].
  apply brief_bind; [by brevity|]. intros _. apply setModReq_brief.
Qed.

Lemma rc_Read_brief (b : rbody) (n : nat) : brief (rc_Read b n).
Proof. destruct b as [[s|]|r]; by brevity. Qed.

Lemma rc_Close_brief (b : rbody) : brief (rc_Close b).
Proof. destruct b as [[s|]|r]; by brevity. Qed.

Lemma Read_brief (r : ptr) (n : nat) : brief (Read r n).
Proof.
  unfold Read. apply brief_bind; [by brevity|]. intros v.
  apply brief_bind; [apply rc_Read_brief|]. intros res.
  case_decide; [|done]. apply brief_bind; [apply runFunc_brief|done].
Qed.

Lemma Close_brief (r : ptr) : brief (Close r).
Proof.
  unfold Close. apply brief_bind; [by brevity|]. intros v.
  apply brief_bind; [apply rc_Close_brief|]. intros err.
  apply brief_bind; [apply runFunc_brief|done].
Qed.

Lemma deferred_close_brief (req : ptr) (registered b : bool) :
  brief (deferred_close req registered b).
Proof.
  unfold deferred_close. destruct (registered && negb b); [|done].
  apply brief_bind; [by brevity|]. intros body.
  apply brief_bind; [apply rc_Close_brief|done].
Qed.

Lemma RoundTrip_brief (k : RequestIntercepter) (req : ptr) :
  brief (RoundTrip (slack E) k req).
Proof.
  unfold RoundTrip. apply brief_bind; [by brevity|]. intros body.
  apply brief_bind; [by brevity|]. intros req2.
  destruct (requestModifier k) as [m|].
  2:{ apply brief_bind; [apply deferred_close_brief|done]. }
  apply brief_bind; [by brevity|]. intros [e|].
  { apply brief_bind; [apply deferred_close_brief|done]. }
  apply brief_bind; [apply setModReq_brief|]. intros _.
  apply brief_bind; [by brevity|]. intros [res [e|]].
  { apply brief_bind; [apply setModReq_brief|]. intros _.
    apply brief_bind; [apply deferred_close_brief|done]. }
  apply brief_bind; [by brevity|]. intros b.
  apply brief_bind; [by brevity|]. intros r.
  apply brief_bind; [by brevity|]. intros _.
  apply brief_bind; [apply deferred_close_brief|done].
Qed.

Lemma CancelRequest_brief (k : RequestIntercepter) (req : ptr) :
  brief (CancelRequest (is_canceler E) k req).
Proof. unfold CancelRequest. destruct (is_canceler E (base k)); by brevity. Qed.

Lemma goroutine_brief (k : RequestIntercepter) (cs : list api_call) :
  brief (goroutine E k cs).
Proof.
  induction cs as [|c cs IH]; [done|]. cbn [goroutine].
  apply brief_bind; [|by intros _].
  destruct c as [req|req|r n|r]; cbn [perform].
  - apply brief_bind; [apply RoundTrip_brief|done].
  - apply CancelRequest_brief.
  - apply brief_bind; [apply Read_brief|done].
  - apply brief_bind; [apply Close_brief|done].
Qed.

Lemma sched_live (i : nat) (c : Pool X) :
  pool_inv c → pool_live c → pool_live (sched E i c).
Proof.
  intros Hinv (Hown & Hbrief & Hwithin). unfold sched.
  destruct (threads c !! i) as [[A p]|] eqn:Hi; [|done].
  destruct p as [r| |B a k]; [done..|].
  pose proof (lookup_lt_Some _ _ _ Hi) as Hlt.
  destruct (Hbrief i _ Hi) as [Hacq Hk].
  destruct (handle E a (world c)) as [b w'|w'|] eqn:Hh; [| |done]; split_and!; cbn.
  - intros j Hj. apply lookup_lt_is_Some. rewrite length_insert.
    destruct (kind_of a); cbn in Hj; simplify_eq; try done;
      by apply lookup_lt_is_Some, Hown.
  - intros j t [(<- & <- & _)|[Hne Hj]]%list_lookup_insert_Some; [apply Hk|by eapply Hbrief].
  - intros j t Hj [(<- & <- & _)|[Hne Ht]]%list_lookup_insert_Some.
    + destruct (kind_of a) eqn:Hkind; cbn in Hj.
      * exists 4. split; [done|]. by apply Hacq.
      * done.
      * destruct (Hwithin i _ Hj Hi) as (n & Hn & Hw). cbn in Hw. rewrite Hkind in Hw.
        destruct n as [|n]; [done|]. exists n. split; [lia|apply Hw].
      * destruct (Hwithin i _ Hj Hi) as (n & Hn & Hw). cbn in Hw. rewrite Hkind in Hw.
        destruct n as [|n]; [done|]. exists n. split; [lia|apply Hw].
    + destruct (kind_of a); cbn in Hj; simplify_eq; by eapply Hwithin.
  - intros j Hj. apply lookup_lt_is_Some. rewrite length_insert.
    by apply lookup_lt_is_Some, Hown.
  - intros j t [(<- & <- & _)|[Hne Hj]]%list_lookup_insert_Some; [done|by eapply Hbrief].
  - intros j t Hj [(<- & <- & _)|[Hne Ht]]%list_lookup_insert_Some; [|by eapply Hwithin].
    destruct (owner_steps c i a k Hinv Hj Hi) as [(b & w'' & Hnext) _]. congruence.
Qed.

Lemma interleave_live (schedule : list nat) (c : Pool X) :
  pool_inv c → pool_live c →
  pool_inv (interleave E schedule c) ∧ pool_live (interleave E schedule c).
Proof.
  revert c. induction schedule as [|i schedule IH]; intros c Hinv Hlive; [done|].
  cbn. apply IH; [by apply sched_inv|by apply sched_live].
Qed.

Lemma goroutines_start (k : RequestIntercepter) (css : list (list api_call)) (w : World X) :
  mu w = false →
  pool_inv (mkPool w None ((fun cs => Thread (goroutine E k cs)) <$> css)) ∧
  pool_live (mkPool w None ((fun cs => Thread (goroutine E k cs)) <$> css)).
Proof.
  intros Hmu. split; [split|split_and!]; cbn.
  - rewrite Hmu. split; [done|]. by intros [].
  - intros i t Hi. apply list_lookup_fmap_Some in Hi as (cs & -> & _).
    cbn. apply goroutine_disciplined.
  - done.
  - intros i t Hi. apply list_lookup_fmap_Some in Hi as (cs & -> & _).
    apply goroutine_brief.
  - done.
Qed.

Lemma owner_can_step (c : Pool X) (i : nat) :
  pool_inv c → pool_live c → owner c = Some i → can_step E c i = true.
Proof.
  intros Hinv (Hown & _) Hi. destruct (Hown i Hi) as [[A p] Ht].
  destruct (owner_pending c i p Hinv Hi Ht) as (B & a & k & ->).
  destruct (owner_steps c i a k Hinv Hi Ht) as [(b & w' & Hh) _].
  unfold can_step. by rewrite Ht, Hh.
Qed.

(** X15.  The package cannot deadlock on its mutex.  In every state that
    interleaved calls of [RoundTrip], [CancelRequest], [Read] and [Close]
    can reach: the goroutine that owns the mutex has a step to make and can
    make it (it neither waits nor panics while it holds the mutex); a
    goroutine that waits, waits for the mutex, which another goroutine owns
    and that one can step; and nobody waits while the mutex is free. *)
Theorem pool_never_stuck (k : RequestIntercepter) (css : list (list api_call))
    (schedule : list nat) (w : World X) :
  mu w = false →
  let c := interleave E schedule
             (mkPool w None ((fun cs => Thread (goroutine E k cs)) <$> css)) in
  (∀ i, owner c = Some i → can_step E c i = true) ∧
  (∀ i, waits E c i = true → ∃ j, j ≠ i ∧ owner c = Some j ∧ can_step E c j = true) ∧
  (mu (world c) = false → ∀ i, waits E c i = false).
Proof.
  intros Hmu c.
  destruct (goroutines_start k css w Hmu) as [Hinv0 Hlive0].
  destruct (interleave_live schedule _ Hinv0 Hlive0) as [Hinv Hlive]. fold c in Hinv, Hlive.
  assert (Hwait : ∀ i, waits E c i = true → mu (world c) = true ∧ can_step E c i = false).
  { intros i. unfold waits, can_step.
    destruct (threads c !! i) as [[A [r| |B a k']]|]; try done.
    destruct (handle E a (world c)) eqn:Hh; try done.
    intros _. by destruct (blocked_facts E a _ Hh). }
  split_and!.
  - intros i Hi. by apply owner_can_step.
  - intros i Hi. destruct (Hwait i Hi) as [Hlocked Hstuck].
    destruct (proj1 (proj1 Hinv) Hlocked) as [j Hj].
    exists j. split_and!; [|done|by apply owner_can_step].
    intros ->. by rewrite owner_can_step in Hstuck.
  - intros Hfree i. destruct (waits E c i) eqn:Hi; [|done].
    destruct (Hwait i Hi) as [Hlocked _]. congruence.
Qed.

Lemma sched_step (c : Pool X) (i : nat) {A B} (a : action B) (k : B → prog A)
    (b : B) (w' : World X) :
  threads c !! i = Some (Thread (Vis a k)) → handle E a (world c) = Next b w' →
  sched E i c = mkPool w' (next_owner i (kind_of a) (owner c))
                  (<[i:=Thread (k b)]> (threads c)).
Proof. intros Hi Hh. unfold sched. by rewrite Hi, Hh. Qed.

(** The owner, scheduled alone, has released the mutex after at most as many
    steps as it is from its [Unlock]. *)
Lemma release_within (n : nat) (c : Pool X) (i : nat) (t : thread) :
  pool_inv c → owner c = Some i → threads c !! i = Some t → thread_within t n →
  ∃ n', 0 < n' ≤ n ∧ owner (interleave E (replicate n' i) c) = None.
Proof.
  revert c t. induction n as [|n IH]; intros c [A p] Hinv Hown Hi Hw.
  { destruct p as [r| |B a k]; cbn in Hw; [done..|]. by destruct (kind_of a). }
  destruct (owner_pending c i p Hinv Hown Hi) as (B & a & k & ->).
  destruct (owner_steps c i a k Hinv Hown Hi) as [(b & w' & Hh) Hkind].
  pose proof (sched_step c i a k b w' Hi Hh) as Hsched.
  destruct Hkind as [Hkind|Hkind]; rewrite Hkind in Hsched; cbn [next_owner] in Hsched.
  - cbn in Hw. rewrite Hkind in Hw.
    destruct (IH (sched E i c) (Thread (k b))) as (n' & Hn' & Hrel).
    + by apply sched_inv.
    + by rewrite Hsched.
    + rewrite Hsched. cbn. apply list_lookup_insert_eq. by eapply lookup_lt_Some.
    + apply Hw.
    + exists (S n'). split; [lia|]. done.
  - exists 1. split; [lia|]. cbn. by rewrite Hsched.
Qed.

(** X16.  Critical sections are short.  In every state that interleaved
    calls of [RoundTrip], [CancelRequest], [Read] and [Close] can reach, the
    goroutine that owns the mutex is at most four of its own steps from its
    [Unlock] (the nil test, the allocation, the store or removal and the
    [Unlock] of [setModReq]; the lookup, the removal and the [Unlock] of
    [CancelRequest]): scheduled alone from there, it has released the mutex
    after at most four steps. *)
Theorem critical_section_bounded (k : RequestIntercepter) (css : list (list api_call))
    (schedule : list nat) (w : World X) :
  mu w = false →
  let c := interleave E schedule
             (mkPool w None ((fun cs => Thread (goroutine E k cs)) <$> css)) in
  ∀ i, owner c = Some i →
    ∃ n, 0 < n ≤ 4 ∧
      owner (interleave E (replicate n i) c) = None ∧
      mu (world (interleave E (replicate n i) c)) = false.
Proof.
  intros Hmu c i Hi.
  destruct (goroutines_start k css w Hmu) as [Hinv0 Hlive0].
  destruct (interleave_live schedule _ Hinv0 Hlive0) as [Hinv Hlive]. fold c in Hinv, Hlive.
  destruct Hlive as (Hown & _ & Hwithin).
  destruct (Hown i Hi) as [t Ht]. destruct (Hwithin i t Hi Ht) as (n0 & Hn0 & Hw).
  destruct (release_within n0 c i t Hinv Hi Ht Hw) as (n & Hn & Hrel).
  exists n. split_and!; [lia..|done|].
  pose proof (interleave_inv E (replicate n i) c Hinv) as [Hiff _].
  rewrite Hrel in Hiff. destruct (mu (world (interleave E (replicate n i) c))); [|done].
  by destruct (proj1 Hiff eq_refl).
Qed.

End MorePoolFacts.

(** ** Where cancelled requests come from *)

Section ProvenanceFacts.

Context {X : Type}.
Variable E : Collaborators X.
Variable k : RequestIntercepter.

Local Open Scope prog_scope.

Lemma provenance_mono {A} (p : prog A) (L L' Acc Acc' : list ptr) :
  L ⊆ L' → Acc ⊆ Acc' → provenance k L Acc p → provenance k L' Acc' p.
Proof.
  revert L L' Acc Acc'. induction p as [a| |B a k' IH]; intros L L' Acc Acc' HL HA Hp;
    cbn in *; [done..|].
  destruct Hp as [Hv Hk]. split.
  - destruct a; cbn in *; try done.
    + by apply HA.
    + destruct Hv as [-> Hr]. split; [done|by apply HL].
  - intros b. eapply IH; [| |apply Hk].
    + destruct a; cbn; try done. by apply list_subseteq_skip.
    + destruct a; cbn; try done. destruct b; [done|]. by apply list_subseteq_skip.
Qed.

Lemma provenance_act {A B} (a : action B) (f : B → prog A) (L Acc : list ptr) :
  vouched k a L Acc →
  (∀ b, provenance k (loaded_after a L b) (accepted_after a Acc b) (f b)) →
  provenance k L Acc (bind (act a) f).
Proof. intros Hv Hf. cbn. by split. Qed.

Lemma provenance_bind {A B} (p : prog A) (f : A → prog B) (L Acc : list ptr) :
  provenance k L Acc p → (∀ a, provenance k [] [] (f a)) → provenance k L Acc (bind p f).
Proof.
  revert L Acc. induction p as [a| |C a k' IH]; intros L Acc Hp Hf; cbn in *.
  - eapply provenance_mono; [| |apply Hf]; apply list_subseteq_nil.
  - done.
  - destruct Hp as [Hv Hk]. split; [done|]. intros b. by apply IH.
Qed.

Lemma setModReq_provenance (orig md : ptr) (Acc : list ptr) :
  (md = None ∨ md ∈ Acc) → provenance k [] Acc (setModReq orig md).
Proof.
  intros Hmd. unfold setModReq. cbn. split; [done|]. intros _. split; [done|]. intros isnil.
  destruct isnil, md as [l|]; cbn; repeat split; try done; by destruct Hmd.
Qed.

Lemma runFunc_provenance (r : ptr) : provenance k [] [] (runFunc r).
Proof.
  unfold runFunc. apply provenance_bind; [by repeat split|]. intros v.
  destruct (fn v) as [[req]|]; [|done]. unfold call.
  apply provenance_bind; [|by repeat split].
  apply provenance_bind; [by repeat split|]. intros _. apply setModReq_provenance. by left.
Qed.

Lemma rc_Read_provenance (b : rbody) (n : nat) : provenance k [] [] (rc_Read b n).
Proof. destruct b as [[s|]|r]; by repeat split. Qed.

Lemma rc_Close_provenance (b : rbody) : provenance k [] [] (rc_Close b).
Proof. destruct b as [[s|]|r]; by repeat split. Qed.

Lemma Read_provenance (r : ptr) (n : nat) : provenance k [] [] (Read r n).
Proof.
  unfold Read. apply provenance_bind; [by repeat split|]. intros v.
  apply provenance_bind; [apply rc_Read_provenance|]. intros res.
  case_decide; [|done]. apply provenance_bind; [apply runFunc_provenance|done].
Qed.

Lemma Close_provenance (r : ptr) : provenance k [] [] (Close r).
Proof.
  unfold Close. apply provenance_bind; [by repeat split|]. intros v.
  apply provenance_bind; [apply rc_Close_provenance|]. intros err.
  apply provenance_bind; [apply runFunc_provenance|done].
Qed.

Lemma deferred_close_provenance (req : ptr) (registered b : bool) (L Acc : list ptr) :
  provenance k L Acc (deferred_close req registered b).
Proof.
  eapply (provenance_mono _ [] _ []); [apply list_subseteq_nil..|].
  unfold deferred_close. destruct (registered && negb b); [|done].
  apply provenance_bind; [by repeat split|]. intros body.
  apply provenance_bind; [apply rc_Close_provenance|done].
Qed.

Lemma RoundTrip_provenance (req : ptr) : provenance k [] [] (RoundTrip (slack E) k req).
Proof.
  unfold RoundTrip. apply provenance_bind; [by repeat split|]. intros body.
  apply provenance_bind; [by repeat split|]. intros req2.
  destruct (requestModifier k) as [m|].
  2:{ apply provenance_bind; [apply deferred_close_provenance|done]. }
  apply provenance_act; [done|]. intros [e|]; cbn [loaded_after accepted_after].
  { apply provenance_bind; [apply deferred_close_provenance|done]. }
  apply provenance_bind.
  { apply setModReq_provenance. right. apply list_elem_of_here. }
  intros _.
  apply provenance_bind; [by repeat split|]. intros [res [e|]].
  { apply provenance_bind; [apply setModReq_provenance; by left|]. intros _.
    apply provenance_bind; [apply deferred_close_provenance|done]. }
  apply provenance_bind; [by repeat split|]. intros b.
  apply provenance_bind; [by repeat split|]. intros r.
  apply provenance_bind; [by repeat split|]. intros _.
  apply provenance_bind; [apply deferred_close_provenance|done].
Qed.

Lemma CancelRequest_provenance (req : ptr) :
  provenance k [] [] (CancelRequest (is_canceler E) k req).
Proof.
  unfold CancelRequest. destruct (is_canceler E (base k)); [|done].
  cbn. repeat split; try done. apply list_elem_of_here.
Qed.

Lemma goroutine_provenance (cs : list api_call) : provenance k [] [] (goroutine E k cs).
Proof.
  induction cs as [|c cs IH]; [done|]. cbn [goroutine].
  apply provenance_bind; [|by intros _].
  destruct c as [req|req|r n|r]; cbn [perform].
  - apply provenance_bind; [apply RoundTrip_provenance|done].
  - apply CancelRequest_provenance.
  - apply provenance_bind; [apply Read_provenance|done].
  - apply provenance_bind; [apply Close_provenance|done].
Qed.

Lemma thread_sound_mono (tr tr' : list event) (t : thread) :
  tr ⊆ tr' → thread_sound k tr t → thread_sound k tr' t.
Proof.
  intros Hsub. destruct t as [A p]. intros (L & Acc & Hp & HL & HA).
  exists L, Acc. split_and!; [done|..].
  - intros r Hr. destruct (HL r Hr) as [o Ho]. exists o. by apply Hsub.
  - intros r Hr. destruct (HA r Hr) as [md Hmd]. exists md. by apply Hsub.
Qed.

(** One more event, given where what it carries comes from. *)
Lemma trace_sound_snoc (tr : list event) (m m' : gmap ptr ptr) (ev : event) :
  trace_sound k tr m →
  (∀ o v, m' !! o = Some v → m !! o = Some v ∨ ev = EvMapStore o v) →
  (∀ o v, ev = EvMapStore o v → ∃ md, EvIntercept md v None ∈ tr) →
  (∀ o r, ev = EvMapLoad o r → r = None ∨ m !! o = Some r) →
  (∀ t r, ev = EvCancel t r → t = base k ∧ ∃ o, EvMapLoad o r ∈ tr) →
  trace_sound k (tr ++ [ev]) m'.
Proof.
  intros (H1 & H2 & H3 & H4) Hm Hstore Hload Hcancel. split_and!.
  - intros o v Hv. apply elem_of_app. destruct (Hm o v Hv) as [Hold| ->].
    + left. by apply H1.
    + right. apply list_elem_of_here.
  - intros o v [Hin|Hin%list_elem_of_singleton]%elem_of_app.
    + destruct (H2 o v Hin) as [md Hmd]. exists md. apply elem_of_app. by left.
    + destruct (Hstore o v (eq_sym Hin)) as [md Hmd]. exists md. apply elem_of_app. by left.
  - intros o r [Hin|Hin%list_elem_of_singleton]%elem_of_app.
    + destruct (H3 o r Hin) as [->|Hst]; [by left|]. right. apply elem_of_app. by left.
    + destruct (Hload o r (eq_sym Hin)) as [->|Hr]; [by left|]. right. apply elem_of_app. left.
      by apply H1.
  - intros t r [Hin|Hin%list_elem_of_singleton]%elem_of_app.
    + destruct (H4 t r Hin) as [-> [o Ho]]. split; [done|]. exists o. apply elem_of_app. by left.
    + destruct (Hcancel t r (eq_sym Hin)) as [-> [o Ho]]. split; [done|]. exists o.
      apply elem_of_app. by left.
Qed.

(** What one action that returns does to the events, to the entries and to
    what the goroutine holds. *)
Lemma step_provenance {B} (a : action B) (w w' : World X) (b : B) (L Acc : list ptr) :
  handle E a w = Next b w' → vouched k a L Acc →
  (trace w' = trace w ∧ entries w' = entries w ∧
   loaded_after a L b = L ∧ accepted_after a Acc b = Acc) ∨
  ∃ ev, trace w' = trace w ++ [ev] ∧
    match ev with
    | EvMapStore o md =>
        md ∈ Acc ∧ entries w' = <[o:=md]> (entries w) ∧
        loaded_after a L b = L ∧ accepted_after a Acc b = Acc
    | EvMapLoad o r =>
        (r = None ∨ entries w !! o = Some r) ∧ entries w' = entries w ∧
        loaded_after a L b = r :: L ∧ accepted_after a Acc b = Acc
    | EvCancel t r =>
        (t = base k ∧ r ∈ L) ∧ entries w' = entries w ∧
        loaded_after a L b = L ∧ accepted_after a Acc b = Acc
    | EvIntercept md req err =>
        entries w' = entries w ∧ loaded_after a L b = L ∧
        accepted_after a Acc b = match err with
                                 | None => req :: Acc
                                 | Some _ => Acc
                                 end
    | EvMapDelete o =>
        entries w' = delete o (entries w) ∧
        loaded_after a L b = L ∧ accepted_after a Acc b = Acc
    | EvMapMake =>
        entries w' = ∅ ∧ loaded_after a L b = L ∧ accepted_after a Acc b = Acc
    | _ =>
        entries w' = entries w ∧ loaded_after a L b = L ∧ accepted_after a Acc b = Acc
    end.
Proof.
  intros Hh Hv. unfold entries.
  destruct a; cbn in *;
    repeat match goal with
           | H : context [match ?x with _ => _ end] |- _ => destruct x eqn:?; cbn in H
           end;
    simplify_eq; first [left; done | right; eexists; (split; [done|]); cbn].
  all: repeat split; try done.
  all: try (by match goal with H : modReq _ = _ |- _ => rewrite H end).
  - unfold entries. destruct (default ∅ (modReq w) !! orig) as [r|]; cbn; auto.
  - destruct (modReq w); cbn; [done|]. by rewrite delete_empty.
  - by destruct Hv.
  - by destruct Hv.
Qed.

Lemma sched_sound (i : nat) (c : Pool X) : pool_sound k c → pool_sound k (sched E i c).
Proof.
  intros [Htr Hth]. unfold sched.
  destruct (threads c !! i) as [[A p]|] eqn:Hi; [|done].
  destruct p as [r| |B a k']; [done..|].
  destruct (Hth i _ Hi) as (L & Acc & [Hv Hk] & HL & HA).
  destruct (handle E a (world c)) as [b w'|w'|] eqn:Hh; [| |done].
  2:{ (* the action panics *)
    rewrite (crash_same E a _ _ Hh). split; cbn; [done|].
    intros j t [(<- & <- & _)|[Hne Hj]]%list_lookup_insert_Some; [|by eapply Hth].
    exists [], []. split_and!; [done| |]; by intros r Hr%elem_of_nil. }
  destruct (step_provenance a _ _ b L Acc Hh Hv) as [(Et & Ee & EL & EA)|(ev & Et & Hev)].
  { (* no event *)
    split; cbn; rewrite Et; [by rewrite Ee|].
    intros j t [(<- & <- & _)|[Hne Hj]]%list_lookup_insert_Some; [|by eapply Hth].
    exists L, Acc. split_and!; [|done..]. specialize (Hk b). by rewrite EL, EA in Hk. }
  assert (Hsub : trace (world c) ⊆ trace w').
  { rewrite Et. intros x Hx. apply elem_of_app. by left. }
  assert (Hlast : ev ∈ trace w').
  { rewrite Et. apply elem_of_app. right. apply list_elem_of_here. }
  assert (Hothers : ∀ j t, j ≠ i → threads c !! j = Some t → thread_sound k (trace w') t).
  { intros j t _ Hj. eapply thread_sound_mono; [done|by eapply Hth]. }
  assert (Hkeep : ∀ L' Acc',
            loaded_after a L b = L' → accepted_after a Acc b = Acc' →
            (∀ r, r ∈ L' → ∃ o, EvMapLoad o r ∈ trace w') →
            (∀ r, r ∈ Acc' → ∃ md, EvIntercept md r None ∈ trace w') →
            ∀ j t, <[i:=Thread (k' b)]> (threads c) !! j = Some t →
                   thread_sound k (trace w') t).
  { intros L' Acc' EL EA HL' HA' j t [(<- & <- & _)|[Hne Hj]]%list_lookup_insert_Some.
    - exists L', Acc'. split_and!; [|done..]. specialize (Hk b). by rewrite EL, EA in Hk.
    - by apply (Hothers j). }
  assert (HL1 : ∀ r, r ∈ L → ∃ o, EvMapLoad o r ∈ trace w').
  { intros r Hr. destruct (HL r Hr) as [o Ho]. exists o. by apply Hsub. }
  assert (HA1 : ∀ r, r ∈ Acc → ∃ md, EvIntercept md r None ∈ trace w').
  { intros r Hr. destruct (HA r Hr) as [md Hmd]. exists md. by apply Hsub. }
  split; cbn [world threads].
  - (* the events and the entries *)
    rewrite Et. apply (trace_sound_snoc _ (entries (world c))); [done|..].
    + intros o v Hv'. destruct ev; try (destruct Hev as (Ee & _); rewrite Ee in Hv'; by left).
      * destruct Hev as (_ & Ee & _). rewrite Ee in Hv'. by left.
      * destruct Hev as (_ & Ee & _). rewrite Ee in Hv'.
        apply lookup_insert_Some in Hv' as [[<- <-]|[_ Hv']]; [by right|by left].
      * destruct Hev as (Ee & _). rewrite Ee in Hv'.
        apply lookup_delete_Some in Hv' as [_ Hv']. by left.
      * destruct Hev as (_ & Ee & _). rewrite Ee in Hv'. by left.
    + intros o v ->. destruct Hev as (Hin & _). by apply HA.
    + intros o r ->. by destruct Hev as (Hr & _).
    + intros t r ->. destruct Hev as ((-> & Hr) & _). split; [done|]. by apply HL.
  - (* the goroutines *)
    destruct ev;
      try (destruct Hev as (_ & EL & EA); by apply (Hkeep L Acc)).
    + destruct Hev as (_ & _ & EL & EA). apply (Hkeep (res :: L) Acc); [done..| |done].
      intros r [->|Hr]%elem_of_cons; [by exists orig|by apply HL1].
    + destruct Hev as (_ & _ & EL & EA). by apply (Hkeep L Acc).
    + destruct Hev as (_ & EL & EA). destruct err as [e|]; [by apply (Hkeep L Acc)|].
      apply (Hkeep L (req :: Acc)); [done..|].
      intros r [->|Hr]%elem_of_cons; [by exists m|by apply HA1].
    + destruct Hev as (_ & _ & EL & EA). by apply (Hkeep L Acc).
Qed.

Lemma interleave_sound (schedule : list nat) (c : Pool X) :
  pool_sound k c → pool_sound k (interleave E schedule c).
Proof.
  revert c. induction schedule as [|i schedule IH]; intros c Hc; [done|].
  cbn. apply IH. by apply sched_sound.
Qed.

(** X20.  Goroutines that call [RoundTrip], [CancelRequest] and the [Read]
    and [Close] of tracked bodies on one interceptor, interleaved in any
    way, from a state whose events account for the entries of its map (a
    new interceptor, say): every entry of the map was stored, and every
    cancellation the package forwards goes to the base transport and is for
    nil or for a request that was looked up in the map, had been stored
    there for the request looked up, and had been accepted by the modifier
    ([Intercept] returned no error for it).  Nothing else is ever cancelled
    on the transport. *)
Theorem cancellations_have_provenance (css : list (list api_call)) (schedule : list nat)
    (w : World X) :
  trace_sound k (trace w) (entries w) →
  let c := interleave E schedule
             (mkPool w None ((fun cs => Thread (goroutine E k cs)) <$> css)) in
  trace_sound k (trace (world c)) (entries (world c)) ∧
  ∀ t r, EvCancel t r ∈ trace (world c) →
    t = base k ∧
    (r = None ∨
     ∃ o md, EvIntercept md r None ∈ trace (world c) ∧
             EvMapStore o r ∈ trace (world c) ∧
             EvMapLoad o r ∈ trace (world c)).
Proof.
  intros Hw c.
  assert (Hsound : pool_sound k c).
  { apply interleave_sound. split; cbn; [done|].
    intros i t Hi. apply list_lookup_fmap_Some in Hi as (cs & -> & _).
    exists [], []. split_and!; [apply goroutine_provenance| |]; by intros r Hr%elem_of_nil. }
  destruct Hsound as [Htr _]. split; [done|].
  destruct Htr as (H1 & H2 & H3 & H4).
  intros t r Hc. destruct (H4 t r Hc) as [-> [o Ho]]. split; [done|].
  destruct (H3 o r Ho) as [->|Hst]; [by left|]. right.
  destruct (H2 o r Hst) as [md Hmd]. by exists o, md.
Qed.

End ProvenanceFacts.

(** ** The test bench, run *)

Lemma test_request_closed : closed_req test_heap 0 test_request.
Proof.
  split.
  - done.
  - intros m [= <-]. by eexists.
  - intros m e k s a [= <-] [= <-] [<- <-]%lookup_singleton_Some [= <-]. by eexists.
  - intros u [= <-]. by eexists.
Qed.

Lemma bare_request_closed : closed_req test_heap 1 bare_request.
Proof. split; done. Qed.

(** [TestRequestIntercepter_RoundTrip]: the server sees the header and
    answers 200; the caller's request has the headers it had; the entry is in
    the map until the body is closed. *)
Example test_RoundTrip :
  ∃ w, run test_env (RoundTrip (slack test_env) test_interceptor (Some 0)) test_world
       = Done (Some 0, None) w ∧
     resps (heap w) !! 0 = Some (mkResponse 200 (Tracking 0)) ∧
     req_headers (heap w) 0 = {[ "Accept"%string := ["text/html"%string] ]} ∧
     req_headers (heap w) 2 = {[ "Accept"%string := ["text/html"%string];
                                 "intercepted"%string := ["true"%string] ]} ∧
     entries w = {[ Some 0 := Some 2 ]} ∧
     ∃ w', run test_env (Close (Some 0)) w = Done None w' ∧ entries w' = ∅.
Proof.
  eexists. split; [vm_compute; reflexivity|].
  split_and!; try (vm_compute; reflexivity).
  eexists. split; vm_compute; reflexivity.
Qed.

(** A server nobody listens on: the error comes back as it is and the map
    is empty afterwards. *)
Example test_RoundTrip_refused :
  ∃ w, run test_env (RoundTrip (slack test_env) dead_interceptor (Some 0)) test_world
       = Done (None, Some (Err "connection refused")) w ∧
     entries w = ∅ ∧ closes 7 (trace w) = 1.
Proof. eexists. split_and!; vm_compute; reflexivity. Qed.

(** ** The theorems at the test bench *)

Lemma cloneRequest_deep_copy_witness :
  closed_req test_heap 0 test_request ∧
  ∃ (l2 : loc) (h' : Heap),
    cloneRequest (slack test_env) (Some 0) test_heap = Some (Some l2, h') ∧
    req_headers h' l2 = req_headers test_heap 0 ∧
    req_url h' l2 = req_url test_heap 0 ∧
    ∀ ops, req_headers (exec_mutations (slack test_env) (Some l2) ops h').1 0
           = req_headers test_heap 0.
Proof.
  split; [exact test_request_closed|].
  destruct (cloneRequest_deep_copy (slack test_env) test_heap 0 test_request
              test_request_closed)
    as (l2 & m2 & v2 & e2 & h' & Hrun & _ & _ & _ & _ & _ & _ & _ & _ & _ & _ & _ & _ & _
        & Hh & _ & Hu & Hops).
  exists l2, h'. split_and!; [exact Hrun|exact Hh|exact Hu|].
  intros ops. exact (proj1 (proj2 (Hops ops))).
Defined.

Lemma cloneRequest_absent_fields_witness :
  closed_req test_heap 1 bare_request ∧
  RURL bare_request = None ∧ Header bare_request = None ∧
  ∃ (l2 : loc) (v2 : Request) (h' : Heap),
    cloneRequest (slack test_env) (Some 1) test_heap = Some (Some l2, h') ∧
    reqs h' !! l2 = Some v2 ∧ RURL v2 = None ∧
    ∃ m2, Header v2 = Some m2 ∧ hdrs h' !! m2 = Some ∅.
Proof.
  split_and!; [exact bare_request_closed|reflexivity|reflexivity|].
  destruct (cloneRequest_absent_fields (slack test_env) test_heap 1 bare_request
              bare_request_closed)
    as (l2 & v2 & h' & Hrun & Hv2 & Hurl & Hhdr).
  exists l2, v2, h'. split_and!; [exact Hrun|exact Hv2|exact (proj1 (Hurl eq_refl))|].
  destruct (Hhdr eq_refl) as (m2 & Hm2 & _ & He & _).
  exists m2. split; [exact Hm2|exact He].
Defined.

Lemma tracking_entry_lifecycle_witness :
  closed_req (heap test_world) 0 test_request ∧
  requestModifier test_interceptor = Some setting_modifier ∧
  mu test_world = false ∧
  ∃ (res rd : loc) (w1 : World nat),
    run test_env (RoundTrip (slack test_env) test_interceptor (Some 0)) test_world
      = Done (Some res, None) w1 ∧
    entries w1 !! Some 0 = Some (Some 2) ∧
    ∀ us : list body_use,
      ∃ (w2 : World nat) (evs : list event),
        run test_env (uses (Some rd) us) w1 = Done tt w2 ∧
        trace w2 = trace w1 ++ evs ∧
        deletes (Some 0) evs = (if triggered evs then 1 else 0) ∧
        size (entries w2) = (if triggered evs then 0 else 1).
Proof.
  split_and!; [exact test_request_closed|reflexivity|reflexivity|].
  destruct (tracking_entry_lifecycle test_env test_interceptor setting_modifier 0
              test_request test_world test_request_closed eq_refl eq_refl)
    as (l2 & h1 & Hclone & H).
  vm_compute in Hclone. injection Hclone as <- <-.
  destruct (H _ _ _ _ _ _ eq_refl eq_refl) as (_ & _ & _ & Hsent).
  destruct (Hsent _ _ eq_refl eq_refl eq_refl)
    as (res & rd & w1 & Hrun & _ & Hentry & _ & _ & Huses).
  exists res, rd, w1. split_and!; [exact Hrun|exact Hentry|].
  intros us. destruct (Huses us) as (w2 & evs & Hrun2 & Htr & _ & Hdel & _ & Hsize).
  exists w2, evs. split_and!; [exact Hrun2|exact Htr|exact Hdel|exact (Hsize eq_refl)].
Defined.

Lemma RoundTrip_intercept_error_witness :
  closed_req (heap test_world) 0 test_request ∧
  requestModifier refusing_interceptor = Some refusing_modifier ∧
  ∃ w' : World nat,
    run test_env (RoundTrip (slack test_env) refusing_interceptor (Some 0)) test_world
      = Done (None, Some (Wrapped (Err "refused") "error while intercepting request")) w' ∧
    modReq w' = None ∧
    trace w' = [EvIntercept refusing_modifier (Some 2) (Some (Err "refused"));
                EvClose 7 None].
Proof.
  split_and!; [exact test_request_closed|reflexivity|].
  destruct (RoundTrip_intercept_error test_env refusing_interceptor refusing_modifier 0
              test_request test_world test_request_closed eq_refl)
    as (l2 & h1 & Hclone & H).
  vm_compute in Hclone. injection Hclone as <- <-.
  destruct (H _ _ _ eq_refl eq_refl) as (w' & evs & Hrun & _ & _ & Hmap & Htr & Hevs & _).
  exists w'. split_and!; [exact Hrun|exact Hmap|].
  rewrite Htr, Hevs. reflexivity.
Defined.

Lemma RoundTrip_base_error_witness :
  closed_req (heap test_world) 0 test_request ∧
  requestModifier dead_interceptor = Some setting_modifier ∧
  mu test_world = false ∧
  ∃ w' : World nat,
    run test_env (RoundTrip (slack test_env) dead_interceptor (Some 0)) test_world
      = Done (None, Some (Err "connection refused")) w' ∧
    entries w' !! Some 0 = None ∧ size (entries w') = 0.
Proof.
  split_and!; [exact test_request_closed|reflexivity|reflexivity|].
  destruct (RoundTrip_base_error test_env dead_interceptor setting_modifier 0
              test_request test_world test_request_closed eq_refl eq_refl)
    as (l2 & h1 & Hclone & H).
  vm_compute in Hclone. injection Hclone as <- <-.
  destruct (H _ _ _ _ _ _ eq_refl eq_refl) as (w' & evs & Hrun & _ & _ & Hgone & _ & Hsize).
  exists w'. split_and!; [exact Hrun|exact Hgone|exact (Hsize eq_refl)].
Defined.


Lemma tracked_body_delegates_witness :
  rdrs (heap busy_world) !! 0 = Some (mkReader (Plain (Some 9)) (Some (UnsetModReq (Some 0)))) ∧
  mu busy_world = false ∧
  ∃ w' : World nat, run test_env (Close (Some 0)) busy_world = Done None w'.
Proof.
  split_and!; [reflexivity|reflexivity|].
  destruct (tracked_body_delegates test_env 0
              (mkReader (Plain (Some 9)) (Some (UnsetModReq (Some 0)))) 9 busy_world
              eq_refl eq_refl eq_refl)
    as [_ Hclose].
  destruct (Hclose 0 None eq_refl) as (w' & Hrun & _).
  exists w'. exact Hrun.
Defined.

Lemma CancelRequest_behaviour_witness :
  mu busy_world = false ∧
  is_canceler test_env (base default_interceptor) = true ∧
  run test_env (CancelRequest (is_canceler test_env) default_interceptor (Some 0)) busy_world
  = Done tt (mkWorld (heap busy_world) 0 false (Some ∅)
               [EvLock; EvMapLoad (Some 0) (Some 5); EvMapDelete (Some 0); EvUnlock;
                EvCancel DefaultTransport (Some 5)]).
Proof.
  split_and!; [reflexivity|reflexivity|].
  exact (proj1 (proj1 (CancelRequest_behaviour test_env default_interceptor (Some 0)
                         busy_world eq_refl) eq_refl)).
Defined.

(** The claim C7 says the entry of every request passed to [CancelRequest]
    is looked up and removed.  With a base transport that has no
    [CancelRequest] method the entry is still there after the call. *)
Lemma CancelRequest_keeps_entry_without_canceler :
  is_canceler test_env (base test_interceptor) = false ∧
  entries busy_world !! Some 0 = Some (Some 5) ∧
  run test_env (CancelRequest (is_canceler test_env) test_interceptor (Some 0)) busy_world
  = Done tt busy_world ∧
  ¬ (entries busy_world !! Some 0 = None).
Proof. split_and!; [reflexivity..|discriminate]. Qed.

(** Without an entry for the request, a transport that has the method is
    still called, with nil. *)
Example CancelRequest_unknown_request :
  ∃ w, run test_env (CancelRequest (is_canceler test_env) default_interceptor (Some 1))
         busy_world = Done tt w ∧
       trace w = [EvLock; EvMapLoad (Some 1) None; EvMapDelete (Some 1); EvUnlock;
                  EvCancel DefaultTransport None].
Proof. eexists. split; vm_compute; reflexivity. Qed.

Lemma request_body_closed_once_witness :
  closed_req (heap test_world) 0 test_request ∧
  Body test_request = Some 7 ∧ mu test_world = false ∧
  ∃ evs : list event,
    trace (final (run test_env (RoundTrip (slack test_env) test_interceptor (Some 0))
                    test_world)) = trace test_world ++ evs ∧
    Forall (fun ev => is_close ev = false) evs ∧
    closes 7 evs = 1.
Proof.
  split_and!; [exact test_request_closed|reflexivity|reflexivity|].
  destruct (request_body_closed_once test_env test_interceptor 0 test_request 7
              test_world test_request_closed eq_refl eq_refl)
    as (l2 & h1 & Hclone & _ & H).
  vm_compute in Hclone. injection Hclone as <- <-.
  destruct (H setting_modifier _ _ _ eq_refl eq_refl) as [_ Hsent].
  destruct (Hsent eq_refl _ _ _ _ eq_refl) as (evs & Htr & Hnone & _ & Hone).
  exists evs. split_and!; [exact Htr|exact Hnone|exact (Hone eq_refl)].
Defined.

Lemma map_accesses_serialized_witness :
  mu test_world = false ∧
  ∀ i j ti tj,
    let c := interleave test_env [0; 1; 0; 1; 1; 0; 0; 1; 1; 0; 1; 0]
               (mkPool test_world None
                  ((fun cs => Thread (goroutine test_env test_interceptor cs)) <$>
                   [[CallRoundTrip (Some 0)];
                    [CallRoundTrip (Some 1); CallCancelRequest (Some 0)]])) in
    threads c !! i = Some ti → threads c !! j = Some tj →
    in_critical ti → in_critical tj → i = j.
Proof.
  split; [reflexivity|].
  exact (proj1 (proj2 (proj2
           (map_accesses_serialized test_env test_interceptor
              [[CallRoundTrip (Some 0)];
               [CallRoundTrip (Some 1); CallCancelRequest (Some 0)]]
              [0; 1; 0; 1; 1; 0; 0; 1; 1; 0; 1; 0] test_world eq_refl)))).
Defined.

(** ** The further theorems at the test bench *)

Lemma chunked_request_closed : closed_req chunked_heap 0 chunked_request.
Proof.
  split.
  - done.
  - intros m [= <-]. by eexists.
  - intros m e k s a [= <-] He Hk. vm_compute in He. injection He as <-. done.
  - done.
Qed.

Lemma bare_request_busy : closed_req (heap busy_world) 1 bare_request.
Proof. split; done. Qed.

Lemma setModReq_effect_witness :
  mu test_world = false ∧
  ∃ w', run test_env (setModReq (Some 0) (Some 2)) test_world = Done tt w' ∧
    entries w' !! Some 0 = Some (Some 2) ∧ mu w' = false.
Proof.
  split; [reflexivity|].
  destruct (setModReq_effect test_env (Some 0) (Some 2) test_world eq_refl)
    as (w' & Hrun & Hlook & _ & _ & Hmu & _).
  exists w'. split_and!; [exact Hrun|exact Hlook|exact Hmu].
Defined.

Lemma setModReq_compose_witness :
  mu busy_world = false ∧
  entries (final (run test_env (bind (setModReq (Some 1) (Some 2))
                                  (fun _ => setModReq (Some 1) None)) busy_world))
  = delete (Some 1) (entries busy_world).
Proof.
  split; [reflexivity|].
  exact (proj1 (setModReq_compose test_env (Some 1) 2 3 busy_world eq_refl)).
Defined.

Lemma api_calls_release_mutex_witness :
  mu test_world = false ∧
  mu (final (run test_env
               (goroutine test_env test_interceptor
                  [CallRoundTrip (Some 0); CallCancelRequest (Some 0); CallClose (Some 0);
                   CallRoundTrip None])
               test_world)) = false.
Proof.
  split; [reflexivity|].
  exact (proj2 (api_calls_release_mutex test_env test_interceptor
                  [CallRoundTrip (Some 0); CallCancelRequest (Some 0); CallClose (Some 0);
                   CallRoundTrip None] test_world eq_refl)).
Defined.

Lemma RoundTrip_without_modifier_witness :
  closed_req (heap test_world) 0 test_request ∧
  ∃ w', run test_env (RoundTrip (slack test_env)
                        (NewRequestInterceptor (Some test_server) None) (Some 0)) test_world
        = Panicked w' ∧
    modReq w' = None ∧ trace w' = [EvClose 7 None].
Proof.
  split; [exact test_request_closed|].
  destruct (RoundTrip_without_modifier test_env (Some test_server) 0 test_request test_world
              test_request_closed) as (w' & Hrun & Hmap & _ & Htr & _).
  exists w'. split_and!; [exact Hrun|exact Hmap|exact Htr].
Defined.

Lemma RoundTrip_nil_response_witness :
  closed_req (heap test_world) 0 test_request ∧
  requestModifier silent_interceptor = Some setting_modifier ∧
  mu test_world = false ∧
  ∃ w', run edge_env (RoundTrip (slack edge_env) silent_interceptor (Some 0)) test_world
        = Panicked w' ∧
    entries w' !! Some 0 = Some (Some 2).
Proof.
  split_and!; [exact test_request_closed|reflexivity|reflexivity|].
  destruct (RoundTrip_nil_response edge_env silent_interceptor setting_modifier 0
              test_request test_world test_request_closed eq_refl eq_refl)
    as (l2 & h1 & Hclone & H).
  vm_compute in Hclone. injection Hclone as <- <-.
  destruct (H _ _ _ _ eq_refl eq_refl) as (w' & Hrun & Hent & _).
  exists w'. split; [exact Hrun|exact Hent].
Defined.

Lemma RoundTrip_without_body_witness :
  closed_req (heap test_world) 1 bare_request ∧
  Body bare_request = None ∧ mu test_world = false ∧
  ∃ evs,
    trace (final (run test_env (RoundTrip (slack test_env) test_interceptor (Some 1))
                    test_world)) = trace test_world ++ evs ∧
    Forall (fun ev => is_close ev = false) evs.
Proof.
  split_and!; [exact bare_request_closed|reflexivity|reflexivity|].
  exact (RoundTrip_without_body test_env test_interceptor 1 bare_request test_world
           bare_request_closed eq_refl eq_refl).
Defined.


Lemma RoundTrip_keeps_other_entries_witness :
  closed_req (heap busy_world) 1 bare_request ∧ mu busy_world = false ∧
  entries (final (run test_env (RoundTrip (slack test_env) test_interceptor (Some 1))
                    busy_world)) !! Some 0 = Some (Some 5).
Proof.
  split_and!; [exact bare_request_busy|reflexivity|].
  exact (proj1 (RoundTrip_keeps_other_entries test_env test_interceptor 1 bare_request
                  busy_world bare_request_busy eq_refl) (Some 0) ltac:(discriminate)).
Defined.

Lemma CancelRequest_after_RoundTrip_witness :
  closed_req (heap test_world) 0 test_request ∧
  requestModifier test_interceptor = Some setting_modifier ∧
  mu test_world = false ∧
  is_canceler edge_env (base test_interceptor) = true ∧
  ∃ (res : loc) (w1 w2 : World nat),
    run edge_env (RoundTrip (slack edge_env) test_interceptor (Some 0)) test_world
      = Done (Some res, None) w1 ∧
    run edge_env (CancelRequest (is_canceler edge_env) test_interceptor (Some 0)) w1
      = Done tt w2 ∧
    trace w2 = trace w1 ++ [EvLock; EvMapLoad (Some 0) (Some 2); EvMapDelete (Some 0);
                            EvUnlock; EvCancel test_server (Some 2)] ∧
    entries w2 = delete (Some 0) (entries test_world).
Proof.
  split_and!; [exact test_request_closed|reflexivity|reflexivity|reflexivity|].
  destruct (CancelRequest_after_RoundTrip edge_env test_interceptor setting_modifier 0
              test_request test_world test_request_closed eq_refl eq_refl eq_refl)
    as (l2 & h1 & Hclone & H).
  vm_compute in Hclone. injection Hclone as <- <-.
  destruct (H _ _ _ _ _ eq_refl eq_refl)
    as (res & rd & w1 & w2 & w3 & Hrun & _ & _ & Hrun2 & Htr2 & _ & Hent & _).
  exists res, w1, w2. split_and!; [exact Hrun|exact Hrun2|exact Htr2|exact Hent].
Defined.

Lemma cloneRequest_shares_trailer_witness :
  closed_req chunked_heap 0 chunked_request ∧
  Trailer chunked_request = Some 1 ∧ hdrs chunked_heap !! 1 = Some ∅ ∧
  ∃ (l2 : loc) (v2 : Request) (h' h'' : Heap),
    cloneRequest (slack test_env) (Some 0) chunked_heap = Some (Some l2, h') ∧
    reqs h' !! l2 = Some v2 ∧ l2 ≠ 0 ∧
    map_assign (Trailer v2) "Expires" nil_slice h' = Some (tt, h'') ∧
    hdrs h'' !! 1 = Some {[ "Expires"%string := nil_slice ]}.
Proof.
  split_and!; [exact chunked_request_closed|reflexivity|reflexivity|].
  destruct (cloneRequest_shares_trailer (slack test_env) chunked_heap 0 chunked_request
              chunked_request_closed)
    as (l2 & v2 & h' & Hrun & Hne & Hv2 & _ & _ & _ & _ & _ & _ & Htr).
  destruct (Htr 1 ∅ eq_refl eq_refl) as (_ & _ & Hassign).
  destruct (Hassign "Expires"%string nil_slice) as (h'' & Hrun2 & _ & Hmap & _).
  exists l2, v2, h', h''. split_and!; [exact Hrun|exact Hv2|exact Hne|exact Hrun2|exact Hmap].
Defined.

Lemma tracked_body_transparent_witness :
  rdrs (heap busy_world) !! 0 = Some (mkReader (Plain (Some 9)) (Some (UnsetModReq (Some 0)))) ∧
  mu busy_world = false ∧
  ∃ (w' : World nat) (evs : list event),
    run test_env (uses (Some 0) [UseRead 8; UseRead 8; UseRead 8; UseClose]) busy_world
      = Done tt w' ∧
    stream_events evs =
      [EvRead 9 8 (8, None); EvRead 9 8 (8, None); EvRead 9 8 (0, Some EOF); EvClose 9 None] ∧
    ext w' = 3.
Proof.
  split_and!; [reflexivity|reflexivity|].
  destruct (tracked_body_transparent test_env 0
              (mkReader (Plain (Some 9)) (Some (UnsetModReq (Some 0)))) 9
              [UseRead 8; UseRead 8; UseRead 8; UseClose] busy_world eq_refl eq_refl eq_refl)
    as (w' & evs & Hrun & _ & Hev & Hx).
  exists w', evs. split_and!; [exact Hrun|exact Hev|exact Hx].
Defined.

Lemma RoundTrip_response_without_body_witness :
  closed_req (heap test_world) 0 test_request ∧
  requestModifier bodiless_interceptor = Some setting_modifier ∧
  mu test_world = false ∧
  ∃ (res rd : loc) (w1 : World nat),
    run edge_env (RoundTrip (slack edge_env) bodiless_interceptor (Some 0)) test_world
      = Done (Some res, None) w1 ∧
    run edge_env (Close (Some rd)) w1 = Panicked w1 ∧
    entries w1 !! Some 0 = Some (Some 2).
Proof.
  split_and!; [exact test_request_closed|reflexivity|reflexivity|].
  destruct (RoundTrip_response_without_body edge_env bodiless_interceptor setting_modifier 0
              test_request test_world test_request_closed eq_refl eq_refl)
    as (l2 & h1 & Hclone & H).
  vm_compute in Hclone. injection Hclone as <- <-.
  destruct (H _ _ _ _ _ eq_refl eq_refl eq_refl)
    as (res & rd & w1 & Hrun & _ & _ & Hent & _ & Hclose & _).
  exists res, rd, w1. split_and!; [exact Hrun|exact Hclose|exact Hent].
Defined.

Lemma tracking_map_binds_no_nil_witness :
  no_nil_entry (entries busy_world) ∧
  no_nil_entry
    (entries (world (interleave test_env [0; 1; 0; 1; 1; 0; 0; 1; 1; 0; 1; 0]
                       (mkPool busy_world None
                          ((fun cs => Thread (goroutine test_env test_interceptor cs)) <$>
                           [[CallRoundTrip (Some 0)];
                            [CallRoundTrip (Some 1); CallCancelRequest (Some 0)]]))))).
Proof.
  assert (H : no_nil_entry (entries busy_world)).
  { apply map_Forall_singleton. discriminate. }
  split; [exact H|].
  exact (proj1 (tracking_map_binds_no_nil test_env test_interceptor
                  [[CallRoundTrip (Some 0)];
                   [CallRoundTrip (Some 1); CallCancelRequest (Some 0)]]
                  [0; 1; 0; 1; 1; 0; 0; 1; 1; 0; 1; 0] busy_world H)).
Defined.

Lemma pool_never_stuck_witness :
  mu test_world = false ∧
  owner locked_pool = Some 0 ∧
  can_step test_env locked_pool 0 = true.
Proof.
  assert (Hown : owner locked_pool = Some 0) by (vm_compute; reflexivity).
  split_and!; [reflexivity|exact Hown|].
  exact (proj1 (pool_never_stuck test_env test_interceptor
                  [[CallRoundTrip (Some 0)];
                   [CallRoundTrip (Some 1); CallCancelRequest (Some 0)]]
                  [0; 0; 0; 0] test_world eq_refl) 0 Hown).
Defined.

Lemma critical_section_bounded_witness :
  mu test_world = false ∧
  owner locked_pool = Some 0 ∧
  ∃ n, 0 < n ≤ 4 ∧ owner (interleave test_env (replicate n 0) locked_pool) = None.
Proof.
  assert (Hown : owner locked_pool = Some 0) by (vm_compute; reflexivity).
  split_and!; [reflexivity|exact Hown|].
  destruct (critical_section_bounded test_env test_interceptor
              [[CallRoundTrip (Some 0)];
               [CallRoundTrip (Some 1); CallCancelRequest (Some 0)]]
              [0; 0; 0; 0] test_world eq_refl 0 Hown) as (n & Hn & Hrel & _).
  exists n. split; [exact Hn|exact Hrel].
Defined.

Lemma RoundTrip_leaves_request_witness :
  closed_req (heap test_world) 0 test_request ∧
  requestModifier test_interceptor = Some setting_modifier ∧
  mu test_world = false ∧
  (∀ req h x, (intercept test_env setting_modifier req h x).1.1 =
              (exec_mutations (slack test_env) req
                 [HeaderSet "intercepted" ["true"%string]] h).1) ∧
  req_headers (heap (final (run test_env
                              (RoundTrip (slack test_env) test_interceptor (Some 0))
                              test_world))) 0
  = req_headers (heap test_world) 0.
Proof.
  assert (Hmod : ∀ req h x, (intercept test_env setting_modifier req h x).1.1 =
            (exec_mutations (slack test_env) req
               [HeaderSet "intercepted" ["true"%string]] h).1).
  { intros req h x. cbn [intercept test_env setting_modifier exec_mutations slack].
    destruct (exec_mutation _ req _ h) as [[[] h']|]; reflexivity. }
  split_and!; [exact test_request_closed|reflexivity|reflexivity|exact Hmod|].
  exact (proj1 (proj2 (RoundTrip_leaves_request test_env test_interceptor setting_modifier
                         [HeaderSet "intercepted" ["true"%string]] 0 test_request
                         test_world test_request_closed eq_refl eq_refl Hmod))).
Defined.

Lemma cloneRequest_twice_witness :
  closed_req test_heap 0 test_request ∧
  ∃ (l2 l3 : loc) (h1 h2 : Heap),
    cloneRequest (slack test_env) (Some 0) test_heap = Some (Some l2, h1) ∧
    cloneRequest (slack test_env) (Some l2) h1 = Some (Some l3, h2) ∧
    req_headers h2 l3 = req_headers test_heap 0 ∧
    req_url h2 l3 = req_url test_heap 0.
Proof.
  split; [exact test_request_closed|].
  destruct (cloneRequest_twice (slack test_env) test_heap 0 test_request test_request_closed)
    as (l2 & l3 & h1 & h2 & Hrun1 & Hrun2 & _ & _ & _ & Hh & Hu & _).
  exists l2, l3, h1, h2. split_and!; [exact Hrun1|exact Hrun2|exact Hh|exact Hu].
Defined.

Lemma intercepted_header_reaches_transport_witness :
  closed_req (heap test_world) 0 test_request ∧
  requestModifier test_interceptor = Some setting_modifier ∧
  mu test_world = false ∧
  (∀ req h x,
     intercept test_env setting_modifier req h x =
     match exec_mutation (slack test_env) req (HeaderSet "intercepted" ["true"%string]) h with
     | Some (_, h') => (h', x, None)
     | None => (h, x, Some (Err "no header map"))
     end) ∧
  ∃ (l2 : loc) (h2 : Heap),
    l2 ≠ 0 ∧
    req_headers h2 l2 = <["intercepted"%string:=["true"%string]]> (req_headers test_heap 0) ∧
    req_headers h2 0 = req_headers test_heap 0.
Proof.
  split_and!; [exact test_request_closed|reflexivity|reflexivity|reflexivity|].
  destruct (intercepted_header_reaches_transport test_env test_interceptor setting_modifier
              "intercepted" ["true"%string] 0 test_request test_world
              test_request_closed eq_refl eq_refl ltac:(reflexivity))
    as (l2 & h2 & Hne & Hh2 & _ & Hh0 & _).
  exists l2, h2. split_and!; [exact Hne|exact Hh2|exact Hh0].
Defined.

Lemma fresh_trace_sound (k : RequestIntercepter) : trace_sound k [] ∅.
Proof.
  split_and!.
  - intros o v Hv. by rewrite lookup_empty in Hv.
  - by intros o v Hin%elem_of_nil.
  - by intros o r Hin%elem_of_nil.
  - by intros t r Hin%elem_of_nil.
Qed.

Lemma cancellations_have_provenance_witness :
  trace_sound test_interceptor (trace test_world) (entries test_world) ∧
  let c := interleave edge_env [0; 0; 0; 0; 0; 0; 0; 0; 0; 0; 0; 0; 1; 1; 1; 1; 1]
             (mkPool test_world None
                ((fun cs => Thread (goroutine edge_env test_interceptor cs)) <$>
                 [[CallRoundTrip (Some 0)]; [CallCancelRequest (Some 0)]])) in
  EvCancel test_server (Some 2) ∈ trace (world c) ∧
  ∃ o md, EvIntercept md (Some 2) None ∈ trace (world c) ∧
          EvMapStore o (Some 2) ∈ trace (world c) ∧
          EvMapLoad o (Some 2) ∈ trace (world c).
Proof.
  split; [exact (fresh_trace_sound test_interceptor)|].
  intros c.
  assert (Hin : EvCancel test_server (Some 2) ∈ trace (world c)).
  { apply (bool_decide_unpack (EvCancel test_server (Some 2) ∈ trace (world c))).
    vm_compute. exact I. }
  split; [exact Hin|].
  destruct (proj2 (cancellations_have_provenance edge_env test_interceptor
                     [[CallRoundTrip (Some 0)]; [CallCancelRequest (Some 0)]]
                     [0; 0; 0; 0; 0; 0; 0; 0; 0; 0; 0; 0; 1; 1; 1; 1; 1] test_world
                     (fresh_trace_sound test_interceptor))
              test_server (Some 2) Hin) as [_ [Hnil|Hprov]].
  - discriminate Hnil.
  - exact Hprov.
Defined.

Lemma cloneRequest_allocates_only_witness :
  closed_req test_heap 0 test_request ∧
  ∃ (l2 m2 : loc) (h' : Heap),
    cloneRequest (slack test_env) (Some 0) test_heap = Some (Some l2, h') ∧
    test_heap ⊑ h' ∧
    dom (reqs h') = {[l2]} ∪ dom (reqs test_heap).
Proof.
  split; [exact test_request_closed|].
  destruct (cloneRequest_allocates_only (slack test_env) test_heap 0 test_request
              test_request_closed) as (l2 & m2 & h' & Hrun & Hincl & _ & Hdom & _).
  exists l2, m2, h'. split_and!; [exact Hrun|exact Hincl|exact Hdom].
Defined.

Lemma RoundTrip_returns_witness :
  closed_req (heap test_world) 0 test_request ∧
  requestModifier test_interceptor = Some setting_modifier ∧
  mu test_world = false ∧
  ∃ (res : ptr) (err : option error) (w' : World nat),
    run test_env (RoundTrip (slack test_env) test_interceptor (Some 0)) test_world
      = Done (res, err) w' ∧
    (res = None ↔ is_Some err).
Proof.
  split_and!; [exact test_request_closed|reflexivity|reflexivity|].
  destruct (RoundTrip_returns test_env test_interceptor setting_modifier 0
              test_request test_world test_request_closed eq_refl eq_refl)
    as (l2 & h1 & Hclone & H).
  vm_compute in Hclone. injection Hclone as <- <-.
  destruct (H _ _ _ eq_refl eq_refl ltac:(intros x3 closed; discriminate))
    as (res & err & w' & Hrun & Hiff & _).
  exists res, err, w'. split; [exact Hrun|exact Hiff].
Defined.
